(** * Instagram Reel Slider: the video lifecycle tracker, the geometry
      selector, the progress renderer and the command dispatcher

    A shallow embedding of the content script (and of the userscript, which
    carries the same functions) together with the properties its
    specification states.

    - JavaScript numbers are IEEE 754 binary64 values: they are modelled by
      Rocq's primitive floats, so [NaN], the two zeros and rounding are the
      ones the script sees.
    - DOM objects have an identity: every element carries a reference
      ([ref]); [WeakSet] and [WeakMap] are keyed by it.
    - The document is a tree of elements; layout facts the script only reads
      (offset parent, computed position, bounding box) are attributes of the
      elements.
    - Functions that touch the tracker or the document run in a small
      state-and-exception monad ([Stmt]).

    The first theorem sections settle the properties the specification
    states; the sections after them cover the rest of the script (wired
    handlers, keyboard shortcuts, command messages, removal batches, the
    debug interface) with properties read off the code. *)

From Stdlib Require Import ZArith Floats Lia.
From stdpp Require Import base strings gmap list.

Set Warnings "-inexact-float,-register-all".

(* ===================================================================== *)
(** * JavaScript numbers *)
(* ===================================================================== *)

Module JS.
Local Open Scope float_scope.

(** [isNaN(x)] for a number [x]. *)
Definition isNaN (x : float) : bool := is_nan x.

(** [isFinite(x)]: neither [NaN] nor an infinity. *)
Definition isFinite (x : float) : bool := (neg_infinity <? x) && (x <? infinity).

(** Truthiness of a number: [0], [-0] and [NaN] are falsy. *)
Definition truthy (x : float) : bool := negb (is_zero x || is_nan x).

(** [x || y] on numbers. *)
Definition or_else (x y : float) : float := if truthy x then x else y.

(** [Math.max(a, b)]: [NaN] if either argument is, and [+0] above [-0]. *)
Definition Math_max (a b : float) : float :=
  if is_nan a || is_nan b then nan
  else if a <? b then b
  else if b <? a then a
  else if get_sign a then b else a.

(** [Math.min(a, b)]: [NaN] if either argument is, and [-0] below [+0]. *)
Definition Math_min (a b : float) : float :=
  if is_nan a || is_nan b then nan
  else if a <? b then a
  else if b <? a then b
  else if get_sign a then a else b.

(** [arr.indexOf(x)]: the first index whose entry is strictly equal
    ([===]) to [x], or [-1]. *)
Fixpoint indexOf_from (i : Z) (x : float) (arr : list float) : Z :=
  match arr with
  | [] => (-1)%Z
  | y :: arr' => if y =? x then i else indexOf_from (i + 1)%Z x arr'
  end.

Definition indexOf (arr : list float) (x : float) : Z := indexOf_from 0%Z x arr.

(** [arr[i]] for an integer [i]; [None] stands for [undefined]. *)
Definition at_index (arr : list float) (i : Z) : option float :=
  if (i <? 0)%Z then None else arr !! Z.to_nat i.
End JS.

(* ===================================================================== *)
(** * The document *)
(* ===================================================================== *)

(** Object identity of a DOM node. *)
Definition ref := nat.

(** [getBoundingClientRect()]. *)
Record DOMRect := {
  r_top : float; r_left : float; r_bottom : float; r_right : float;
  r_width : float; r_height : float }.

(** The playback attributes of a video element.  [playbackRate] is [None]
    when the property is missing (reads as [undefined]). *)
Record Media := {
  currentTime : float;
  duration : float;
  paused : bool;
  volume : float;
  playbackRate : option float }.

(** [slider.style.background]: the two-stop gradient the script writes, both
    stops at [pct]%. *)
Inductive Background := linear_gradient (pct : float).

(** The scrub control, an [<input type="range">]. *)
Record Slider := {
  slider_min : float;
  slider_step : float;
  slider_value : float;
  slider_max : option float;
  slider_background : option Background }.

Inductive Kind :=
| KVideo (m : Media)    (* tag name VIDEO *)
| KInput (s : Slider)   (* the scrub control *)
| KOther.               (* any other element *)

(** Where the host page makes an access on one of its elements raise.
    Both are accesses [createControls] makes before it inserts anything
    into the page.  A raise of any other access, such as one made with
    the container already in the page, is not followed, and nothing is
    stated about one. *)
Inductive Fault :=
| RaisesOnLayout   (* reading the element's layout ([offsetParent]) raises *)
| RaisesOnListen.  (* [addEventListener] on the element raises *)

Record Elem := {
  eid : ref;
  kind : Kind;
  instanceof_HTMLVideoElement : bool;
  className : string;
  dataset_forVideo : option string;   (* [el.dataset.forVideo] *)
  dataset_customId : option string;   (* [el.dataset.customId] *)
  position : string;                  (* [getComputedStyle(el).position] *)
  offsetParent : option ref;
  rect : DOMRect;
  fault : option Fault }.

Inductive Node := Element (e : Elem) (children : list Node).

Definition elem (n : Node) : Elem := match n with Element e _ => e end.
Definition children (n : Node) : list Node := match n with Element _ cs => cs end.

(** The elements below a node, in document (pre-)order. *)
Fixpoint descendants (n : Node) : list Elem :=
  match n with
  | Element _ cs => flat_map (fun c => elem c :: descendants c) cs
  end.

(** A node and everything below it. *)
Definition subtree_elems (n : Node) : list Elem := elem n :: descendants n.

Definition ids (n : Node) : list ref := map eid (subtree_elems n).

(** The first result some element of a list gives. *)
Definition first_some {A B} (f : A -> option B) : list A -> option B :=
  fix go l :=
    match l with
    | [] => None
    | a :: l' => match f a with Some b => Some b | None => go l' end
    end.

(** The subtree rooted at the (first) element named [id]. *)
Fixpoint find_node (id : ref) (n : Node) : option Node :=
  match n with
  | Element e cs =>
      if Nat.eqb (eid e) id then Some n else first_some (find_node id) cs
  end.

(** The ancestors of the element named [id], nearest first; [None] when the
    element is not in the tree. *)
Fixpoint ancestors (id : ref) (n : Node) : option (list Elem) :=
  match n with
  | Element e cs =>
      if Nat.eqb (eid e) id then Some []
      else option_map (fun chain => chain ++ [e]) (first_some (ancestors id) cs)
  end.

(** Apply [f] to the node named [id]. *)
Fixpoint update_node (id : ref) (f : Node -> Node) (n : Node) : Node :=
  match n with
  | Element e cs =>
      let n' := Element e (map (update_node id f) cs) in
      if Nat.eqb (eid e) id then f n' else n'
  end.

(** [parent.appendChild(child)] for a [child] that is not in the tree. *)
Definition append (child : Node) (parent : Node) : Node :=
  Element (elem parent) (children parent ++ [child]).

Definition appendChild (parent : ref) (child : Node) (doc : Node) : Node :=
  update_node parent (append child) doc.

(** [container.parentElement.removeChild(container)]: detach the node named
    [id] from its parent. *)
Fixpoint removeChild (id : ref) (n : Node) : Node :=
  match n with
  | Element e cs =>
      Element e
        (flat_map (fun c => if Nat.eqb (eid (elem c)) id then []
                            else [removeChild id c]) cs)
  end.

Definition is_video (e : Elem) : bool :=
  match kind e with KVideo _ => true | _ => false end.

Definition has_class (cls : string) (e : Elem) : bool :=
  bool_decide (className e = cls).

(** [node.querySelectorAll('video')]: the video elements below [node]. *)
Definition querySelectorAll_video (n : Node) : list Elem :=
  List.filter is_video (descendants n).

(** [node.querySelector('.' + cls)]: the first element below [node] carrying
    the class. *)
Definition querySelector_class (cls : string) (n : Node) : option Elem :=
  List.find (has_class cls) (descendants n).

(** The playback attributes read from an element; an element that is not a
    video has none, and arithmetic on [undefined] gives [NaN]. *)
Definition no_media : Media :=
  {| currentTime := nan; duration := nan; paused := false; volume := nan;
     playbackRate := None |}.

Definition media_of (e : Elem) : Media :=
  match kind e with KVideo m => m | _ => no_media end.

Definition with_kind (k : Kind) (e : Elem) : Elem :=
  {| eid := eid e; kind := k;
     instanceof_HTMLVideoElement := instanceof_HTMLVideoElement e;
     className := className e;
     dataset_forVideo := dataset_forVideo e;
     dataset_customId := dataset_customId e;
     position := position e; offsetParent := offsetParent e;
     rect := rect e; fault := fault e |}.

(** Change the element of a node, keeping what is below it. *)
Definition on_elem (g : Elem -> Elem) (n : Node) : Node :=
  Element (g (elem n)) (children n).

(** Assign playback attributes of the video named [id]. *)
Definition assign_media (f : Media -> Media) (e : Elem) : Elem :=
  match kind e with KVideo m => with_kind (KVideo (f m)) e | _ => e end.

Definition update_media (id : ref) (f : Media -> Media) (doc : Node) : Node :=
  update_node id (on_elem (assign_media f)) doc.

(** Assign properties of the scrub control named [id]. *)
Definition assign_slider (f : Slider -> Slider) (e : Elem) : Elem :=
  match kind e with KInput s => with_kind (KInput (f s)) e | _ => e end.

Definition update_slider (id : ref) (f : Slider -> Slider) (doc : Node) : Node :=
  update_node id (on_elem (assign_slider f)) doc.

(* ===================================================================== *)
(** * Event listeners *)
(* ===================================================================== *)

(** The handlers [createControls] declares.  They are closures: every call
    of [createControls] makes new function objects, told apart here by the
    container the call created ([instance]). *)
Inductive HandlerFn :=
| stopProp | onTimeUpdate | onLoadedMetadata | onSeeked | onSliderInput.

Record Handler := { fn : HandlerFn; instance : ref }.

Record Registration := {
  target : ref;
  event : string;
  handler : Handler;
  capture : bool }.

#[global] Instance HandlerFn_eq_dec : EqDecision HandlerFn.
Proof. solve_decision. Defined.
#[global] Instance Handler_eq_dec : EqDecision Handler.
Proof. solve_decision. Defined.
#[global] Instance Registration_eq_dec : EqDecision Registration.
Proof. solve_decision. Defined.
#[global] Instance Fault_eq_dec : EqDecision Fault.
Proof. solve_decision. Defined.

(** [target.addEventListener(type, fn, {capture})]: a registration that is
    already present is not added again. *)
Definition add_listener (r : Registration) (l : list Registration) : list Registration :=
  if bool_decide (r ∈ l) then l else l ++ [r].

(** [target.removeEventListener(type, fn, {capture})]. *)
Definition remove_listener (r : Registration) (l : list Registration) : list Registration :=
  filter (fun r' => r' ≠ r) l.

(* ===================================================================== *)
(** * The tracker and the page *)
(* ===================================================================== *)

(** What the [cleanup] closure of one [createControls] call captured. *)
Record Cleanup := { cl_video : ref; cl_slider : ref; cl_container : ref }.

Record World := {
  document : Node;                 (* [document.body] and all below it *)
  innerWidth : float;              (* [window.innerWidth] *)
  innerHeight : float;             (* [window.innerHeight] *)
  activeElement : option ref;      (* [document.activeElement] *)
  listeners : list Registration;
  nextRef : ref;                   (* identity of the next created object *)
  enhanced : gset ref;             (* [const enhanced = new WeakSet()] *)
  cleanupMap : gmap ref Cleanup }. (* [const cleanupMap = new WeakMap()] *)

Definition with_document (d : Node) (w : World) : World :=
  {| document := d; innerWidth := innerWidth w; innerHeight := innerHeight w;
     activeElement := activeElement w; listeners := listeners w;
     nextRef := nextRef w; enhanced := enhanced w; cleanupMap := cleanupMap w |}.

Definition with_listeners (l : list Registration) (w : World) : World :=
  {| document := document w; innerWidth := innerWidth w; innerHeight := innerHeight w;
     activeElement := activeElement w; listeners := l;
     nextRef := nextRef w; enhanced := enhanced w; cleanupMap := cleanupMap w |}.

Definition with_nextRef (n : ref) (w : World) : World :=
  {| document := document w; innerWidth := innerWidth w; innerHeight := innerHeight w;
     activeElement := activeElement w; listeners := listeners w;
     nextRef := n; enhanced := enhanced w; cleanupMap := cleanupMap w |}.

Definition with_enhanced (s : gset ref) (w : World) : World :=
  {| document := document w; innerWidth := innerWidth w; innerHeight := innerHeight w;
     activeElement := activeElement w; listeners := listeners w;
     nextRef := nextRef w; enhanced := s; cleanupMap := cleanupMap w |}.

Definition with_cleanupMap (m : gmap ref Cleanup) (w : World) : World :=
  {| document := document w; innerWidth := innerWidth w; innerHeight := innerHeight w;
     activeElement := activeElement w; listeners := listeners w;
     nextRef := nextRef w; enhanced := enhanced w; cleanupMap := m |}.

(** [WeakSet]: membership by object identity. *)
Module WeakSet.
Definition has (k : ref) (s : gset ref) : bool := bool_decide (k ∈ s).
Definition add (k : ref) (s : gset ref) : gset ref := {[ k ]} ∪ s.
Definition delete (k : ref) (s : gset ref) : gset ref := s ∖ {[ k ]}.
End WeakSet.

(** [WeakMap]: [get], [set], [has] and [delete] by object identity, and
    nothing else: a [WeakMap] cannot be enumerated, so reading its
    [forEach] property gives [undefined]. *)
Module WeakMap.
Definition get {V} (k : ref) (m : gmap ref V) : option V := m !! k.
Definition set {V} (k : ref) (v : V) (m : gmap ref V) : gmap ref V := <[ k := v ]> m.
Definition delete {V} (k : ref) (m : gmap ref V) : gmap ref V := base.delete k m.
Definition forEach {V} :
  option (forall S : Type, (V -> S -> S) -> gmap ref V -> S -> S) := None.
End WeakMap.

(* ===================================================================== *)
(** * Statements that may raise *)
(* ===================================================================== *)

Inductive Completion (A : Type) :=
| Normal (a : A)
| Throw.
Arguments Normal {A} a.
Arguments Throw {A}.

Definition Stmt (A : Type) : Type := World -> Completion A * World.

#[global] Instance Stmt_ret : MRet Stmt := fun A a w => (Normal a, w).
#[global] Instance Stmt_bind : MBind Stmt := fun A B f m w =>
  match m w with
  | (Normal a, w') => f a w'
  | (Throw, w') => (Throw, w')
  end.

Definition throw {A} : Stmt A := fun w => (Throw, w).

(** [try { m } catch (e) {}]. *)
Definition try_catch (m : Stmt unit) : Stmt unit := fun w =>
  match m w with
  | (Normal _, w') => (Normal tt, w')
  | (Throw, w') => (Normal tt, w')
  end.

Definition gets {A} (f : World -> A) : Stmt A := fun w => (Normal (f w), w).
Definition modify (f : World -> World) : Stmt unit := fun w => (Normal tt, f w).

(** [list.forEach(f)]; also [for (const x of list) f(x)]. *)
Fixpoint forEach {A} (f : A -> Stmt unit) (l : list A) : Stmt unit :=
  match l with
  | [] => mret tt
  | a :: l' => f a ;; forEach f l'
  end.

Definition state_after {A} (r : Completion A * World) : World := snd r.
Definition completion {A} (r : Completion A * World) : Completion A := fst r.

(* ===================================================================== *)
(** * The script *)
(* ===================================================================== *)

Section Script.
Local Open Scope float_scope.

(** [const PLAYBACK_SPEEDS = [0.25, 0.5, 0.75, 1, 1.25, 1.5, 1.75, 2]]. *)
Definition PLAYBACK_SPEEDS : list float :=
  [0.25; 0.5; 0.75; 1; 1.25; 1.5; 1.75; 2].

(** ** Geometry selector *)

Definition isInViewport (w : World) (rect : DOMRect) : bool :=
  (- r_height rect <=? r_top rect) &&
  (- r_width rect <=? r_left rect) &&
  (r_bottom rect <=? innerHeight w + r_height rect) &&
  (r_right rect <=? innerWidth w + r_width rect).

(** The test of the [for] loop. *)
Definition in_view_and_large (w : World) (video : Elem) : bool :=
  isInViewport w (rect video) &&
  (100 <? r_width (rect video)) && (100 <? r_height (rect video)).

Definition area (video : Elem) : float :=
  r_width (rect video) * r_height (rect video).

(** The callback of [videos.reduce]. *)
Definition larger (largest video : Elem) : Elem :=
  if area largest <? area video then video else largest.

Definition getActiveVideo (w : World) : option Elem :=
  let videos := querySelectorAll_video (document w) in
  match videos with
  | [] => None
  | [video] => Some video
  | first :: _ =>
      match List.find (in_view_and_large w) videos with
      | Some video => Some video
      | None => Some (fold_left larger videos first)
      end
  end.

(** ** Attachment-point resolver *)

(** [pos && pos !== 'static']. *)
Definition positioned (el : Elem) : bool :=
  negb (String.eqb (position el) "") && negb (String.eqb (position el) "static").

(** The [while (el && el !== document.body)] loop over the ancestors. *)
Fixpoint walk_ancestors (body : ref) (chain : list Elem) : option Elem :=
  match chain with
  | [] => None
  | el :: rest =>
      if Nat.eqb (eid el) body then None
      else if positioned el then Some el
      else walk_ancestors body rest
  end.

(** The ancestors of a video are those it has in the document.  For a
    video outside the document the chain is empty here and the body is
    returned, as for a video without parent; a parent such a video has
    outside the document is not held, and what is stated about the loop
    is stated for a video of the document. *)
Definition findAttachmentParent (video : Elem) : Stmt (option ref) :=
  if bool_decide (fault video = Some RaisesOnLayout) then throw else
  match offsetParent video with
  | Some p => mret (Some p)
  | None =>
      doc ← gets document;
      let body := eid (elem doc) in
      let chain := default [] (ancestors (eid video) doc) in
      match walk_ancestors body chain with
      | Some el => mret (Some (eid el))
      | None =>
          mret (Some (match chain with
                      | parentElement :: _ => eid parentElement
                      | [] => body
                      end))
      end
  end.

(** ** Progress renderer *)

Definition set_background (b : Background) (s : Slider) : Slider :=
  {| slider_min := slider_min s; slider_step := slider_step s;
     slider_value := slider_value s; slider_max := slider_max s;
     slider_background := Some b |}.

(** [slider.value = v], with [v] held as written.  A range control also
    brings what it is given into its range and onto its step grid; that
    is not followed, and what is stated about a control after a write is
    stated about its maximum and its fill, not about the value it holds. *)
Definition set_value (v : float) (s : Slider) : Slider :=
  {| slider_min := slider_min s; slider_step := slider_step s;
     slider_value := v; slider_max := slider_max s;
     slider_background := slider_background s |}.

Definition set_max (m : float) (s : Slider) : Slider :=
  {| slider_min := slider_min s; slider_step := slider_step s;
     slider_value := slider_value s; slider_max := Some m;
     slider_background := slider_background s |}.

(** What [updateProgress(video, slider)] assigns to the slider; [active] is
    [document.activeElement] and [sid] the identity of the slider. *)
Definition render_progress (active : option ref) (video : Elem)
    (sid : ref) (slider : Slider) : Slider :=
  let dur := duration (media_of video) in
  let cur := currentTime (media_of video) in
  if negb (JS.isNaN dur) && (0 <? dur) then
    let pct := JS.Math_max 0 (JS.Math_min 100 (cur / dur * 100)) in
    let slider := set_background (linear_gradient pct) slider in
    let slider :=
      if bool_decide (active ≠ Some sid) then set_value cur slider else slider in
    set_max dur slider
  else
    set_background (linear_gradient 0) slider.

Definition updateProgress (video : Elem) (slider : ref) : Stmt unit :=
  active ← gets activeElement;
  modify (fun w => with_document
    (update_slider slider (render_progress active video slider) (document w)) w).

(** ** Enhancement lifecycle manager *)

Definition createElement : Stmt ref :=
  fun w => (Normal (nextRef w), with_nextRef (S (nextRef w)) w).

Definition no_rect : DOMRect :=
  {| r_top := 0; r_left := 0; r_bottom := 0; r_right := 0;
     r_width := 0; r_height := 0 |}.

(** The [div] after [className] and [aria-hidden] are set; its layout is
    never read by the script. *)
Definition new_container (c : ref) : Elem :=
  {| eid := c; kind := KOther; instanceof_HTMLVideoElement := false;
     className := "custom-seek-container";
     dataset_forVideo := None; dataset_customId := None;
     position := "absolute"; offsetParent := None; rect := no_rect;
     fault := None |}.

(** The [input] after [type], [className], [min], [step] and [value] are
    set. *)
Definition new_slider (s : ref) : Elem :=
  {| eid := s;
     kind := KInput {| slider_min := 0; slider_step := 0.01; slider_value := 0;
                       slider_max := None; slider_background := None |};
     instanceof_HTMLVideoElement := false;
     className := "custom-slider";
     dataset_forVideo := None; dataset_customId := None;
     position := "static"; offsetParent := None; rect := no_rect;
     fault := None |}.

Definition addEventListener (el : Elem) (type : string) (h : Handler)
    (cap : bool) : Stmt unit :=
  if bool_decide (fault el = Some RaisesOnListen) then throw
  else modify (fun w => with_listeners
         (add_listener {| target := eid el; event := type; handler := h;
                          capture := cap |} (listeners w)) w).

Definition removeEventListener (el : ref) (type : string) (h : Handler)
    (cap : bool) : Stmt unit :=
  modify (fun w => with_listeners
    (remove_listener {| target := el; event := type; handler := h;
                        capture := cap |} (listeners w)) w).

(** [existing.dataset && existing.dataset.forVideo ===
    (video.dataset && video.dataset.customId)]; every element has a
    [dataset], and a key that was never written reads as [undefined]. *)
Definition linked (existing video : Elem) : bool :=
  bool_decide (dataset_forVideo existing = dataset_customId video).

(** The [cleanup] arrow function of one [createControls] call. *)
Definition cleanup (cl : Cleanup) : Stmt unit :=
  let h f := {| fn := f; instance := cl_container cl |} in
  try_catch (
    removeEventListener (cl_video cl) "timeupdate" (h onTimeUpdate) false;;
    removeEventListener (cl_video cl) "loadedmetadata" (h onLoadedMetadata) false;;
    removeEventListener (cl_video cl) "seeked" (h onSeeked) false;;
    removeEventListener (cl_slider cl) "input" (h onSliderInput) false;;
    removeEventListener (cl_container cl) "click" (h stopProp) true;;
    removeEventListener (cl_container cl) "mousedown" (h stopProp) true;;
    removeEventListener (cl_slider cl) "click" (h stopProp) true);;
  try_catch (
    modify (fun w => with_document (removeChild (cl_container cl) (document w)) w));;
  try_catch (
    modify (fun w => with_enhanced (WeakSet.delete (cl_video cl) (enhanced w)) w));;
  modify (fun w => with_cleanupMap (WeakMap.delete (cl_video cl) (cleanupMap w)) w).

Definition createControls (video : Elem) : Stmt unit :=
  if negb (instanceof_HTMLVideoElement video) then mret tt else
  has ← gets (fun w => WeakSet.has (eid video) (enhanced w));
  if has : bool then mret tt else
  parent ← findAttachmentParent video;
  match parent with
  | None => mret tt
  | Some parent =>
      existing ← gets (fun w =>
        find_node parent (document w) ≫= querySelector_class "custom-seek-container");
      if match existing with Some ex => linked ex video | None => false end
      then modify (fun w => with_enhanced (WeakSet.add (eid video) (enhanced w)) w)
      else
        c ← createElement;
        let container := new_container c in
        s ← createElement;
        let slider := new_slider s in
        let h f := {| fn := f; instance := c |} in
        addEventListener container "click" (h stopProp) true;;
        addEventListener container "mousedown" (h stopProp) true;;
        addEventListener slider "click" (h stopProp) true;;
        addEventListener video "timeupdate" (h onTimeUpdate) false;;
        addEventListener video "loadedmetadata" (h onLoadedMetadata) false;;
        addEventListener video "seeked" (h onSeeked) false;;
        addEventListener slider "input" (h onSliderInput) false;;
        modify (fun w => with_document
          (appendChild parent (Element container []) (document w)) w);;
        modify (fun w => with_document
          (appendChild c (Element slider []) (document w)) w);;
        (if negb (JS.isNaN (duration (media_of video)))
         then modify (fun w => with_document
                (update_slider s (set_max (duration (media_of video))) (document w)) w)
         else mret tt);;
        updateProgress video s;;
        modify (fun w => with_enhanced (WeakSet.add (eid video) (enhanced w)) w);;
        modify (fun w => with_cleanupMap
          (WeakMap.set (eid video)
             {| cl_video := eid video; cl_slider := s; cl_container := c |}
             (cleanupMap w)) w)
  end.

Definition cleanupVideo (video : Elem) : Stmt unit :=
  fn ← gets (fun w => WeakMap.get (eid video) (cleanupMap w));
  match fn with
  | Some cl => cleanup cl
  | None => mret tt
  end.
End Script.

Section Events.
Local Open Scope float_scope.

(** ** Initial pass *)

Definition initialPass : Stmt unit :=
  try_catch (
    videos ← gets (fun w => querySelectorAll_video (document w));
    forEach (fun v => try_catch (createControls v)) videos).

(** ** Mutation watcher *)

(** A node of a mutation record: an element with the subtree it has when
    the callback runs, or a node of another type (text, comment), for
    which [node.nodeType !== 1]. *)
Inductive AddedOrRemoved :=
| ElementNode (n : Node)
| OtherNode.

Record MutationRecord := {
  addedNodes : list AddedOrRemoved;
  removedNodes : list AddedOrRemoved }.

(** The body of the [try] block for one node: [each] is [createControls]
    for an added node and [cleanupVideo] for a removed one. *)
Definition visit (each : Elem -> Stmt unit) (n : Node) : Stmt unit :=
  if is_video (elem n) then each (elem n)
  else forEach each (querySelectorAll_video n).

Definition visit_all (each : Elem -> Stmt unit) (nodes : list AddedOrRemoved) : Stmt unit :=
  forEach (fun node =>
             match node with
             | OtherNode => mret tt
             | ElementNode n => try_catch (visit each n)
             end) nodes.

(** The callback given to [new MutationObserver]. *)
Definition observer (mutations : list MutationRecord) : Stmt unit :=
  forEach (fun mutation =>
             visit_all createControls (addedNodes mutation);;
             visit_all cleanupVideo (removedNodes mutation)) mutations.

(** ** Command dispatcher *)

Definition set_currentTime (t : float) (m : Media) : Media :=
  {| currentTime := t; duration := duration m; paused := paused m;
     volume := volume m; playbackRate := playbackRate m |}.

Definition set_volume (v : float) (m : Media) : Media :=
  {| currentTime := currentTime m; duration := duration m; paused := paused m;
     volume := v; playbackRate := playbackRate m |}.

Definition set_playbackRate (r : option float) (m : Media) : Media :=
  {| currentTime := currentTime m; duration := duration m; paused := paused m;
     volume := volume m; playbackRate := r |}.

Definition set_paused (p : bool) (m : Media) : Media :=
  {| currentTime := currentTime m; duration := duration m; paused := p;
     volume := volume m; playbackRate := playbackRate m |}.



(** [video.attr = value] on the active video, for a value the setter
    takes: the value is stored.  An assignment the setter refuses is not
    followed here; what is stated about the value a seek or a volume
    command stores has the acceptance of that value as a premise. *)
Definition assign (video : Elem) (f : Media -> Media) : Stmt unit :=
  modify (fun w => with_document (update_media (eid video) f (document w)) w).

(** [video.play()] for a paused video, [video.pause()] otherwise,
    followed as the flag [paused] they leave when the page lets the video
    play.  A [play()] the browser refuses leaves the flag and rejects a
    promise nobody awaits; what is stated about this command is what it
    returns and which element it touches, not the flag it leaves. *)
Definition togglePlayPause : Stmt bool :=
  video ← gets getActiveVideo;
  match video with
  | None => mret false
  | Some video =>
      assign video (set_paused (negb (paused (media_of video))));;
      mret true
  end.

(** [seconds = 5] is the default of the parameter. *)
Definition seekBackward (seconds : option float) : Stmt bool :=
  let seconds := default 5 seconds in
  video ← gets getActiveVideo;
  match video with
  | None => mret false
  | Some video =>
      assign video (set_currentTime
        (JS.Math_max 0 (currentTime (media_of video) - seconds)));;
      mret true
  end.

Definition seekForward (seconds : option float) : Stmt bool :=
  let seconds := default 5 seconds in
  video ← gets getActiveVideo;
  match video with
  | None => mret false
  | Some video =>
      let m := media_of video in
      assign video (set_currentTime
        (JS.Math_min (JS.or_else (duration m) (currentTime m + seconds))
                     (currentTime m + seconds)));;
      mret true
  end.

Definition increaseVolume (amount : option float) : Stmt bool :=
  let amount := default 0.1 amount in
  video ← gets getActiveVideo;
  match video with
  | None => mret false
  | Some video =>
      assign video (set_volume (JS.Math_min 1 (volume (media_of video) + amount)));;
      mret true
  end.

Definition decreaseVolume (amount : option float) : Stmt bool :=
  let amount := default 0.1 amount in
  video ← gets getActiveVideo;
  match video with
  | None => mret false
  | Some video =>
      assign video (set_volume (JS.Math_max 0 (volume (media_of video) - amount)));;
      mret true
  end.

(** [video.playbackRate || 1]. *)
Definition currentSpeed (video : Elem) : float :=
  match playbackRate (media_of video) with
  | Some r => JS.or_else r 1
  | None => 1
  end.

Definition increaseSpeed : Stmt bool :=
  video ← gets getActiveVideo;
  match video with
  | None => mret false
  | Some video =>
      let currentIndex := JS.indexOf PLAYBACK_SPEEDS (currentSpeed video) in
      let nextIndex := Z.min (currentIndex + 1) (Z.of_nat (length PLAYBACK_SPEEDS) - 1) in
      assign video (set_playbackRate (JS.at_index PLAYBACK_SPEEDS nextIndex));;
      mret true
  end.

Definition decreaseSpeed : Stmt bool :=
  video ← gets getActiveVideo;
  match video with
  | None => mret false
  | Some video =>
      let currentIndex := JS.indexOf PLAYBACK_SPEEDS (currentSpeed video) in
      let prevIndex := Z.max (currentIndex - 1) 0 in
      assign video (set_playbackRate (JS.at_index PLAYBACK_SPEEDS prevIndex));;
      mret true
  end.

Definition resetSpeed : Stmt bool :=
  video ← gets getActiveVideo;
  match video with
  | None => mret false
  | Some video => assign video (set_playbackRate (Some 1));; mret true
  end.

(** ** Debug interface: [window.__instaScrubber] *)

Definition enhanceAll : Stmt unit :=
  videos ← gets (fun w => querySelectorAll_video (document w));
  forEach createControls videos.

(** [let n = 0; cleanupMap && cleanupMap.forEach &&
    cleanupMap.forEach(() => n++); return n]. *)
Definition enhancedCount : Stmt nat :=
  m ← gets cleanupMap;
  match WeakMap.forEach with
  | Some each => mret (each nat (fun _ n => S n) m 0%nat)
  | None => mret 0%nat
  end.

(** [cleanupMap.forEach && cleanupMap.forEach((fn) => fn && fn())]. *)
Definition cleanupAll : Stmt unit :=
  m ← gets cleanupMap;
  match WeakMap.forEach with
  | Some each => each (Stmt unit) (fun cl rest => cleanup cl;; rest) m (mret tt)
  | None => mret tt
  end.
End Events.

(* ===================================================================== *)
(** * Vocabulary of the specification *)
(* ===================================================================== *)

(** What an assignment to the element named [id] does to one element. *)
Definition upd (id : ref) (g : Elem -> Elem) (e : Elem) : Elem :=
  if Nat.eqb (eid e) id then g e else e.

(** The comparison of [x] with [z] from those of [x] with [y] and [y] with
    [z], neither being [Gt]. *)
Definition join_cmp (c1 c2 : comparison) : comparison :=
  match c1 with Eq => c2 | _ => c1 end.

Section Vocabulary.
Local Open Scope float_scope.

(** The playback attributes of the active video. *)
Definition active_media (w : World) : option Media :=
  media_of <$> getActiveVideo w.

Definition active_rate (w : World) : option float :=
  getActiveVideo w ≫= fun video => playbackRate (media_of video).

(** The rates the active video shows after each of [n] successive calls of
    a speed command. *)
Fixpoint rates_after (command : Stmt bool) (n : nat) (w : World) : list (option float) :=
  match n with
  | O => []
  | S n' =>
      let w' := state_after (command w) in
      active_rate w' :: rates_after command n' w'
  end.

(** "Clamped to [0,100]", as the specification words it. *)
Definition clamp_0_100 (x : float) : float :=
  if x <? 0 then 0 else if 100 <? x then 100 else x.

(** The percentage of the gradient a slider shows. *)
Definition fill_percentage (s : Slider) : option float :=
  match slider_background s with
  | Some (linear_gradient pct) => Some pct
  | None => None
  end.

(** "The candidate with the largest bounding-box area, ties broken by
    first occurrence". *)
Definition first_largest (videos : list Elem) (r : Elem) : Prop :=
  exists i,
    videos !! i = Some r /\
    (forall u, u ∈ videos -> (area u <=? area r) = true) /\
    (forall j u, (j < i)%nat -> videos !! j = Some u -> (area u <? area r) = true).

(** "The first candidate in document order" passing [test]. *)
Definition first_passing (test : Elem -> bool) (videos : list Elem) (r : Elem) : Prop :=
  exists i,
    videos !! i = Some r /\ test r = true /\
    (forall j u, (j < i)%nat -> videos !! j = Some u -> test u = false).

(** The selection rule of the specification (section 4.1), case by case. *)
Inductive selects (w : World) : list Elem -> option Elem -> Prop :=
| selects_none : selects w [] None
| selects_sole v : selects w [v] (Some v)
| selects_in_view videos v :
    (2 <= length videos)%nat ->
    first_passing (in_view_and_large w) videos v ->
    selects w videos (Some v)
| selects_largest videos v :
    (2 <= length videos)%nat ->
    (forall u, u ∈ videos -> in_view_and_large w u = false) ->
    first_largest videos v ->
    selects w videos (Some v).
End Vocabulary.

(* ===================================================================== *)
(** * The lifecycle, path by path *)
(* ===================================================================== *)

Section PathVocabulary.
Local Open Scope float_scope.

(** How many elements of a subtree pass a test. *)
Definition tally (test : Elem -> bool) (n : Node) : nat :=
  length (List.filter test (subtree_elems n)).

(** The overlay containers of a document. *)
Definition overlay_containers (doc : Node) : nat :=
  tally (has_class "custom-seek-container") doc.


(** The attachment point [findAttachmentParent] resolves when reading the
    layout of the video does not raise. *)
Definition attachment_point (w : World) (video : Elem) : ref :=
  match offsetParent video with
  | Some p => p
  | None =>
      let body := eid (elem (document w)) in
      let chain := default [] (ancestors (eid video) (document w)) in
      match walk_ancestors body chain with
      | Some el => eid el
      | None => match chain with
                | parentElement :: _ => eid parentElement
                | [] => body
                end
      end
  end.

(** The overlay container [createControls] finds below the attachment
    point, if any. *)
Definition existing_container (w : World) (video : Elem) : option Elem :=
  find_node (attachment_point w video) (document w)
    ≫= querySelector_class "custom-seek-container".

(** The outcome of the secondary duplicate check. *)
Definition found_linked (w : World) (video : Elem) : bool :=
  match existing_container w video with
  | Some ex => linked ex video
  | None => false
  end.

(** [createControls] reaches the construction of a new container: the
    video is a genuine video element, is not in the enhancement set, its
    layout can be read, and the duplicate check finds nothing linked. *)
Definition constructs (w : World) (video : Elem) : bool :=
  instanceof_HTMLVideoElement video &&
  negb (WeakSet.has (eid video) (enhanced w)) &&
  negb (bool_decide (fault video = Some RaisesOnLayout)) &&
  negb (found_linked w video).

Definition registration (el : ref) (type : string) (f : HandlerFn)
    (c : ref) (cap : bool) : Registration :=
  {| target := el; event := type;
     handler := {| fn := f; instance := c |}; capture := cap |}.

(** The listeners one call of [createControls] registers, in order, for
    the container [c] and the slider [s] it created. *)
Definition registrations (video c s : ref) : list Registration :=
  [ registration c "click" stopProp c true;
    registration c "mousedown" stopProp c true;
    registration s "click" stopProp c true;
    registration video "timeupdate" onTimeUpdate c false;
    registration video "loadedmetadata" onLoadedMetadata c false;
    registration video "seeked" onSeeked c false;
    registration s "input" onSliderInput c false ].

(** The slider as [createControls] leaves it after the initial
    synchronisation. *)
Definition synced_slider (w : World) (video : Elem) (s : ref) : Elem :=
  let dur := duration (media_of video) in
  let e := new_slider s in
  let e := if negb (JS.isNaN dur) then assign_slider (set_max dur) e else e in
  assign_slider (render_progress (activeElement w) video s) e.

(** The teardown record of the call. *)
Definition teardown (w : World) (video : Elem) : Cleanup :=
  {| cl_video := eid video; cl_slider := S (nextRef w);
     cl_container := nextRef w |}.

(** The page after [createControls] has constructed the controls of
    [video]. *)
Definition attached (w : World) (video : Elem) : World :=
  {| document :=
       appendChild (attachment_point w video)
         (Element (new_container (nextRef w))
            [Element (synced_slider w video (S (nextRef w))) []])
         (document w);
     innerWidth := innerWidth w; innerHeight := innerHeight w;
     activeElement := activeElement w;
     listeners := listeners w
                  ++ registrations (eid video) (nextRef w) (S (nextRef w));
     nextRef := S (S (nextRef w));
     enhanced := {[ eid video ]} ∪ enhanced w;
     cleanupMap := <[ eid video := teardown w video ]> (cleanupMap w) |}.

(** The page after the [cleanup] closure [cl] has run. *)
Definition torn_down (cl : Cleanup) (w : World) : World :=
  {| document := removeChild (cl_container cl) (document w);
     innerWidth := innerWidth w; innerHeight := innerHeight w;
     activeElement := activeElement w;
     listeners :=
       remove_listener (registration (cl_slider cl) "click" stopProp (cl_container cl) true)
        (remove_listener (registration (cl_container cl) "mousedown" stopProp (cl_container cl) true)
         (remove_listener (registration (cl_container cl) "click" stopProp (cl_container cl) true)
          (remove_listener (registration (cl_slider cl) "input" onSliderInput (cl_container cl) false)
           (remove_listener (registration (cl_video cl) "seeked" onSeeked (cl_container cl) false)
            (remove_listener (registration (cl_video cl) "loadedmetadata" onLoadedMetadata (cl_container cl) false)
             (remove_listener (registration (cl_video cl) "timeupdate" onTimeUpdate (cl_container cl) false)
                (listeners w)))))));
     nextRef := nextRef w;
     enhanced := enhanced w ∖ {[ cl_video cl ]};
     cleanupMap := delete (cl_video cl) (cleanupMap w) |}.

(** The videos the mutation watcher visits for one node: the node itself
    when it is a video, the videos below it otherwise. *)
Definition videos_of (n : Node) : list Elem :=
  if is_video (elem n) then [elem n] else querySelectorAll_video n.

(** References are handed out in increasing order: what the document and
    the listeners mention was created before [nextRef]. *)
Definition fresh_refs (w : World) : Prop :=
  (forall i, i ∈ ids (document w) -> (i < nextRef w)%nat) /\
  (forall r, r ∈ listeners w -> (instance (handler r) < nextRef w)%nat).

(** Every teardown record is filed under the video it tears down, and
    only enhanced videos have one. *)
Definition records_ok (w : World) : Prop :=
  forall k cl, cleanupMap w !! k = Some cl ->
               cl_video cl = k /\ k ∈ enhanced w.
End PathVocabulary.

(* ===================================================================== *)
(** * Sample pages *)
(* ===================================================================== *)

Section Samples.
Local Open Scope float_scope.

Definition rect_at (top left width height : float) : DOMRect :=
  {| r_top := top; r_left := left;
     r_bottom := top + height; r_right := left + width;
     r_width := width; r_height := height |}.

Definition media_at (time dur : float) : Media :=
  {| currentTime := time; duration := dur; paused := true; volume := 0.5;
     playbackRate := Some 1 |}.

Definition div_elem (id : ref) (pos : string) : Elem :=
  {| eid := id; kind := KOther; instanceof_HTMLVideoElement := false;
     className := ""; dataset_forVideo := None; dataset_customId := None;
     position := pos; offsetParent := None;
     rect := rect_at 0 0 1280 720; fault := None |}.

Definition video_elem (id : ref) (parent : option ref) (r : DOMRect)
    (m : Media) (f : option Fault) : Elem :=
  {| eid := id; kind := KVideo m; instanceof_HTMLVideoElement := true;
     className := ""; dataset_forVideo := None; dataset_customId := None;
     position := "static"; offsetParent := parent; rect := r; fault := f |}.

(** A freshly loaded page: nothing enhanced, no listener registered. *)
Definition page (doc : Node) : World :=
  {| document := doc; innerWidth := 1280; innerHeight := 720;
     activeElement := None; listeners := []; nextRef := 100%nat;
     enhanced := ∅; cleanupMap := ∅ |}.

(** One reel: a positioned wrapper holding a video with the playback
    attributes [m]. *)
Definition reel_of (m : Media) : Elem :=
  video_elem 2%nat (Some 1%nat) (rect_at 0 0 400 700) m None.

Definition page_of (m : Media) : World :=
  page (Element (div_elem 0%nat "static")
          [Element (div_elem 1%nat "relative") [Element (reel_of m) []]]).

(** A video of 100 s, at 25 s. *)
Definition reel : Elem := reel_of (media_at 25 100).
Definition one_reel : World := page_of (media_at 25 100).

Definition with_rate (r : option float) (m : Media) : Media :=
  {| currentTime := currentTime m; duration := duration m; paused := paused m;
     volume := volume m; playbackRate := r |}.

(** Three videos in document order: one far below the viewport, one in
    view but small, one in view and large. *)
Definition far_below : Elem :=
  video_elem 2%nat (Some 1%nat) (rect_at 5000 0 400 700) (media_at 0 10) None.
Definition thumbnail : Elem :=
  video_elem 3%nat (Some 1%nat) (rect_at 0 0 50 50) (media_at 0 10) None.
Definition in_view : Elem :=
  video_elem 4%nat (Some 1%nat) (rect_at 10 0 400 700) (media_at 0 10) None.

Definition three_videos : World :=
  page (Element (div_elem 0%nat "static")
          [Element (div_elem 1%nat "relative")
             [Element far_below []; Element thumbnail []; Element in_view []]]).

(** Two videos outside the viewport, the second one larger. *)
Definition far_and_larger : Elem :=
  video_elem 3%nat (Some 1%nat) (rect_at 9000 0 800 700) (media_at 0 10) None.

Definition none_in_view : World :=
  page (Element (div_elem 0%nat "static")
          [Element (div_elem 1%nat "relative")
             [Element far_below []; Element far_and_larger []]]).

(** Two reels that share their offset parent, and carry no
    [data-custom-id]. *)
Definition reel_a : Elem :=
  video_elem 2%nat (Some 1%nat) (rect_at 0 0 400 700) (media_at 25 100) None.
Definition reel_b : Elem :=
  video_elem 3%nat (Some 1%nat) (rect_at 700 0 400 700) (media_at 0 60) None.

Definition shared_parent : World :=
  page (Element (div_elem 0%nat "static")
          [Element (div_elem 1%nat "relative")
             [Element reel_a []; Element reel_b []]]).




(** An inserted [div] holding two videos; [addEventListener] raises on
    the first. *)
Definition broken : Elem :=
  video_elem 6%nat (Some 5%nat) (rect_at 0 0 400 700) (media_at 0 30)
    (Some RaisesOnListen).
Definition sound : Elem :=
  video_elem 7%nat (Some 5%nat) (rect_at 700 0 400 700) (media_at 0 30) None.
Definition inserted : Node :=
  Element (div_elem 5%nat "relative") [Element broken []; Element sound []].

Definition after_insertion : World :=
  page (Element (div_elem 0%nat "static") [inserted]).

(** The same two videos inserted as two nodes of one batch. *)
Definition broken_alone : Elem :=
  video_elem 6%nat (Some 0%nat) (rect_at 0 0 400 700) (media_at 0 30)
    (Some RaisesOnListen).
Definition sound_alone : Elem :=
  video_elem 7%nat (Some 0%nat) (rect_at 700 0 400 700) (media_at 0 30) None.

Definition after_two_insertions : World :=
  page (Element (div_elem 0%nat "static")
          [Element broken_alone []; Element sound_alone []]).
End Samples.
(* ===================================================================== *)
(** * The handlers, the keyboard shortcuts and the command messages *)
(* ===================================================================== *)

(** ** The handlers [createControls] wires

    [onTimeUpdate], [onLoadedMetadata], [onSeeked] and [onSliderInput] are
    closures over the [video] and the [slider] of their [createControls]
    call.  As for [createControls], the caller hands over the video as it
    is when the handler runs; the slider is read and written where the
    script put it, in the document. *)

(** The scrub control named [slider], as the document holds it. *)
Definition slider_state (slider : ref) (doc : Node) : option Slider :=
  find_node slider doc ≫= fun n =>
    match kind (elem n) with KInput s => Some s | _ => None end.

(** [parseFloat(slider.value)].  The value of a range control is the
    string form of a number, which [parseFloat] reads back as that number;
    the string form of [-0] is ["0"]. *)
Definition parseFloat_value (x : float) : float :=
  if is_zero x then 0%float else x.

Module Handlers.

Definition onTimeUpdate (video : Elem) (slider : ref) : Stmt unit :=
  updateProgress video slider.

Definition onLoadedMetadata (video : Elem) (slider : ref) : Stmt unit :=
  (if negb (JS.isNaN (duration (media_of video)))
   then modify (fun w => with_document
          (update_slider slider (set_max (duration (media_of video))) (document w)) w)
   else mret tt);;
  updateProgress video slider.

Definition onSeeked (video : Elem) (slider : ref) : Stmt unit :=
  updateProgress video slider.

(** An input event reaches a control of the document only: for a
    [slider] that is not there the handler is not run. *)
Definition onSliderInput (video : Elem) (slider : ref) : Stmt unit :=
  held ← gets (fun w => slider_state slider (document w));
  match held with
  | None => mret tt
  | Some s =>
      let t := parseFloat_value (slider_value s) in
      if negb (JS.isNaN t) then
        try_catch (
          assign video (set_currentTime t);;
          updateProgress (assign_media (set_currentTime t) video) slider)
      else mret tt
  end.

End Handlers.

(** ** Keyboard shortcuts (userscript) *)

Record KeyboardEvent := {
  target_tagName : string;     (* [event.target.tagName] *)
  key : string;
  altKey : bool;
  defaultPrevented : bool;     (* set by [event.preventDefault()] *)
  propagationStopped : bool }. (* set by [event.stopPropagation()] *)

(** [event.preventDefault(); event.stopPropagation()]. *)
Definition prevent_and_stop (event : KeyboardEvent) : KeyboardEvent :=
  {| target_tagName := target_tagName event; key := key event;
     altKey := altKey event;
     defaultPrevented := true; propagationStopped := true |}.

(** The [switch (key)] of [handleKeyDown]: the command a key runs. *)
Definition key_command (k : string) : option (Stmt bool) :=
  if String.eqb k "k" || String.eqb k "K" then Some togglePlayPause
  else if String.eqb k "ArrowLeft" then Some (seekBackward (Some 5%float))
  else if String.eqb k "ArrowRight" then Some (seekForward (Some 5%float))
  else if String.eqb k "ArrowUp" then Some (increaseVolume (Some 0.1%float))
  else if String.eqb k "ArrowDown" then Some (decreaseVolume (Some 0.1%float))
  else if String.eqb k "," then Some decreaseSpeed
  else if String.eqb k "." then Some increaseSpeed
  else if String.eqb k "0" then Some resetSpeed
  else if String.eqb k "s" || String.eqb k "S" then Some increaseSpeed
  else None.

(** The listener returns the event as it leaves it. *)
Definition handleKeyDown (event : KeyboardEvent) : Stmt KeyboardEvent :=
  if String.eqb (target_tagName event) "INPUT"
     || String.eqb (target_tagName event) "TEXTAREA" then mret event
  else if negb (altKey event) then mret event
  else
    handled ← match key_command (key event) with
              | Some run => run
              | None => mret false
              end;
    if handled : bool then mret (prevent_and_stop event) else mret event.

(** ** Command messages (content script) *)

(** [const commandHandlers = { 'play-pause': togglePlayPause, ... }], each
    entry as the listener calls it: [handler()] passes no argument, so
    the parameters take their defaults. *)
Definition commandHandlers : list (string * Stmt bool) :=
  [ ("play-pause", togglePlayPause);
    ("seek-backward", seekBackward None);
    ("seek-forward", seekForward None);
    ("speed-toggle", increaseSpeed);
    ("volume-down", decreaseVolume None);
    ("volume-up", increaseVolume None);
    ("speed-down", decreaseSpeed);
    ("speed-up", increaseSpeed);
    ("speed-reset", resetSpeed) ].

(** [commandHandlers] is an object literal: a name it does not define is
    looked up in [Object.prototype], whose properties are these. *)
Definition Object_prototype : list string :=
  [ "constructor"; "__defineGetter__"; "__defineSetter__"; "hasOwnProperty";
    "__lookupGetter__"; "__lookupSetter__"; "isPrototypeOf";
    "propertyIsEnumerable"; "toString"; "valueOf"; "__proto__";
    "toLocaleString" ].

Definition own_property {V} (name : string) (obj : list (string * V)) : option V :=
  snd <$> List.find (fun entry => String.eqb (fst entry) name) obj.

(** [message.command] is [None] when the property is missing. *)
Record Message := { action : string; command : option string }.

(** A value other than a boolean that a call can give. *)
Inductive Value :=
| new_object                 (* [{}] *)
| string_value (s : string).

Inductive Response :=
| success (result : bool)    (* [{ success: result }] *)
| unknown_command            (* [{ success: false, error: 'Unknown command' }] *)
| success_value (v : Value). (* [{ success: v }] *)

(** What the listener does with [sendResponse]. *)
Inductive Reply :=
| sendResponse (r : Response)
| no_response.

(** [message.action === 'command' && message.command]. *)
Definition is_command (message : Message) : option string :=
  if String.eqb (action message) "command" then
    match command message with
    | Some name => if String.eqb name "" then None else Some name
    | None => None
    end
  else None.

(** [const result = handler(); sendResponse({ success: result })] for a
    [handler] inherited from [Object.prototype]: every such property is
    truthy, and the call passes neither [this] nor an argument.
    [Object()] gives a new object; [isPrototypeOf] answers [false] for an
    argument that is not an object; [toString] names an undefined [this];
    every other one needs its [this] as an object (or, for [__proto__], is
    no function at all) and raises [TypeError]. *)
Definition call_inherited (name : string) : Stmt Response :=
  if String.eqb name "constructor" then mret (success_value new_object)
  else if String.eqb name "isPrototypeOf" then mret (success false)
  else if String.eqb name "toString"
       then mret (success_value (string_value "[object Undefined]"))
  else throw.

(** The listener given to [chrome.runtime.onMessage.addListener]; the
    second component is the value it returns. *)
Definition onMessage (message : Message) : Stmt (Reply * bool) :=
  reply ← match is_command message with
          | Some name =>
              match own_property name commandHandlers with
              | Some handler =>
                  result ← handler; mret (sendResponse (success result))
              | None =>
                  if bool_decide (name ∈ Object_prototype)
                  then response ← call_inherited name; mret (sendResponse response)
                  else mret (sendResponse unknown_command)
              end
          | None => mret no_response
          end;
  mret (reply, true).

(** ** Entry points

    Everything the platform or a user of the debug interface can make the
    script run, and the page a run leaves. *)
Inductive Call :=
| call_createControls (video : Elem)
| call_cleanupVideo (video : Elem)
| call_initialPass
| call_observer (mutations : list MutationRecord)
| call_enhanceAll
| call_enhancedCount
| call_cleanupAll
| call_togglePlayPause
| call_seekBackward (seconds : option float)
| call_seekForward (seconds : option float)
| call_increaseVolume (amount : option float)
| call_decreaseVolume (amount : option float)
| call_increaseSpeed
| call_decreaseSpeed
| call_resetSpeed
| call_handleKeyDown (event : KeyboardEvent)
| call_onMessage (message : Message)
| call_onTimeUpdate (video : Elem) (slider : ref)
| call_onLoadedMetadata (video : Elem) (slider : ref)
| call_onSeeked (video : Elem) (slider : ref)
| call_onSliderInput (video : Elem) (slider : ref).

Definition perform (c : Call) (w : World) : World :=
  match c with
  | call_createControls video => state_after (createControls video w)
  | call_cleanupVideo video => state_after (cleanupVideo video w)
  | call_initialPass => state_after (initialPass w)
  | call_observer mutations => state_after (observer mutations w)
  | call_enhanceAll => state_after (enhanceAll w)
  | call_enhancedCount => state_after (enhancedCount w)
  | call_cleanupAll => state_after (cleanupAll w)
  | call_togglePlayPause => state_after (togglePlayPause w)
  | call_seekBackward seconds => state_after (seekBackward seconds w)
  | call_seekForward seconds => state_after (seekForward seconds w)
  | call_increaseVolume amount => state_after (increaseVolume amount w)
  | call_decreaseVolume amount => state_after (decreaseVolume amount w)
  | call_increaseSpeed => state_after (increaseSpeed w)
  | call_decreaseSpeed => state_after (decreaseSpeed w)
  | call_resetSpeed => state_after (resetSpeed w)
  | call_handleKeyDown event => state_after (handleKeyDown event w)
  | call_onMessage message => state_after (onMessage message w)
  | call_onTimeUpdate video slider => state_after (Handlers.onTimeUpdate video slider w)
  | call_onLoadedMetadata video slider =>
      state_after (Handlers.onLoadedMetadata video slider w)
  | call_onSeeked video slider => state_after (Handlers.onSeeked video slider w)
  | call_onSliderInput video slider =>
      state_after (Handlers.onSliderInput video slider w)
  end.

Definition perform_all (calls : list Call) (w : World) : World :=
  fold_left (fun w c => perform c w) calls w.

(** Every enhanced video has a teardown record: no video was taken for
    linked to a container it does not own. *)
Definition all_recorded (w : World) : Prop :=
  forall k, k ∈ enhanced w -> is_Some (cleanupMap w !! k).

(** The commands of the dispatcher, called with [seconds] and [amount]. *)
Definition commands (seconds amount : option float) : list (Stmt bool) :=
  [ togglePlayPause; seekBackward seconds; seekForward seconds;
    increaseVolume amount; decreaseVolume amount;
    increaseSpeed; decreaseSpeed; resetSpeed ].

(** The keys of the userscript and the command names of the content
    script that run the same function. *)
Definition same_function : list (string * string) :=
  [ ("k", "play-pause"); ("K", "play-pause");
    ("ArrowLeft", "seek-backward"); ("ArrowRight", "seek-forward");
    ("ArrowUp", "volume-up"); ("ArrowDown", "volume-down");
    (",", "speed-down"); (".", "speed-up"); ("0", "speed-reset");
    ("s", "speed-toggle"); ("S", "speed-toggle") ].


(* ===================================================================== *)
(** * Order facts about binary64 numbers *)
(* ===================================================================== *)

(** The comparisons of primitive floats are specified by [SFcompare] on
    [spec_float]; the facts the script relies on (the order is total and
    transitive away from [NaN]) are derived from that specification. *)

Section FloatOrder.
Local Open Scope float_scope.

Ltac cmp_cases :=
  repeat match goal with
  | |- context [Z.compare ?a ?b] => destruct (Z.compare_spec a b)
  | |- context [Pos.compare ?a ?b] => destruct (Pos.compare_spec a b)
  end.

Lemma SFcompare_refl x : x <> S754_nan -> SFcompare x x = Some Eq.
Proof.
  destruct x as [s|s| |s m e]; simpl; try congruence; intros _;
    destruct s; try reflexivity.
  all: change (PosDef.Pos.compare_cont Eq m m) with (Pos.compare m m).
  all: rewrite Z.compare_refl, Pos.compare_refl; reflexivity.
Qed.

Lemma SFcompare_nan_l x y c : SFcompare x y = Some c -> x <> S754_nan.
Proof. destruct x; simpl; congruence. Qed.

Lemma SFcompare_nan_r x y c : SFcompare x y = Some c -> y <> S754_nan.
Proof. destruct x, y; simpl; congruence. Qed.

Lemma SFcompare_some x y :
  x <> S754_nan -> y <> S754_nan -> exists c, SFcompare x y = Some c.
Proof. destruct x, y; simpl; try congruence; eauto. Qed.

Lemma SFcompare_antisym x y :
  SFcompare y x = option_map CompOpp (SFcompare x y).
Proof.
  destruct x as [sx|sx| |sx mx ex], y as [sy|sy| |sy my ey]; simpl;
    try destruct sx; try destruct sy; simpl; try reflexivity.
  all: change (PosDef.Pos.compare_cont Eq) with Pos.compare.
  all: rewrite (Z.compare_antisym ex ey), (Pos.compare_antisym mx my).
  all: destruct (ex ?= ey)%Z; simpl; try reflexivity.
  all: destruct (mx ?= my)%positive; reflexivity.
Qed.

Lemma SFcompare_trans x y z c1 c2 :
  c1 <> Gt -> c2 <> Gt ->
  SFcompare x y = Some c1 -> SFcompare y z = Some c2 ->
  SFcompare x z = Some (join_cmp c1 c2).
Proof.
  intros H1 H2.
  destruct x as [sx|sx| |sx mx ex], y as [sy|sy| |sy my ey], z as [sz|sz| |sz mz ez];
    simpl; try destruct sx; try destruct sy; try destruct sz; simpl;
    try discriminate.
  all: change (PosDef.Pos.compare_cont Eq) with Pos.compare.
  all: cmp_cases; intros E1 E2; simplify_eq; simpl; try congruence; try lia.
Qed.

Ltac trans_with H1 H2 :=
  match type of H1 with
  | _ = Some ?c1 =>
      match type of H2 with
      | _ = Some ?c2 =>
          pose proof (SFcompare_trans _ _ _ c1 c2
                        ltac:(discriminate) ltac:(discriminate) H1 H2)
      end
  end.

Lemma is_nan_false x : is_nan x = false <-> Prim2SF x <> S754_nan.
Proof.
  unfold is_nan. rewrite FloatAxioms.eqb_spec. unfold SFeqb. split.
  - intros H E. rewrite E in H. discriminate.
  - intros H. rewrite SFcompare_refl by assumption. reflexivity.
Qed.

Lemma ltb_Lt x y : (x <? y) = true <-> SFcompare (Prim2SF x) (Prim2SF y) = Some Lt.
Proof.
  rewrite FloatAxioms.ltb_spec. unfold SFltb.
  destruct (SFcompare _ _) as [[]|]; split; congruence.
Qed.

Lemma leb_LtEq x y :
  (x <=? y) = true <->
  SFcompare (Prim2SF x) (Prim2SF y) = Some Lt \/
  SFcompare (Prim2SF x) (Prim2SF y) = Some Eq.
Proof.
  rewrite FloatAxioms.leb_spec. unfold SFleb.
  destruct (SFcompare _ _) as [[]|]; split; intros; try tauto; try congruence;
    destruct H; congruence.
Qed.

Lemma float_ltb_leb x y : (x <? y) = true -> (x <=? y) = true.
Proof. rewrite ltb_Lt, leb_LtEq. auto. Qed.

Lemma float_ltb_not_nan x y :
  (x <? y) = true -> is_nan x = false /\ is_nan y = false.
Proof.
  rewrite ltb_Lt, !is_nan_false. intros H.
  eauto using SFcompare_nan_l, SFcompare_nan_r.
Qed.

Lemma float_leb_not_nan x y :
  (x <=? y) = true -> is_nan x = false /\ is_nan y = false.
Proof.
  rewrite leb_LtEq, !is_nan_false. intros [H|H];
    eauto using SFcompare_nan_l, SFcompare_nan_r.
Qed.

Lemma float_leb_refl x : is_nan x = false -> (x <=? x) = true.
Proof.
  rewrite is_nan_false, leb_LtEq. intros H. right. now apply SFcompare_refl.
Qed.

Lemma float_ltb_irrefl x : (x <? x) = false.
Proof.
  destruct (x <? x) eqn:E; [|reflexivity].
  pose proof (proj1 (float_ltb_not_nan _ _ E)) as Hn.
  apply ltb_Lt in E. apply is_nan_false in Hn.
  rewrite SFcompare_refl in E by assumption. discriminate.
Qed.

(** Away from [NaN] the order is total. *)
Lemma float_total x y :
  is_nan x = false -> is_nan y = false ->
  (x <? y) = false -> (y <=? x) = true.
Proof.
  rewrite !is_nan_false. intros Hx Hy H.
  destruct (SFcompare_some _ _ Hx Hy) as [c Hc].
  apply leb_LtEq. rewrite SFcompare_antisym, Hc.
  destruct c; simpl; auto.
  apply ltb_Lt in Hc. congruence.
Qed.

Lemma float_leb_ltb_false x y : (x <=? y) = true -> (y <? x) = false.
Proof.
  rewrite leb_LtEq. intros H.
  destruct (y <? x) eqn:E; [|reflexivity].
  apply ltb_Lt in E. rewrite SFcompare_antisym in E.
  destruct H as [H|H]; rewrite H in E; discriminate.
Qed.

Lemma float_ltb_leb_false x y : (x <? y) = true -> (y <=? x) = false.
Proof.
  intros H. destruct (y <=? x) eqn:E; [|reflexivity].
  apply float_leb_ltb_false in E. congruence.
Qed.


Lemma float_leb_ltb_trans x y z :
  (x <=? y) = true -> (y <? z) = true -> (x <? z) = true.
Proof.
  rewrite leb_LtEq, !ltb_Lt.
  intros [H1|H1] H2;
    trans_with H1 H2;
    simpl in *; auto.
Qed.

Lemma float_ltb_leb_trans x y z :
  (x <? y) = true -> (y <=? z) = true -> (x <? z) = true.
Proof.
  rewrite leb_LtEq, !ltb_Lt.
  intros H1 [H2|H2];
    trans_with H1 H2;
    simpl in *; auto.
Qed.

Lemma float_eqb_leb x y : (x =? y) = true -> (x <=? y) = true.
Proof.
  rewrite FloatAxioms.eqb_spec, leb_LtEq. unfold SFeqb.
  destruct (SFcompare _ _) as [[]|]; intros; try discriminate; auto.
Qed.

Lemma float_eqb_refl x : is_nan x = false -> (x =? x) = true.
Proof. unfold is_nan. now destruct (x =? x). Qed.

Lemma float_leb_antisym x y :
  (x <=? y) = true -> (y <=? x) = true -> (x =? y) = true.
Proof.
  rewrite !leb_LtEq, FloatAxioms.eqb_spec. unfold SFeqb.
  rewrite (SFcompare_antisym (Prim2SF x) (Prim2SF y)).
  destruct (SFcompare (Prim2SF x) (Prim2SF y)) as [[]|]; simpl;
    intros [?|?] [?|?]; congruence.
Qed.

(** ** [Math.max] and [Math.min] *)

Lemma Math_max_nan a b :
  is_nan a = false -> is_nan b = false -> is_nan (JS.Math_max a b) = false.
Proof.
  intros Ha Hb. unfold JS.Math_max. rewrite Ha, Hb. simpl.
  repeat case_match; assumption.
Qed.

Lemma Math_min_nan a b :
  is_nan a = false -> is_nan b = false -> is_nan (JS.Math_min a b) = false.
Proof.
  intros Ha Hb. unfold JS.Math_min. rewrite Ha, Hb. simpl.
  repeat case_match; assumption.
Qed.

Lemma Math_max_ge_l a b :
  is_nan a = false -> is_nan b = false -> (a <=? JS.Math_max a b) = true.
Proof.
  intros Ha Hb. unfold JS.Math_max. rewrite Ha, Hb. simpl.
  destruct (a <? b) eqn:E1; [now apply float_ltb_leb|].
  destruct (b <? a) eqn:E2; [now apply float_leb_refl|].
  destruct (get_sign a); [now apply float_total | now apply float_leb_refl].
Qed.

Lemma Math_max_ge_r a b :
  is_nan a = false -> is_nan b = false -> (b <=? JS.Math_max a b) = true.
Proof.
  intros Ha Hb. unfold JS.Math_max. rewrite Ha, Hb. simpl.
  destruct (a <? b) eqn:E1; [now apply float_leb_refl|].
  destruct (b <? a) eqn:E2; [now apply float_ltb_leb|].
  destruct (get_sign a); [now apply float_leb_refl | now apply float_total].
Qed.

Lemma Math_max_lub a b c :
  (a <=? c) = true -> (b <=? c) = true -> (JS.Math_max a b <=? c) = true.
Proof.
  intros Ha Hb.
  destruct (float_leb_not_nan _ _ Ha) as [Na _].
  destruct (float_leb_not_nan _ _ Hb) as [Nb _].
  unfold JS.Math_max. rewrite Na, Nb. simpl. repeat case_match; assumption.
Qed.

Lemma Math_min_le_l a b :
  is_nan a = false -> is_nan b = false -> (JS.Math_min a b <=? a) = true.
Proof.
  intros Ha Hb. unfold JS.Math_min. rewrite Ha, Hb. simpl.
  destruct (a <? b) eqn:E1; [now apply float_leb_refl|].
  destruct (b <? a) eqn:E2; [now apply float_ltb_leb|].
  destruct (get_sign a); [now apply float_leb_refl | now apply float_total].
Qed.

Lemma Math_min_le_r a b :
  is_nan a = false -> is_nan b = false -> (JS.Math_min a b <=? b) = true.
Proof.
  intros Ha Hb. unfold JS.Math_min. rewrite Ha, Hb. simpl.
  destruct (a <? b) eqn:E1; [now apply float_ltb_leb|].
  destruct (b <? a) eqn:E2; [now apply float_leb_refl|].
  destruct (get_sign a); [now apply float_total | now apply float_leb_refl].
Qed.

(** ** Quotients and products that are numbers *)

(** Rounding never produces [NaN]: the mantissa it shifts stays
    non-negative. *)
Lemma iter_pos_invariant {A} (f : A -> A) (P : A -> Prop) :
  (forall x, P x -> P (f x)) -> forall n x, P x -> P (SpecFloat.iter_pos f n x).
Proof.
  intros Hf. induction n as [n IH|n IH|]; intros x Hx; simpl; auto.
Qed.

Lemma shr_1_nonneg mrs : (0 <= shr_m mrs)%Z -> (0 <= shr_m (shr_1 mrs))%Z.
Proof.
  destruct mrs as [m r s]. simpl.
  destruct m as [|[p|p|]|p]; simpl; lia.
Qed.

Lemma shr_nonneg mrs e n :
  (0 <= shr_m mrs)%Z -> (0 <= shr_m (fst (shr mrs e n)))%Z.
Proof.
  intros H. unfold shr. destruct n; simpl; try assumption.
  now apply iter_pos_invariant; [apply shr_1_nonneg|].
Qed.

Lemma shr_record_of_loc_m m l : shr_m (shr_record_of_loc m l) = m.
Proof. destruct l as [|[]]; reflexivity. Qed.

Lemma shr_fexp_nonneg m e l :
  (0 <= m)%Z -> (0 <= shr_m (fst (shr_fexp prec emax m e l)))%Z.
Proof.
  intros H. unfold shr_fexp. apply shr_nonneg. now rewrite shr_record_of_loc_m.
Qed.

Lemma round_nearest_even_nonneg m l :
  (0 <= m)%Z -> (0 <= round_nearest_even m l)%Z.
Proof.
  intros H. unfold round_nearest_even.
  destruct l as [|[]]; try destruct (Z.even m); lia.
Qed.

Lemma binary_round_aux_number s m e l :
  (0 <= m)%Z -> binary_round_aux prec emax s m e l <> S754_nan.
Proof.
  intros H. unfold binary_round_aux.
  pose proof (shr_fexp_nonneg m e l H) as H1.
  destruct (shr_fexp prec emax m e l) as [mrs' e']. simpl in H1.
  pose proof (shr_fexp_nonneg _ e' loc_Exact
                (round_nearest_even_nonneg _ (loc_of_shr_record mrs') H1)) as H2.
  destruct (shr_fexp prec emax _ e' loc_Exact) as [mrs'' e'']. simpl in H2.
  destruct (shr_m mrs'') as [|p|p]; try discriminate; [|lia].
  now destruct (Z.leb _ _).
Qed.

Lemma SFdiv_core_nonneg m1 e1 m2 e2 :
  (0 <= fst (fst (SFdiv_core_binary prec emax (Zpos m1) e1 (Zpos m2) e2)))%Z.
Proof.
  unfold SFdiv_core_binary.
  set (s := (e1 - e2 - _)%Z).
  set (m' := match s with Zpos _ => Z.shiftl (Zpos m1) s | Z0 => Zpos m1 | Zneg _ => 0%Z end).
  assert (Hm' : (0 <= m')%Z).
  { unfold m'. destruct s; try lia. apply Z.shiftl_nonneg. lia. }
  pose proof (Z_div_mod m' (Zpos m2) ltac:(lia)) as Hdiv.
  destruct (Z.div_eucl m' (Zpos m2)) as [q r]. simpl.
  destruct Hdiv as [Heq Hr]. nia.
Qed.

Lemma finite_cases x :
  JS.isFinite x = true ->
  (exists s, Prim2SF x = S754_zero s) \/ (exists s m e, Prim2SF x = S754_finite s m e).
Proof.
  unfold JS.isFinite. rewrite andb_true_iff, !ltb_Lt.
  change (Prim2SF infinity) with (S754_infinity false).
  change (Prim2SF neg_infinity) with (S754_infinity true).
  intros [H1 H2].
  destruct (Prim2SF x) as [s|[]| |s m e]; simpl in *; try discriminate; eauto.
Qed.

Lemma positive_cases y :
  (0 <? y) = true ->
  Prim2SF y = S754_infinity false \/ exists m e, Prim2SF y = S754_finite false m e.
Proof.
  rewrite ltb_Lt. change (Prim2SF 0) with (S754_zero false).
  destruct (Prim2SF y) as [s|[]| |[] m e]; simpl; try discriminate; eauto.
Qed.

(** The percentage [cur / dur * 100] of a finite time and a positive
    duration is a number. *)
Lemma percentage_is_number cur dur :
  JS.isFinite cur = true -> (0 <? dur) = true ->
  is_nan (cur / dur * 100) = false.
Proof.
  intros Hc Hd. apply is_nan_false.
  rewrite mul_spec, div_spec.
  change (Prim2SF 100) with (S754_finite false 7036874417766400 (-46)).
  assert (Hq : SF64div (Prim2SF cur) (Prim2SF dur) <> S754_nan).
  { destruct (finite_cases _ Hc) as [[s ->]|(s & m & e & ->)],
             (positive_cases _ Hd) as [->|(m' & e' & ->)];
      unfold SF64div; simpl; try discriminate.
    pose proof (SFdiv_core_nonneg m e m' e') as Hnn.
    destruct (SFdiv_core_binary prec emax (Zpos m) e (Zpos m') e') as [[mz ez] lz].
    now apply binary_round_aux_number. }
  destruct (SF64div (Prim2SF cur) (Prim2SF dur)) as [s|s| |s m e];
    unfold SF64mul; simpl; try discriminate; [congruence|].
  apply binary_round_aux_number. lia.
Qed.

(** The product of two finite numbers is a number. *)
Lemma product_is_number a b :
  JS.isFinite a = true -> JS.isFinite b = true -> is_nan (a * b) = false.
Proof.
  intros Ha Hb. apply is_nan_false. rewrite mul_spec.
  destruct (finite_cases _ Ha) as [[s ->]|(s & m & e & ->)],
           (finite_cases _ Hb) as [[s' ->]|(s' & m' & e' & ->)];
    unfold SF64mul; simpl; try discriminate.
  apply binary_round_aux_number. lia.
Qed.
End FloatOrder.

(* ===================================================================== *)
(** * Facts about the document tree *)
(* ===================================================================== *)

Section Tree.

(** Induction over a node and, through the list, over its children. *)
Lemma Node_ind' (P : Node -> Prop) :
  (forall e cs, Forall P cs -> P (Element e cs)) -> forall n, P n.
Proof.
  intros H. fix IH 1. intros [e cs]. apply H.
  induction cs as [|c cs IHcs]; constructor; [apply IH | apply IHcs].
Qed.

Lemma elem_update_on_elem id g n :
  elem (update_node id (on_elem g) n) = upd id g (elem n).
Proof. destruct n as [e cs]. unfold upd. simpl. now destruct (Nat.eqb (eid e) id). Qed.

Lemma children_update_on_elem id g e cs :
  children (update_node id (on_elem g) (Element e cs)) =
  map (update_node id (on_elem g)) cs.
Proof. simpl. now destruct (Nat.eqb (eid e) id). Qed.

Lemma descendants_children n :
  descendants n = flat_map (fun c => elem c :: descendants c) (children n).
Proof. now destruct n. Qed.

Lemma descendants_update_on_elem id g n :
  descendants (update_node id (on_elem g) n) = map (upd id g) (descendants n).
Proof.
  induction n as [e cs IH] using Node_ind'.
  rewrite descendants_children, children_update_on_elem. simpl.
  induction IH as [|c cs Hc _ IHcs]; [reflexivity|].
  simpl. rewrite map_app, <- IHcs, Hc, elem_update_on_elem. reflexivity.
Qed.

Lemma is_video_assign_media f e : is_video (assign_media f e) = is_video e.
Proof.
  unfold assign_media, is_video.
  destruct (kind e) eqn:E; simpl; rewrite ?E; reflexivity.
Qed.

Lemma is_video_upd_media id f e : is_video (upd id (assign_media f) e) = is_video e.
Proof. unfold upd. destruct (Nat.eqb _ _); [apply is_video_assign_media | reflexivity]. Qed.

Lemma filter_map_commute {A} (p : A -> bool) (g : A -> A) l :
  (forall a, p (g a) = p a) ->
  List.filter p (map g l) = map g (List.filter p l).
Proof.
  intros H. induction l as [|a l IH]; [reflexivity|].
  simpl. rewrite H. destruct (p a); simpl; now rewrite IH.
Qed.

Lemma querySelectorAll_video_update_media id f doc :
  querySelectorAll_video (update_media id f doc) =
  map (upd id (assign_media f)) (querySelectorAll_video doc).
Proof.
  unfold querySelectorAll_video, update_media.
  rewrite descendants_update_on_elem.
  apply filter_map_commute, is_video_upd_media.
Qed.

Lemma rect_assign_media f e : rect (assign_media f e) = rect e.
Proof. unfold assign_media. now destruct (kind e). Qed.

Lemma rect_upd_media id f e : rect (upd id (assign_media f) e) = rect e.
Proof. unfold upd. destruct (Nat.eqb _ _); [apply rect_assign_media | reflexivity]. Qed.

Lemma media_of_assign_media f e :
  is_video e = true -> media_of (assign_media f e) = f (media_of e).
Proof.
  unfold assign_media, media_of, is_video.
  destruct (kind e) eqn:E; simpl; rewrite ?E; congruence.
Qed.

Lemma find_map_commute {A} (p : A -> bool) (g : A -> A) l :
  (forall a, p (g a) = p a) ->
  List.find p (map g l) = option_map g (List.find p l).
Proof.
  intros H. induction l as [|a l IH]; [reflexivity|].
  simpl. rewrite H. now destruct (p a).
Qed.

Lemma fold_left_map_commute {A} (op : A -> A -> A) (g : A -> A) l a :
  (forall x y, op (g x) (g y) = g (op x y)) ->
  fold_left op (map g l) (g a) = g (fold_left op l a).
Proof.
  intros H. revert a. induction l as [|b l IH]; intros a; [reflexivity|].
  simpl. now rewrite H, IH.
Qed.

Lemma querySelectorAll_video_is_video n v :
  v ∈ querySelectorAll_video n -> is_video v = true.
Proof.
  unfold querySelectorAll_video. rewrite list_elem_of_In, filter_In. tauto.
Qed.
End Tree.

(** ** The active video keeps being the active video when one of its
       playback attributes is assigned *)

Section ActiveVideo.
Local Open Scope float_scope.

Lemma find_some_elem {A} (p : A -> bool) l a : List.find p l = Some a -> a ∈ l.
Proof. intros H. apply list_elem_of_In. now apply find_some in H. Qed.

Lemma fold_larger_elem l a : fold_left larger l a = a \/ fold_left larger l a ∈ l.
Proof.
  revert a. induction l as [|b l IH]; intros a; [now left|].
  simpl. destruct (IH (larger a b)) as [H|H].
  - rewrite H. unfold larger. destruct (_ <? _); [right; left | now left].
  - right. now right.
Qed.

Lemma getActiveVideo_elem w video :
  getActiveVideo w = Some video ->
  video ∈ querySelectorAll_video (document w).
Proof.
  unfold getActiveVideo.
  destruct (querySelectorAll_video (document w)) as [|v0 [|v1 l]]; [discriminate| |].
  - intros [= <-]. left.
  - destruct (List.find _ _) eqn:E.
    + intros [= <-]. eapply find_some_elem, E.
    + intros [= <-].
      destruct (fold_larger_elem (v0 :: v1 :: l) v0) as [H|H]; simpl in H |- *.
      * rewrite H. left.
      * exact H.
Qed.

Lemma getActiveVideo_is_video w video :
  getActiveVideo w = Some video -> is_video video = true.
Proof. intros H. eapply querySelectorAll_video_is_video, getActiveVideo_elem, H. Qed.

Lemma getActiveVideo_assign w video f :
  getActiveVideo w = Some video ->
  getActiveVideo (state_after (assign video f w)) = Some (assign_media f video).
Proof.
  intros H. unfold assign, modify, state_after. simpl.
  unfold getActiveVideo in *. simpl.
  rewrite querySelectorAll_video_update_media.
  set (g := upd (eid video) (assign_media f)).
  assert (Hg : g video = assign_media f video).
  { unfold g, upd. now rewrite Nat.eqb_refl. }
  assert (Hview : forall a, in_view_and_large
            (with_document (update_media (eid video) f (document w)) w) (g a)
            = in_view_and_large w a).
  { intros a. unfold in_view_and_large, isInViewport, g. simpl.
    now rewrite rect_upd_media. }
  assert (Hlarger : forall x y, larger (g x) (g y) = g (larger x y)).
  { intros x y. unfold larger, area, g. rewrite !rect_upd_media.
    now destruct (_ <? _). }
  rewrite <- Hg.
  destruct (querySelectorAll_video (document w)) as [|v0 [|v1 l]]; [discriminate| |].
  - injection H as H. now rewrite <- H.
  - cbn [map]. change (g v0 :: g v1 :: map g l) with (map g (v0 :: v1 :: l)).
    rewrite (find_map_commute _ g _ Hview).
    destruct (List.find _ _) eqn:E; injection H as H; rewrite <- H.
    + reflexivity.
    + simpl option_map. cbv iota. f_equal.
      exact (fold_left_map_commute larger g (v0 :: v1 :: l) v0 Hlarger).
Qed.

End ActiveVideo.

(* ===================================================================== *)
(** * Inserting and removing the overlay *)
(* ===================================================================== *)

Section Overlay.

Lemma subtree_elems_Element e cs :
  subtree_elems (Element e cs) = e :: flat_map subtree_elems cs.
Proof. reflexivity. Qed.

Lemma ids_Element e cs : ids (Element e cs) = eid e :: flat_map ids cs.
Proof.
  unfold ids. rewrite subtree_elems_Element. simpl. f_equal.
  induction cs as [|c cs IH]; [reflexivity|].
  simpl. now rewrite map_app, IH.
Qed.

Lemma ids_child e cs c i : c ∈ cs -> i ∈ ids c -> i ∈ ids (Element e cs).
Proof.
  intros Hc Hi. rewrite ids_Element. right.
  apply list_elem_of_In, in_flat_map. exists c.
  split; now apply list_elem_of_In.
Qed.

Lemma ids_root n : eid (elem n) ∈ ids n.
Proof. destruct n. rewrite ids_Element. left. Qed.

(** Updating a reference the tree does not mention changes nothing. *)
Lemma update_node_absent id f n : id ∉ ids n -> update_node id f n = n.
Proof.
  induction n as [e cs IH] using Node_ind'. intros Hid. simpl.
  assert (He : Nat.eqb (eid e) id = false).
  { apply Nat.eqb_neq. intros <-. apply Hid. rewrite ids_Element. left. }
  rewrite He. f_equal.
  assert (Hcs : forall c, c ∈ cs -> id ∉ ids c).
  { intros c Hc Hi. apply Hid. eapply ids_child; eassumption. }
  clear Hid He. induction IH as [|c cs Hc _ IHcs]; [reflexivity|].
  simpl. rewrite Hc by (apply Hcs; left).
  f_equal. apply IHcs. intros c' Hc'. apply Hcs. now right.
Qed.

(** An update of a reference that only the appended child mentions acts
    on that child alone. *)
Lemma update_after_append c f p K n :
  c ∉ ids n ->
  update_node c f (appendChild p K n) = appendChild p (update_node c f K) n.
Proof.
  unfold appendChild.
  induction n as [e cs IH] using Node_ind'. intros Hc.
  assert (He : Nat.eqb (eid e) c = false).
  { apply Nat.eqb_neq. intros <-. apply Hc. rewrite ids_Element. left. }
  assert (Hcs : forall a, a ∈ cs -> c ∉ ids a).
  { intros a Ha Hi. apply Hc. eapply ids_child; eassumption. }
  assert (Hmap : map (update_node c f) (map (update_node p (append K)) cs)
                 = map (update_node p (append (update_node c f K))) cs).
  { clear Hc He. induction IH as [|a cs Ha _ IHcs]; [reflexivity|].
    simpl. rewrite Ha by (apply Hcs; left).
    f_equal. apply IHcs. intros a' Ha'. apply Hcs. now right. }
  simpl. destruct (Nat.eqb (eid e) p); simpl; rewrite He.
  - rewrite map_app, Hmap. reflexivity.
  - now rewrite Hmap.
Qed.

Lemma elem_update_append p K n : elem (update_node p (append K) n) = elem n.
Proof. destruct n as [e cs]. simpl. now destruct (Nat.eqb (eid e) p). Qed.

(** Removing a freshly appended child gives the document back. *)
Lemma removeChild_appendChild c p K n :
  c ∉ ids n -> eid (elem K) = c ->
  removeChild c (appendChild p K n) = n.
Proof.
  unfold appendChild. intros Hc HK. revert Hc.
  induction n as [e cs IH] using Node_ind'. intros Hc.
  assert (Hcs : forall a, a ∈ cs -> c ∉ ids a).
  { intros a Ha Hi. apply Hc. eapply ids_child; eassumption. }
  assert (Hmap : flat_map (fun a => if Nat.eqb (eid (elem a)) c then []
                                    else [removeChild c a])
                   (map (update_node p (append K)) cs) = cs).
  { clear Hc. induction IH as [|a cs Ha _ IHcs]; [reflexivity|].
    simpl. rewrite elem_update_append.
    assert (Hne : Nat.eqb (eid (elem a)) c = false).
    { apply Nat.eqb_neq. intros Heq.
      apply (Hcs a); [left | rewrite <- Heq; apply ids_root]. }
    rewrite Hne, Ha by (apply Hcs; left). simpl.
    f_equal. apply IHcs. intros a' Ha'. apply Hcs. now right. }
  simpl. destruct (Nat.eqb (eid e) p); simpl.
  - rewrite flat_map_app, Hmap. simpl. rewrite HK, Nat.eqb_refl.
    now rewrite app_nil_r.
  - now rewrite Hmap.
Qed.

(** ** Counting elements *)


End Overlay.

(* ===================================================================== *)
(** * Registering and removing the listeners *)
(* ===================================================================== *)

Section Listeners.

Lemma add_listener_fresh r l : r ∉ l -> add_listener r l = l ++ [r].
Proof. intros H. unfold add_listener. now rewrite bool_decide_eq_false_2. Qed.

Lemma remove_listener_absent r l : r ∉ l -> remove_listener r l = l.
Proof.
  intros H. unfold remove_listener. induction l as [|a l IH]; [reflexivity|].
  rewrite filter_cons. case_decide as Hd.
  - f_equal. apply IH. intros Hin. apply H. now right.
  - subst a. exfalso. apply H. left.
Qed.

Lemma remove_listener_app r l1 l2 :
  remove_listener r (l1 ++ l2) = remove_listener r l1 ++ remove_listener r l2.
Proof. apply filter_app. Qed.

Ltac decide_registrations :=
  unfold remove_listener;
  repeat (let Hd := fresh "Hd" in
          rewrite filter_cons; case_decide as Hd;
          [ try (exfalso; apply Hd; reflexivity)
          | try discriminate Hd; try (injection Hd; intros; lia) ]);
  rewrite ?filter_nil.

(** The seven calls of [addEventListener] add seven new registrations. *)
Lemma register_all video c l :
  (forall r, r ∈ l -> (instance (handler r) < c)%nat) ->
  add_listener (registration (S c) "input" onSliderInput c false)
    (add_listener (registration video "seeked" onSeeked c false)
      (add_listener (registration video "loadedmetadata" onLoadedMetadata c false)
        (add_listener (registration video "timeupdate" onTimeUpdate c false)
          (add_listener (registration (S c) "click" stopProp c true)
            (add_listener (registration c "mousedown" stopProp c true)
              (add_listener (registration c "click" stopProp c true) l))))))
  = l ++ registrations video c (S c).
Proof.
  intros Hfresh.
  assert (Hl : forall el ty f cap, registration el ty f c cap ∉ l).
  { intros el ty f cap Hin. apply Hfresh in Hin. simpl in Hin. lia. }
  repeat match goal with
  | |- context [add_listener ?r ?l'] =>
      lazymatch l' with
      | add_listener _ _ => fail
      | _ => rewrite (add_listener_fresh r l')
      end;
      [| rewrite ?elem_of_app, ?list_elem_of_singleton;
         intros Hin;
         repeat match type of Hin with _ \/ _ => destruct Hin as [Hin|Hin] end;
         first [ now apply Hl in Hin
               | discriminate Hin
               | injection Hin; intros; lia ]]
  end.
  rewrite <- !app_assoc. reflexivity.
Qed.

(** The seven calls of [removeEventListener] in [cleanup] remove them. *)
Lemma unregister_all video c l :
  (forall r, r ∈ l -> (instance (handler r) < c)%nat) ->
  remove_listener (registration (S c) "click" stopProp c true)
    (remove_listener (registration c "mousedown" stopProp c true)
      (remove_listener (registration c "click" stopProp c true)
        (remove_listener (registration (S c) "input" onSliderInput c false)
          (remove_listener (registration video "seeked" onSeeked c false)
            (remove_listener (registration video "loadedmetadata" onLoadedMetadata c false)
              (remove_listener (registration video "timeupdate" onTimeUpdate c false)
                (l ++ registrations video c (S c))))))))
  = l.
Proof.
  intros Hfresh.
  assert (Hl : forall el ty f cap, registration el ty f c cap ∉ l).
  { intros el ty f cap Hin. apply Hfresh in Hin. simpl in Hin. lia. }
  rewrite !remove_listener_app.
  rewrite !(remove_listener_absent _ l) by apply Hl.
  rewrite <- (app_nil_r l) at 2. f_equal.
  unfold registrations. decide_registrations. reflexivity.
Qed.
End Listeners.

(* ===================================================================== *)
(** * The paths through [createControls] and [cleanup] *)
(* ===================================================================== *)

Section Paths.
Local Open Scope float_scope.

Lemma World_eq w1 w2 :
  document w1 = document w2 ->
  innerWidth w1 = innerWidth w2 -> innerHeight w1 = innerHeight w2 ->
  activeElement w1 = activeElement w2 ->
  listeners w1 = listeners w2 -> nextRef w1 = nextRef w2 ->
  enhanced w1 = enhanced w2 -> cleanupMap w1 = cleanupMap w2 ->
  w1 = w2.
Proof. destruct w1, w2. simpl. intros. now subst. Qed.

Lemma findAttachmentParent_run w video :
  fault video <> Some RaisesOnLayout ->
  findAttachmentParent video w = (Normal (Some (attachment_point w video)), w).
Proof.
  intros Hf. unfold findAttachmentParent, attachment_point.
  rewrite bool_decide_eq_false_2 by assumption.
  destruct (offsetParent video); [reflexivity|].
  unfold mbind, Stmt_bind, gets.
  destruct (walk_ancestors _ _); reflexivity.
Qed.

(** Not a genuine video element: nothing happens. *)
Lemma createControls_not_video w video :
  instanceof_HTMLVideoElement video = false ->
  createControls video w = (Normal tt, w).
Proof. intros H. unfold createControls. now rewrite H. Qed.

(** Already in the enhancement set: nothing happens. *)
Lemma createControls_enhanced w video :
  eid video ∈ enhanced w -> createControls video w = (Normal tt, w).
Proof.
  intros H. unfold createControls.
  destruct (instanceof_HTMLVideoElement video); [|reflexivity]. simpl.
  unfold mbind, Stmt_bind, gets, WeakSet.has.
  now rewrite bool_decide_eq_true_2.
Qed.

(** Reading the layout raises: the call raises, nothing has changed. *)
Lemma createControls_layout_fault w video :
  instanceof_HTMLVideoElement video = true ->
  eid video ∉ enhanced w ->
  fault video = Some RaisesOnLayout ->
  createControls video w = (Throw, w).
Proof.
  intros Hv He Hf. unfold createControls. rewrite Hv. simpl.
  unfold mbind, Stmt_bind, gets, WeakSet.has.
  rewrite bool_decide_eq_false_2 by assumption.
  unfold findAttachmentParent. now rewrite Hf.
Qed.

(** The duplicate check finds a linked container: the video joins the
    enhancement set, and nothing else changes. *)
Lemma createControls_linked w video :
  instanceof_HTMLVideoElement video = true ->
  eid video ∉ enhanced w ->
  fault video <> Some RaisesOnLayout ->
  found_linked w video = true ->
  createControls video w =
    (Normal tt, with_enhanced (WeakSet.add (eid video) (enhanced w)) w).
Proof.
  intros Hv He Hf Hl. unfold createControls. rewrite Hv. simpl.
  unfold mbind, Stmt_bind, gets, WeakSet.has.
  rewrite bool_decide_eq_false_2 by assumption.
  rewrite (findAttachmentParent_run _ _ Hf).
  unfold found_linked, existing_container in Hl. unfold mbind in Hl.
  now rewrite Hl.
Qed.

Lemma constructs_true w video :
  constructs w video = true ->
  instanceof_HTMLVideoElement video = true /\
  (eid video ∉ enhanced w) /\
  fault video <> Some RaisesOnLayout /\
  found_linked w video = false.
Proof.
  unfold constructs, WeakSet.has. rewrite !andb_true_iff, !negb_true_iff.
  intros [[[H1 H2] H3] H4]. repeat split; try assumption.
  - now apply bool_decide_eq_false in H2.
  - now apply bool_decide_eq_false in H3.
Qed.

(** The construction, when the video's [addEventListener] raises: the
    call raises after the two elements were created and three listeners
    registered on them; the tracker and the document are as before. *)
Lemma createControls_listen_fault w video :
  constructs w video = true ->
  fault video = Some RaisesOnListen ->
  exists w',
    createControls video w = (Throw, w') /\
    enhanced w' = enhanced w /\ cleanupMap w' = cleanupMap w /\
    document w' = document w.
Proof.
  intros Hc Hf. destruct (constructs_true _ _ Hc) as (Hv & He & Hl & Hn).
  unfold createControls. rewrite Hv. simpl.
  unfold mbind, Stmt_bind, gets, WeakSet.has.
  rewrite bool_decide_eq_false_2 by assumption.
  rewrite (findAttachmentParent_run _ _ Hl).
  unfold found_linked, existing_container in Hn. unfold mbind in Hn.
  rewrite Hn. unfold createElement, addEventListener. simpl.
  rewrite Hf. simpl. eexists. split; [reflexivity|]. now repeat split.
Qed.

Lemma fresh_refs_container w :
  fresh_refs w -> nextRef w ∉ ids (document w).
Proof. intros [H _] Hin. apply H in Hin. lia. Qed.

Lemma fresh_refs_slider w :
  fresh_refs w -> S (nextRef w) ∉ ids (document w).
Proof. intros [H _] Hin. apply H in Hin. lia. Qed.

Lemma append_in_container c X :
  update_node c (append X) (Element (new_container c) [])
  = Element (new_container c) [X].
Proof. simpl. now rewrite Nat.eqb_refl. Qed.

Lemma eid_assign_slider f e : eid (assign_slider f e) = eid e.
Proof. unfold assign_slider. now destruct (kind e). Qed.

Lemma sync_in_container c g sl :
  eid sl = S c ->
  update_node (S c) (on_elem g) (Element (new_container c) [Element sl []])
  = Element (new_container c) [Element (g sl) []].
Proof.
  intros Hs. simpl. rewrite Hs, Nat.eqb_refl.
  replace (Nat.eqb c (S c)) with false by (symmetry; apply Nat.eqb_neq; lia).
  reflexivity.
Qed.

(** The construction completes: the page is [attached w video]. *)
Lemma createControls_constructs w video :
  constructs w video = true ->
  fault video = None ->
  fresh_refs w ->
  createControls video w = (Normal tt, attached w video).
Proof.
  intros Hc Hf Hfresh. destruct (constructs_true _ _ Hc) as (Hv & He & Hl & Hn).
  unfold createControls. rewrite Hv. simpl.
  unfold mbind, Stmt_bind, gets, WeakSet.has.
  rewrite bool_decide_eq_false_2 by assumption.
  rewrite (findAttachmentParent_run _ _ Hl).
  unfold found_linked, existing_container in Hn. unfold mbind in Hn.
  rewrite Hn. unfold createElement, addEventListener, updateProgress.
  unfold mbind, Stmt_bind, gets, modify. simpl.
  rewrite Hf. simpl.
  destruct (negb (JS.isNaN (duration (media_of video)))) eqn:Hd; simpl;
    f_equal; apply World_eq; simpl; try reflexivity;
    try (apply register_all, Hfresh).
  all: unfold update_slider;
    change (appendChild (nextRef w) ?X ?d)
      with (update_node (nextRef w) (append X) d);
    rewrite (update_after_append (nextRef w))
      by (apply fresh_refs_container; assumption);
    rewrite !(update_after_append (S (nextRef w)))
      by (apply fresh_refs_slider; assumption);
    f_equal; unfold synced_slider; rewrite Hd;
    rewrite append_in_container, !sync_in_container
      by (rewrite ?eid_assign_slider; reflexivity);
    reflexivity.
Qed.

(** The construction completes, whatever references the page mentions:
    the tracker gains the video and its teardown record. *)
Lemma createControls_constructs_tracker w video :
  constructs w video = true ->
  fault video = None ->
  exists w',
    createControls video w = (Normal tt, w') /\
    enhanced w' = {[ eid video ]} ∪ enhanced w /\
    cleanupMap w' = <[ eid video := teardown w video ]> (cleanupMap w).
Proof.
  intros Hc Hf. destruct (constructs_true _ _ Hc) as (Hv & He & Hl & Hn).
  unfold createControls. rewrite Hv. simpl.
  unfold mbind, Stmt_bind, gets, WeakSet.has.
  rewrite bool_decide_eq_false_2 by assumption.
  rewrite (findAttachmentParent_run _ _ Hl).
  unfold found_linked, existing_container in Hn. unfold mbind in Hn.
  rewrite Hn. unfold createElement, addEventListener, updateProgress.
  unfold mbind, Stmt_bind, gets, modify. simpl.
  rewrite Hf. simpl.
  destruct (negb (JS.isNaN (duration (media_of video)))); simpl;
    eexists; (split; [reflexivity|]); split; reflexivity.
Qed.

Lemma cleanup_run cl w : cleanup cl w = (Normal tt, torn_down cl w).
Proof. reflexivity. Qed.

Lemma cleanupVideo_recorded w video cl :
  cleanupMap w !! eid video = Some cl ->
  cleanupVideo video w = (Normal tt, torn_down cl w).
Proof.
  intros H. unfold cleanupVideo, mbind, Stmt_bind, gets, WeakMap.get.
  rewrite H. apply cleanup_run.
Qed.

Lemma cleanupVideo_unrecorded w video :
  cleanupMap w !! eid video = None ->
  cleanupVideo video w = (Normal tt, w).
Proof.
  intros H. unfold cleanupVideo, mbind, Stmt_bind, gets, WeakMap.get.
  now rewrite H.
Qed.

(** Tearing down what [createControls] has just constructed gives the
    page back, but for the two references that were used up. *)
Lemma torn_down_attached w video :
  fresh_refs w ->
  eid video ∉ enhanced w ->
  cleanupMap w !! eid video = None ->
  torn_down (teardown w video) (attached w video)
  = with_nextRef (S (S (nextRef w))) w.
Proof.
  intros Hfresh He Hm. apply World_eq; simpl; try reflexivity.
  - apply removeChild_appendChild; [now apply fresh_refs_container | reflexivity].
  - apply unregister_all, Hfresh.
  - apply set_eq. intros x.
    rewrite elem_of_difference, elem_of_union, !elem_of_singleton.
    split; [intros [[->|Hx] Hne]; [contradiction | assumption]|].
    intros Hx. split; [now right | now intros ->].
  - now apply delete_insert_id.
Qed.
End Paths.

(* ===================================================================== *)
(** * The command dispatcher *)
(* ===================================================================== *)

Section Dispatcher.
Local Open Scope float_scope.

Lemma state_after_pair {A} (c : Completion A) w : state_after (c, w) = w.
Proof. reflexivity. Qed.

Ltac run_command H :=
  unfold mbind, Stmt_bind, gets; rewrite H; reflexivity.





Lemma increaseSpeed_run w video :
  getActiveVideo w = Some video ->
  increaseSpeed w =
    (Normal true,
     state_after (assign video (set_playbackRate
       (JS.at_index PLAYBACK_SPEEDS
          (Z.min (JS.indexOf PLAYBACK_SPEEDS (currentSpeed video) + 1)
                 (Z.of_nat (length PLAYBACK_SPEEDS) - 1)))) w)).
Proof. intros H. unfold increaseSpeed. run_command H. Qed.

Lemma decreaseSpeed_run w video :
  getActiveVideo w = Some video ->
  decreaseSpeed w =
    (Normal true,
     state_after (assign video (set_playbackRate
       (JS.at_index PLAYBACK_SPEEDS
          (Z.max (JS.indexOf PLAYBACK_SPEEDS (currentSpeed video) - 1) 0))) w)).
Proof. intros H. unfold decreaseSpeed. run_command H. Qed.

(** The active video after a speed command, and its rate. *)
Lemma increaseSpeed_active w video :
  getActiveVideo w = Some video ->
  exists video',
    getActiveVideo (state_after (increaseSpeed w)) = Some video' /\
    playbackRate (media_of video') =
      JS.at_index PLAYBACK_SPEEDS
        (Z.min (JS.indexOf PLAYBACK_SPEEDS (currentSpeed video) + 1) 7).
Proof.
  intros H. rewrite (increaseSpeed_run _ _ H).
  eexists. split; [apply getActiveVideo_assign, H|].
  rewrite media_of_assign_media by (eapply getActiveVideo_is_video, H).
  reflexivity.
Qed.

Lemma decreaseSpeed_active w video :
  getActiveVideo w = Some video ->
  exists video',
    getActiveVideo (state_after (decreaseSpeed w)) = Some video' /\
    playbackRate (media_of video') =
      JS.at_index PLAYBACK_SPEEDS
        (Z.max (JS.indexOf PLAYBACK_SPEEDS (currentSpeed video) - 1) 0).
Proof.
  intros H. rewrite (decreaseSpeed_run _ _ H).
  eexists. split; [apply getActiveVideo_assign, H|].
  rewrite media_of_assign_media by (eapply getActiveVideo_is_video, H).
  reflexivity.
Qed.

Lemma currentSpeed_of_rate video r :
  playbackRate (media_of video) = Some r -> currentSpeed video = JS.or_else r 1.
Proof. unfold currentSpeed. now intros ->. Qed.

(** One step up from a rate of the list: the active video and its rate. *)
Lemma step_up w video r :
  getActiveVideo w = Some video ->
  playbackRate (media_of video) = Some r ->
  exists video',
    getActiveVideo (state_after (increaseSpeed w)) = Some video' /\
    playbackRate (media_of video') =
      JS.at_index PLAYBACK_SPEEDS
        (Z.min (JS.indexOf PLAYBACK_SPEEDS (JS.or_else r 1) + 1) 7) /\
    active_rate (state_after (increaseSpeed w)) = playbackRate (media_of video').
Proof.
  intros H Hr. destruct (increaseSpeed_active _ _ H) as (v' & Hv & Hp).
  exists v'. rewrite (currentSpeed_of_rate _ _ Hr) in Hp.
  repeat split; try assumption. unfold active_rate. now rewrite Hv.
Qed.

Lemma step_down w video r :
  getActiveVideo w = Some video ->
  playbackRate (media_of video) = Some r ->
  exists video',
    getActiveVideo (state_after (decreaseSpeed w)) = Some video' /\
    playbackRate (media_of video') =
      JS.at_index PLAYBACK_SPEEDS
        (Z.max (JS.indexOf PLAYBACK_SPEEDS (JS.or_else r 1) - 1) 0) /\
    active_rate (state_after (decreaseSpeed w)) = playbackRate (media_of video').
Proof.
  intros H Hr. destruct (decreaseSpeed_active _ _ H) as (v' & Hv & Hp).
  exists v'. rewrite (currentSpeed_of_rate _ _ Hr) in Hp.
  repeat split; try assumption. unfold active_rate. now rewrite Hv.
Qed.

(** C7. Speed cycling is clamped, with no wraparound, over the ordered
    list 0.25, 0.5, 0.75, 1, 1.25, 1.5, 1.75, 2: from rate 1, five
    successive [increaseSpeed] calls show 1.25, 1.5, 1.75, 2, 2;
    [decreaseSpeed] from 0.25 stays at 0.25; and from the [i]-th rate of
    the list a step up gives the rate at [min (i+1) 7], a step down the
    rate at [i-1] (at 0 for [i = 0]). *)
Theorem speed_cycling_clamped w video :
  getActiveVideo w = Some video ->
  (playbackRate (media_of video) = Some 1 ->
     rates_after increaseSpeed 5 w =
       [Some 1.25; Some 1.5; Some 1.75; Some 2; Some 2]) /\
  (playbackRate (media_of video) = Some 0.25 ->
     rates_after decreaseSpeed 1 w = [Some 0.25]) /\
  (forall i r,
     PLAYBACK_SPEEDS !! i = Some r ->
     playbackRate (media_of video) = Some r ->
     active_rate (state_after (increaseSpeed w)) = PLAYBACK_SPEEDS !! Nat.min (i + 1) 7 /\
     active_rate (state_after (decreaseSpeed w)) = PLAYBACK_SPEEDS !! Nat.pred i).
Proof.
  intros H. split; [|split].
  - intros Hr. unfold rates_after.
    destruct (step_up _ _ _ H Hr) as (v1 & H1 & R1 & A1).
    rewrite A1, R1. vm_compute in R1.
    destruct (step_up _ _ _ H1 R1) as (v2 & H2 & R2 & A2).
    rewrite A2, R2. vm_compute in R2.
    destruct (step_up _ _ _ H2 R2) as (v3 & H3 & R3 & A3).
    rewrite A3, R3. vm_compute in R3.
    destruct (step_up _ _ _ H3 R3) as (v4 & H4 & R4 & A4).
    rewrite A4, R4. vm_compute in R4.
    destruct (step_up _ _ _ H4 R4) as (v5 & H5 & R5 & A5).
    rewrite A5, R5. reflexivity.
  - intros Hr. unfold rates_after.
    destruct (step_down _ _ _ H Hr) as (v1 & H1 & R1 & A1).
    rewrite A1, R1. reflexivity.
  - intros i r Hi Hr.
    destruct (step_up _ _ _ H Hr) as (v1 & _ & R1 & A1).
    destruct (step_down _ _ _ H Hr) as (v2 & _ & R2 & A2).
    rewrite A1, R1, A2, R2.
    do 8 (destruct i as [|i]; [injection Hi as <-; split; reflexivity|]).
    discriminate.
Qed.

Lemma speed_cycling_clamped_witness :
  rates_after increaseSpeed 5 one_reel =
    [Some 1.25; Some 1.5; Some 1.75; Some 2; Some 2].
Proof.
  apply (speed_cycling_clamped one_reel reel); reflexivity.
Defined.

Lemma indexOf_from_absent l r i :
  (forall x, x ∈ l -> (x =? r) = false) -> JS.indexOf_from i r l = (-1)%Z.
Proof.
  revert i. induction l as [|y l IH]; intros i H; [reflexivity|].
  simpl. rewrite (H y) by left. apply IH. intros x Hx. apply H. now right.
Qed.

Lemma or_else_truthy r d : is_zero r = false -> is_nan r = false -> JS.or_else r d = r.
Proof. intros Hz Hn. unfold JS.or_else, JS.truthy. now rewrite Hz, Hn. Qed.

Lemma or_else_zero r d : is_zero r = true -> JS.or_else r d = d.
Proof. intros Hz. unfold JS.or_else, JS.truthy. now rewrite Hz. Qed.

(** C10. When the rate of the active video is nonzero and is not one of
    0.25, 0.5, 0.75, 1, 1.25, 1.5, 1.75, 2, both [increaseSpeed] and
    [decreaseSpeed] set it to 0.25, the first entry: [indexOf] gives -1,
    which both clamps take to index 0.  A rate of 0, or a missing one, is
    looked up as 1.  ([playbackRate] is a finite number on a media
    element, hence the [is_nan] premise.) *)
Theorem speed_off_list_goes_to_first w video :
  getActiveVideo w = Some video ->
  (forall r,
     playbackRate (media_of video) = Some r ->
     is_zero r = false -> is_nan r = false ->
     (forall x, x ∈ PLAYBACK_SPEEDS -> (x =? r) = false) ->
     JS.indexOf PLAYBACK_SPEEDS (currentSpeed video) = (-1)%Z /\
     active_rate (state_after (increaseSpeed w)) = Some 0.25 /\
     active_rate (state_after (decreaseSpeed w)) = Some 0.25) /\
  ((playbackRate (media_of video) = None \/
    exists r, playbackRate (media_of video) = Some r /\ is_zero r = true) ->
     currentSpeed video = 1 /\
     active_rate (state_after (increaseSpeed w)) = Some 1.25 /\
     active_rate (state_after (decreaseSpeed w)) = Some 0.75).
Proof.
  intros H.
  destruct (increaseSpeed_active _ _ H) as (v1 & A1 & R1).
  destruct (decreaseSpeed_active _ _ H) as (v2 & A2 & R2).
  unfold active_rate. rewrite A1, A2. simpl. rewrite R1, R2. split.
  - intros r Hr Hz Hn Habs.
    rewrite (currentSpeed_of_rate _ _ Hr), (or_else_truthy _ _ Hz Hn).
    unfold JS.indexOf. rewrite (indexOf_from_absent _ _ _ Habs).
    repeat split; reflexivity.
  - intros Hmissing.
    assert (Hs : currentSpeed video = 1).
    { unfold currentSpeed. destruct Hmissing as [-> | (r & -> & Hz)];
        [reflexivity | now apply or_else_zero]. }
    rewrite Hs. repeat split; reflexivity.
Qed.

Lemma speed_off_list_goes_to_first_witness :
  active_rate (state_after (increaseSpeed (page_of (with_rate (Some 3) (media_at 25 100))))) = Some 0.25 /\
  active_rate (state_after (decreaseSpeed (page_of (with_rate (Some 3) (media_at 25 100))))) = Some 0.25 /\
  active_rate (state_after (increaseSpeed (page_of (with_rate None (media_at 25 100))))) = Some 1.25.
Proof.
  pose proof (speed_off_list_goes_to_first
                (page_of (with_rate (Some 3) (media_at 25 100)))
                (reel_of (with_rate (Some 3) (media_at 25 100))) eq_refl) as [H3 _].
  pose proof (speed_off_list_goes_to_first
                (page_of (with_rate None (media_at 25 100)))
                (reel_of (with_rate None (media_at 25 100))) eq_refl) as [_ H0].
  destruct (H3 3 eq_refl eq_refl eq_refl) as (_ & Hup & Hdown).
  { intros x Hx. repeat (apply elem_of_cons in Hx as [->|Hx]; [reflexivity|]).
    now apply elem_of_nil in Hx. }
  destruct (H0 (or_introl eq_refl)) as (_ & Hup0 & _).
  exact (conj Hup (conj Hdown Hup0)).
Defined.








End Dispatcher.

(* ===================================================================== *)
(** * The progress renderer *)
(* ===================================================================== *)

Section ProgressRenderer.
Local Open Scope float_scope.

Lemma fill_set_background b s :
  fill_percentage (set_background (linear_gradient b) s) = Some b.
Proof. reflexivity. Qed.

Lemma fill_set_value v s : fill_percentage (set_value v s) = fill_percentage s.
Proof. reflexivity. Qed.

Lemma fill_set_max v s : fill_percentage (set_max v s) = fill_percentage s.
Proof. reflexivity. Qed.

(** The percentage [render_progress] writes when the duration is a
    positive number. *)
Lemma render_progress_known active video sid slider :
  is_nan (duration (media_of video)) = false ->
  (0 <? duration (media_of video)) = true ->
  fill_percentage (render_progress active video sid slider) =
    Some (JS.Math_max 0 (JS.Math_min 100
            (currentTime (media_of video) / duration (media_of video) * 100))).
Proof.
  intros Hn Hp. unfold render_progress, JS.isNaN. rewrite Hn, Hp. simpl.
  rewrite fill_set_max. destruct (bool_decide _); reflexivity.
Qed.

Lemma render_progress_unknown active video sid slider :
  negb (is_nan (duration (media_of video))) && (0 <? duration (media_of video)) = false ->
  fill_percentage (render_progress active video sid slider) = Some 0.
Proof. intros H. unfold render_progress, JS.isNaN. now rewrite H. Qed.

(** [Math.max(0, Math.min(100, x))] is [x] clamped to [0,100]. *)
Lemma max_min_clamps x :
  is_nan x = false ->
  (JS.Math_max 0 (JS.Math_min 100 x) =? clamp_0_100 x) = true.
Proof.
  intros Hx. unfold clamp_0_100.
  assert (N100 : is_nan 100 = false) by reflexivity.
  assert (N0 : is_nan 0 = false) by reflexivity.
  destruct (x <? 0) eqn:Lt0.
  - (* below the range *)
    assert (Hlt : (x <? 100) = true)
      by (eapply float_ltb_leb_trans; [exact Lt0 | reflexivity]).
    assert (Hmin : JS.Math_min 100 x = x).
    { unfold JS.Math_min. rewrite Hx, Hlt. simpl.
      now rewrite (float_leb_ltb_false _ _ (float_ltb_leb _ _ Hlt)). }
    rewrite Hmin. unfold JS.Math_max. rewrite Hx, Lt0. simpl.
    now rewrite (float_leb_ltb_false _ _ (float_ltb_leb _ _ Lt0)).
  - destruct (100 <? x) eqn:Gt100.
    + (* above the range *)
      assert (Hmin : JS.Math_min 100 x = 100).
      { unfold JS.Math_min. now rewrite Hx, Gt100. }
      rewrite Hmin. reflexivity.
    + (* within the range *)
      assert (Hmin : JS.Math_min 100 x = x).
      { unfold JS.Math_min. rewrite Hx, Gt100. simpl.
        now destruct (x <? 100). }
      rewrite Hmin. unfold JS.Math_max. rewrite Hx, Lt0. simpl.
      destruct (0 <? x) eqn:Gt0; [now apply float_eqb_refl|].
      simpl. apply float_leb_antisym; now apply float_total.
Qed.

(** C8. The progress renderer shows a clamped fill: when the duration is
    a number greater than 0 the fill percentage is
    currentTime / duration * 100 clamped to [0,100] (for the finite current
    time a media element has); for duration 100 and current time 25 it is
    25; when the duration is 0, negative or [NaN] it is 0; and rendering
    completes normally. *)
Theorem progress_fill_clamped active video sid slider :
  ((0 <? duration (media_of video)) = true ->
   JS.isFinite (currentTime (media_of video)) = true ->
   exists pct,
     fill_percentage (render_progress active video sid slider) = Some pct /\
     (pct =? clamp_0_100
               (currentTime (media_of video) / duration (media_of video) * 100)) = true /\
     (0 <=? pct) = true /\ (pct <=? 100) = true) /\
  (duration (media_of video) = 100 -> currentTime (media_of video) = 25 ->
   fill_percentage (render_progress active video sid slider) = Some 25) /\
  (is_nan (duration (media_of video)) = true \/
   (duration (media_of video) =? 0) = true \/
   (duration (media_of video) <? 0) = true ->
   fill_percentage (render_progress active video sid slider) = Some 0) /\
  (forall w,
     completion (updateProgress video sid w) = Normal tt /\
     document (state_after (updateProgress video sid w)) =
       update_slider sid (render_progress (activeElement w) video sid) (document w)).
Proof.
  split; [|split; [|split]].
  - intros Hp Hc.
    destruct (float_ltb_not_nan _ _ Hp) as [_ Hn].
    pose proof (percentage_is_number _ _ Hc Hp) as Hq.
    eexists. split; [now apply render_progress_known|].
    assert (Hmin : is_nan (JS.Math_min 100
              (currentTime (media_of video) / duration (media_of video) * 100)) = false)
      by now apply Math_min_nan.
    split; [now apply max_min_clamps|]. split.
    + now apply Math_max_ge_l.
    + apply Math_max_lub; [reflexivity|]. now apply Math_min_le_l.
  - intros Hd Hc. rewrite render_progress_known by (rewrite Hd; reflexivity).
    rewrite Hd, Hc. reflexivity.
  - intros H. apply render_progress_unknown.
    destruct H as [H|[H|H]].
    + now rewrite H.
    + rewrite (float_leb_ltb_false _ _ (float_eqb_leb _ _ H)). apply andb_false_r.
    + rewrite (float_leb_ltb_false _ _ (float_ltb_leb _ _ H)). apply andb_false_r.
  - intros w. split; reflexivity.
Qed.

Lemma progress_fill_clamped_witness :
  fill_percentage (render_progress None reel 101%nat
     {| slider_min := 0; slider_step := 0.01; slider_value := 0;
        slider_max := None; slider_background := None |}) = Some 25 /\
  fill_percentage (render_progress None (reel_of (media_at 25 nan)) 101%nat
     {| slider_min := 0; slider_step := 0.01; slider_value := 0;
        slider_max := None; slider_background := None |}) = Some 0 /\
  exists pct,
    fill_percentage (render_progress None (reel_of (media_at 250 100)) 101%nat
      {| slider_min := 0; slider_step := 0.01; slider_value := 0;
         slider_max := None; slider_background := None |}) = Some pct /\
    (pct =? clamp_0_100 (250 / 100 * 100)) = true /\
    (0 <=? pct) = true /\ (pct <=? 100) = true.
Proof.
  split; [|split].
  - exact (proj1 (proj2 (progress_fill_clamped None reel 101%nat _)) eq_refl eq_refl).
  - exact (proj1 (proj2 (proj2
             (progress_fill_clamped None (reel_of (media_at 25 nan)) 101%nat _)))
             (or_introl eq_refl)).
  - exact (proj1 (progress_fill_clamped None (reel_of (media_at 250 100)) 101%nat _)
             eq_refl eq_refl).
Defined.
End ProgressRenderer.

(* ===================================================================== *)
(** * The geometry selector *)
(* ===================================================================== *)

Section GeometrySelector.
Local Open Scope float_scope.

Lemma find_first_passing (p : Elem -> bool) l v :
  List.find p l = Some v -> first_passing p l v.
Proof.
  induction l as [|a l IH]; [discriminate|]. simpl.
  destruct (p a) eqn:E.
  - intros [= <-]. exists 0%nat. repeat split; [assumption|]. intros j u Hj. lia.
  - intros H. destruct (IH H) as (i & Hi & Hp & Hbefore).
    exists (S i). repeat split; [assumption..|].
    intros [|j] u Hj Hu.
    + now injection Hu as <-.
    + apply (Hbefore j); [lia | assumption].
Qed.

Lemma find_none_all (p : Elem -> bool) l :
  List.find p l = None -> forall u, u ∈ l -> p u = false.
Proof.
  intros H u Hu. apply list_elem_of_In in Hu.
  now apply (find_none p l H).
Qed.

(** The invariant of [videos.reduce]: the accumulator is the first video
    of largest area among those seen. *)
Lemma fold_larger_first_largest l :
  forall pre b i,
    pre !! i = Some b ->
    (forall u, u ∈ pre -> (area u <=? area b) = true) ->
    (forall j u, (j < i)%nat -> pre !! j = Some u -> (area u <? area b) = true) ->
    (forall u, u ∈ l -> is_nan (area u) = false) ->
    is_nan (area b) = false ->
    first_largest (pre ++ l) (fold_left larger l b).
Proof.
  induction l as [|v l IH]; intros pre b i Hi Hmax Hfirst Hnan Hb.
  - rewrite app_nil_r. exists i. auto.
  - assert (Hv : is_nan (area v) = false) by (apply Hnan; left).
    simpl. rewrite (cons_middle v pre l), app_assoc.
    unfold larger at 2. destruct (area b <? area v) eqn:E.
    + apply (IH (pre ++ [v]) v (length pre)).
      * now rewrite lookup_app_r, Nat.sub_diag by lia.
      * intros u Hu. apply elem_of_app in Hu as [Hu|Hu].
        -- apply float_ltb_leb. eapply float_leb_ltb_trans; [now apply Hmax | exact E].
        -- apply list_elem_of_singleton in Hu as ->. now apply float_leb_refl.
      * intros j u Hj Hu. rewrite lookup_app_l in Hu by assumption.
        eapply float_leb_ltb_trans; [|exact E].
        apply Hmax. eapply list_elem_of_lookup_2, Hu.
      * intros u Hu. apply Hnan. now right.
      * assumption.
    + apply (IH (pre ++ [v]) b i).
      * now apply lookup_app_l_Some.
      * intros u Hu. apply elem_of_app in Hu as [Hu|Hu]; [now apply Hmax|].
        apply list_elem_of_singleton in Hu as ->. now apply float_total.
      * intros j u Hj Hu. apply (Hfirst j); [assumption|].
        rewrite lookup_app_l in Hu; [assumption|].
        apply lookup_lt_Some in Hi. lia.
      * intros u Hu. apply Hnan. now right.
      * assumption.
Qed.

Lemma area_is_number u :
  JS.isFinite (r_width (rect u)) = true ->
  JS.isFinite (r_height (rect u)) = true ->
  is_nan (area u) = false.
Proof. apply product_is_number. Qed.

(** C6. [getActiveVideo] selects as specified: nothing among no videos;
    the sole video when there is exactly one; otherwise the first video in
    document order that is near the viewport (one box size of margin) and
    more than 100 wide and 100 high; and, when no video passes that test,
    the video of largest width * height, the first one on ties.  (The
    boxes the layout reports have a finite width and height.) *)
Theorem getActiveVideo_selects w :
  (forall u, u ∈ querySelectorAll_video (document w) ->
             JS.isFinite (r_width (rect u)) = true /\
             JS.isFinite (r_height (rect u)) = true) ->
  selects w (querySelectorAll_video (document w)) (getActiveVideo w).
Proof.
  intros Hfinite.
  assert (Hnan : forall u, u ∈ querySelectorAll_video (document w) ->
                           is_nan (area u) = false).
  { intros u Hu. destruct (Hfinite u Hu). now apply area_is_number. }
  clear Hfinite. revert Hnan. unfold getActiveVideo.
  destruct (querySelectorAll_video (document w)) as [|v0 [|v1 l]]; intros Hnan.
  - constructor.
  - constructor.
  - destruct (List.find _ _) eqn:E.
    + apply selects_in_view; [simpl; lia|]. now apply find_first_passing.
    + apply selects_largest; [simpl; lia | now apply find_none_all |].
      assert (H0 : is_nan (area v0) = false) by (apply Hnan; left).
      cbn [fold_left]. unfold larger at 3. rewrite float_ltb_irrefl.
      apply (fold_larger_first_largest (v1 :: l) [v0] v0 0%nat).
      * reflexivity.
      * intros u Hu. apply list_elem_of_singleton in Hu as ->. now apply float_leb_refl.
      * intros j u Hj. lia.
      * intros u Hu. apply Hnan. now right.
      * assumption.
Qed.

Lemma getActiveVideo_selects_witness :
  selects three_videos [far_below; thumbnail; in_view] (Some in_view) /\
  selects none_in_view [far_below; far_and_larger] (Some far_and_larger).
Proof.
  split.
  - refine (getActiveVideo_selects three_videos _).
    intros u Hu. repeat (apply elem_of_cons in Hu as [->|Hu]; [split; reflexivity|]).
    now apply elem_of_nil in Hu.
  - refine (getActiveVideo_selects none_in_view _).
    intros u Hu. repeat (apply elem_of_cons in Hu as [->|Hu]; [split; reflexivity|]).
    now apply elem_of_nil in Hu.
Defined.
End GeometrySelector.

(* ===================================================================== *)
(** * The enhancement lifecycle *)
(* ===================================================================== *)

Section Lifecycle.
Local Open Scope float_scope.











Lemma constructs_ignores_nextRef n w video :
  constructs (with_nextRef n w) video = constructs w video.
Proof. reflexivity. Qed.

Lemma fresh_refs_later n w :
  fresh_refs w -> (nextRef w <= n)%nat -> fresh_refs (with_nextRef n w).
Proof.
  intros [Hd Hl] Hn. split; simpl.
  - intros i Hi. apply Hd in Hi. lia.
  - intros r Hr. apply Hl in Hr. lia.
Qed.




(** C4, on the code.  Two reels share their attachment point and carry no
    [data-custom-id]; the first has been enhanced.  The container found
    under the attachment point is the first reel's and stores no
    [data-for-video], yet [undefined === undefined] makes the check take
    the second reel for linked: it joins the enhancement set, and gets
    neither a container nor a teardown record. *)
Theorem unlinked_video_taken_for_linked :
  createControls reel_a shared_parent = (Normal tt, attached shared_parent reel_a) /\
  dataset_customId reel_b = None /\
  existing_container (attached shared_parent reel_a) reel_b
    = Some (new_container 100%nat) /\
  dataset_forVideo (new_container 100%nat) = None /\
  cleanupMap (attached shared_parent reel_a) !! eid reel_a
    = Some {| cl_video := 2%nat; cl_slider := 101%nat; cl_container := 100%nat |} /\
  found_linked (attached shared_parent reel_a) reel_b = true /\
  createControls reel_b (attached shared_parent reel_a)
    = (Normal tt,
       with_enhanced ({[ 3%nat ]} ∪ enhanced (attached shared_parent reel_a))
         (attached shared_parent reel_a)) /\
  overlay_containers
    (document (state_after (createControls reel_b (attached shared_parent reel_a))))
    = 1%nat /\
  cleanupMap (state_after (createControls reel_b (attached shared_parent reel_a)))
    !! eid reel_b = None.
Proof. vm_compute. repeat split; reflexivity. Qed.

(** The duplicate check, in general: a video is taken for linked exactly
    when the first overlay container below its attachment point stores
    the same [data-for-video] as the video's [data-custom-id], both
    missing included. *)
Lemma found_linked_iff w video :
  found_linked w video = true <->
  exists ex, existing_container w video = Some ex /\
             dataset_forVideo ex = dataset_customId video.
Proof.
  unfold found_linked, linked. destruct (existing_container w video) as [ex|].
  - rewrite bool_decide_eq_true. split; [eauto|]. now intros (? & [= <-] & ?).
  - split; [discriminate|]. now intros (? & ? & _).
Qed.

(** C5, on the code.  A [WeakMap] has no [forEach]: [enhancedCount]
    answers 0 and [cleanupAll] does nothing, whatever the tracker holds,
    for instance after the initial pass has enhanced the one video of a
    page. *)
Theorem debug_interface_sees_nothing :
  (forall w, enhancedCount w = (Normal 0%nat, w)) /\
  (forall w, cleanupAll w = (Normal tt, w)) /\
  initialPass one_reel = (Normal tt, attached one_reel reel) /\
  size (cleanupMap (attached one_reel reel)) = 1%nat /\
  WeakSet.has (eid reel) (enhanced (attached one_reel reel)) = true /\
  completion (enhancedCount (attached one_reel reel)) = Normal 0%nat /\
  WeakSet.has (eid reel)
    (enhanced (state_after (cleanupAll (attached one_reel reel)))) = true.
Proof.
  split; [reflexivity|]. split; [reflexivity|].
  vm_compute. repeat split; reflexivity.
Qed.
End Lifecycle.

(* ===================================================================== *)
(** * Batches: the initial pass and the mutation watcher *)
(* ===================================================================== *)

Section Batches.

(** Every way a call of [createControls] can end, with what it does to
    the tracker. *)
Lemma createControls_outcome video w :
  createControls video w = (Normal tt, w) \/
  (fault video = Some RaisesOnLayout /\ createControls video w = (Throw, w)) \/
  (fault video <> Some RaisesOnLayout /\
   createControls video w =
     (Normal tt, with_enhanced (WeakSet.add (eid video) (enhanced w)) w)) \/
  (fault video = Some RaisesOnListen /\
   exists w', createControls video w = (Throw, w') /\
              enhanced w' = enhanced w /\ cleanupMap w' = cleanupMap w) \/
  (fault video = None /\
   exists w', createControls video w = (Normal tt, w') /\
              enhanced w' = {[ eid video ]} ∪ enhanced w /\
              cleanupMap w' = <[ eid video := teardown w video ]> (cleanupMap w)).
Proof.
  destruct (instanceof_HTMLVideoElement video) eqn:Hv.
  2:{ left. now apply createControls_not_video. }
  destruct (decide (eid video ∈ enhanced w)) as [He|He].
  { left. now apply createControls_enhanced. }
  destruct (decide (fault video = Some RaisesOnLayout)) as [Hl|Hl].
  { right. left. split; [assumption|]. now apply createControls_layout_fault. }
  destruct (found_linked w video) eqn:Hn.
  { right. right. left. split; [assumption|]. now apply createControls_linked. }
  assert (Hc : constructs w video = true).
  { unfold constructs, WeakSet.has. rewrite Hv, Hn.
    now rewrite !bool_decide_eq_false_2 by assumption. }
  destruct (fault video) as [[]|] eqn:Hf.
  - now contradiction Hl.
  - right. right. right. left. split; [reflexivity|].
    destruct (createControls_listen_fault _ _ Hc Hf) as (w' & Hw' & H1 & H2 & _).
    eauto.
  - right. right. right. right. split; [reflexivity|].
    now apply createControls_constructs_tracker.
Qed.

(** [createControls] never takes a video out of the enhancement set. *)
Lemma createControls_grows video w k :
  k ∈ enhanced w -> k ∈ enhanced (state_after (createControls video w)).
Proof.
  intros Hk.
  destruct (createControls_outcome video w)
    as [H|[[_ H]|[[_ H]|[[_ (w' & H & He & _)]|[_ (w' & H & He & _)]]]]];
    rewrite H; unfold state_after; simpl; rewrite ?He;
    try assumption; unfold WeakSet.add; now apply elem_of_union_r.
Qed.

(** A genuine video whose accesses do not raise is enhanced when
    [createControls] returns, and [createControls] does return. *)
Lemma createControls_enhances video w :
  instanceof_HTMLVideoElement video = true ->
  fault video = None ->
  eid video ∈ enhanced (state_after (createControls video w)).
Proof.
  intros Hv Hf.
  destruct (decide (eid video ∈ enhanced w)) as [He|He].
  { now apply createControls_grows. }
  assert (Hl : fault video <> Some RaisesOnLayout) by congruence.
  destruct (found_linked w video) eqn:Hn.
  - rewrite (createControls_linked _ _ Hv He Hl Hn). unfold state_after. simpl.
    unfold WeakSet.add. apply elem_of_union_l. now apply elem_of_singleton.
  - assert (Hc : constructs w video = true).
    { unfold constructs, WeakSet.has. rewrite Hv, Hn.
      now rewrite !bool_decide_eq_false_2 by assumption. }
    destruct (createControls_constructs_tracker _ _ Hc Hf) as (w' & H & He' & _).
    rewrite H. unfold state_after. simpl. rewrite He'.
    apply elem_of_union_l. now apply elem_of_singleton.
Qed.

Lemma createControls_completes video w :
  fault video = None -> completion (createControls video w) = Normal tt.
Proof.
  intros Hf.
  destruct (createControls_outcome video w)
    as [H|[[Hx H]|[[_ H]|[[Hx _]|[_ (w' & H & _)]]]]];
    try congruence; now rewrite H.
Qed.

Lemma createControls_records_ok video w :
  records_ok w -> records_ok (state_after (createControls video w)).
Proof.
  intros Hok.
  destruct (createControls_outcome video w)
    as [H|[[_ H]|[[_ H]|[[_ (w' & H & He & Hm)]|[_ (w' & H & He & Hm)]]]]];
    rewrite H; unfold state_after; simpl; try assumption.
  - intros k cl Hk. destruct (Hok k cl Hk) as [? ?]. split; [assumption|].
    simpl. unfold WeakSet.add. now apply elem_of_union_r.
  - intros k cl Hk. rewrite Hm in Hk. rewrite He. now apply Hok.
  - intros k cl Hk. rewrite Hm in Hk. rewrite He.
    destruct (decide (eid video = k)) as [<-|Hne].
    + rewrite lookup_insert_eq in Hk. injection Hk as <-.
      split; [reflexivity|]. apply elem_of_union_l. now apply elem_of_singleton.
    + rewrite lookup_insert_ne in Hk by assumption.
      destruct (Hok k cl Hk) as [? ?]. split; [assumption|].
      now apply elem_of_union_r.
Qed.

Lemma cleanupVideo_completes video w :
  completion (cleanupVideo video w) = Normal tt.
Proof.
  destruct (cleanupMap w !! eid video) as [cl|] eqn:E.
  - now rewrite (cleanupVideo_recorded _ _ _ E).
  - now rewrite (cleanupVideo_unrecorded _ _ E).
Qed.

Lemma cleanupVideo_records_ok video w :
  records_ok w -> records_ok (state_after (cleanupVideo video w)).
Proof.
  intros Hok. destruct (cleanupMap w !! eid video) as [cl|] eqn:E.
  - rewrite (cleanupVideo_recorded _ _ _ E). unfold state_after. simpl.
    intros k cl' Hk. simpl in Hk.
    apply lookup_delete_Some in Hk as [Hne Hk].
    destruct (Hok k cl' Hk) as [? ?]. split; [assumption|]. simpl.
    apply elem_of_difference. split; [assumption|].
    rewrite elem_of_singleton. congruence.
  - now rewrite (cleanupVideo_unrecorded _ _ E).
Qed.

(** Tearing one video down leaves the others enhanced. *)
Lemma cleanupVideo_keeps video w k :
  records_ok w -> k <> eid video ->
  k ∈ enhanced w -> k ∈ enhanced (state_after (cleanupVideo video w)).
Proof.
  intros Hok Hne Hk. destruct (cleanupMap w !! eid video) as [cl|] eqn:E.
  - rewrite (cleanupVideo_recorded _ _ _ E). unfold state_after. simpl.
    destruct (Hok _ _ E) as [Hcl _].
    apply elem_of_difference. split; [assumption|].
    rewrite elem_of_singleton. congruence.
  - now rewrite (cleanupVideo_unrecorded _ _ E).
Qed.

(** ** Loops *)

Lemma try_catch_run m w : try_catch m w = (Normal tt, state_after (m w)).
Proof. unfold try_catch, state_after. now destruct (m w) as [[[]|] w']. Qed.

Lemma forEach_cons {A} (f : A -> Stmt unit) a l w :
  forEach f (a :: l) w =
    match f a w with
    | (Normal _, w') => forEach f l w'
    | (Throw, w') => (Throw, w')
    end.
Proof. reflexivity. Qed.

(** What every step preserves, the loop preserves, also when a step
    raises and ends the loop. *)
Lemma forEach_preserves {A} (f : A -> Stmt unit) (I : World -> Prop) l :
  (forall a w, a ∈ l -> I w -> I (state_after (f a w))) ->
  forall w, I w -> I (state_after (forEach f l w)).
Proof.
  induction l as [|a l IH]; intros Hstep w Hw; [exact Hw|].
  rewrite forEach_cons.
  pose proof (Hstep a w ltac:(left) Hw) as Ha.
  destruct (f a w) as [[[]|] w']; [|exact Ha].
  apply IH; [|exact Ha]. intros b w0 Hb. apply Hstep. now right.
Qed.

Lemma forEach_completes {A} (f : A -> Stmt unit) l :
  (forall a w, a ∈ l -> completion (f a w) = Normal tt) ->
  forall w, completion (forEach f l w) = Normal tt.
Proof.
  induction l as [|a l IH]; intros Hstep w; [reflexivity|].
  rewrite forEach_cons.
  pose proof (Hstep a w ltac:(left)) as Ha.
  destruct (f a w) as [[[]|] w']; [|discriminate].
  apply IH. intros b w0 Hb. apply Hstep. now right.
Qed.

(** When no step raises, what the step for [x] establishes and the other
    steps keep holds after the loop. *)
Lemma forEach_reaches {A} (f : A -> Stmt unit) (J I : World -> Prop) l x :
  x ∈ l ->
  (forall a w, a ∈ l -> completion (f a w) = Normal tt) ->
  (forall a w, a ∈ l -> J w -> J (state_after (f a w))) ->
  (forall w, J w -> I (state_after (f x w))) ->
  (forall a w, a ∈ l -> J w -> I w -> I (state_after (f a w))) ->
  forall w, J w -> I (state_after (forEach f l w)).
Proof.
  induction l as [|a l IH]; intros Hx Hnormal HJ Hx_I HI w Hw.
  { now apply elem_of_nil in Hx. }
  rewrite forEach_cons.
  pose proof (Hnormal a w ltac:(left)) as Ha.
  pose proof (HJ a w ltac:(left) Hw) as HJa.
  apply elem_of_cons in Hx as [->|Hx].
  - pose proof (Hx_I w Hw) as HIa.
    destruct (f a w) as [[[]|] w']; [|discriminate].
    unfold state_after in HJa, HIa. simpl in HJa, HIa.
    apply (forEach_preserves f (fun w => J w /\ I w)); [|now split].
    intros b w0 Hb [HJ0 HI0]. split.
    + apply HJ; [now right | assumption].
    + apply HI; [now right | assumption..].
  - destruct (f a w) as [[[]|] w']; [|discriminate].
    unfold state_after in HJa. simpl in HJa.
    apply IH; try assumption.
    + intros b w0 Hb. apply Hnormal. now right.
    + intros b w0 Hb. apply HJ. now right.
    + intros b w0 Hb. apply HI. now right.
Qed.

Lemma seq_state (a b : Stmt unit) w :
  completion (a w) = Normal tt ->
  (a ;; b) w = b (state_after (a w)).
Proof.
  unfold mbind, Stmt_bind, state_after, completion.
  destruct (a w) as [[[]|] w']; [reflexivity | discriminate].
Qed.

Lemma visit_forEach each n w :
  visit each n w = forEach each (videos_of n) w.
Proof.
  unfold visit, videos_of. destruct (is_video (elem n)); [|reflexivity].
  rewrite forEach_cons. now destruct (each (elem n) w) as [[[]|] w'].
Qed.

Lemma visit_node_run each n w :
  try_catch (visit each n) w
  = (Normal tt, state_after (forEach each (videos_of n) w)).
Proof. now rewrite try_catch_run, visit_forEach. Qed.

(** One step of [visit_all]. *)
Lemma visit_all_step each node w :
  (match node with
   | OtherNode => mret tt
   | ElementNode n => try_catch (visit each n)
   end) w
  = (Normal tt,
     match node with
     | OtherNode => w
     | ElementNode n => state_after (forEach each (videos_of n) w)
     end).
Proof.
  destruct node as [n|]; [|reflexivity].
  now rewrite try_catch_run, visit_forEach.
Qed.

Lemma visit_all_completes each nodes w :
  completion (visit_all each nodes w) = Normal tt.
Proof.
  apply forEach_completes. intros node w0 _. cbv beta; now rewrite visit_all_step.
Qed.

(** What [each] preserves on every video, [visit_all each] preserves. *)
Lemma visit_all_preserves each (I : World -> Prop) nodes :
  (forall n u w, ElementNode n ∈ nodes -> u ∈ videos_of n ->
                 I w -> I (state_after (each u w))) ->
  forall w, I w -> I (state_after (visit_all each nodes w)).
Proof.
  intros Heach. apply forEach_preserves. intros node w Hnode Hw.
  cbv beta; rewrite visit_all_step. unfold state_after at 1. simpl.
  destruct node as [n|]; [|exact Hw].
  apply forEach_preserves; [|exact Hw]. intros u w0 Hu. now apply (Heach n).
Qed.

(** An inserted node none of whose videos raises has its genuine videos
    enhanced, whatever the other nodes of the list do. *)
Lemma visit_all_enhances nodes n v :
  ElementNode n ∈ nodes ->
  (forall u, u ∈ videos_of n -> fault u = None) ->
  v ∈ videos_of n ->
  instanceof_HTMLVideoElement v = true ->
  forall w, eid v ∈ enhanced (state_after (visit_all createControls nodes w)).
Proof.
  intros Hn Hsound Hv Hgenuine w.
  apply (forEach_reaches _ (fun _ => True) (fun w => eid v ∈ enhanced w)
           nodes (ElementNode n)); try done.
  - intros node w0 _. cbv beta; now rewrite visit_all_step.
  - intros w0 _. cbv beta iota. rewrite visit_node_run.
    unfold state_after at 1. simpl.
    apply (forEach_reaches _ (fun _ => True) (fun w => eid v ∈ enhanced w)
             (videos_of n) v); try done.
    + intros u w1 Hu. apply createControls_completes. now apply Hsound.
    + intros w1 _. apply createControls_enhances; [assumption|]. now apply Hsound.
    + intros u w1 _ _. apply createControls_grows.
  - intros node w0 _ _ Hin. cbv beta; rewrite visit_all_step. unfold state_after at 1. simpl.
    destruct node as [n'|]; [|exact Hin].
    apply forEach_preserves; [|exact Hin]. intros u w1 _. apply createControls_grows.
Qed.

(** The step of [observer] for one mutation record. *)
Lemma observer_step_run mutation w :
  (visit_all createControls (addedNodes mutation);;
   visit_all cleanupVideo (removedNodes mutation)) w
  = (Normal tt,
     state_after (visit_all cleanupVideo (removedNodes mutation)
       (state_after (visit_all createControls (addedNodes mutation) w)))).
Proof.
  rewrite seq_state by apply visit_all_completes.
  pose proof (visit_all_completes cleanupVideo (removedNodes mutation)
                (state_after (visit_all createControls (addedNodes mutation) w))) as H.
  destruct (visit_all cleanupVideo _ _) as [c w']. simpl in H. now subst.
Qed.

Lemma observer_step_records_ok mutation w :
  records_ok w ->
  records_ok (state_after
    ((visit_all createControls (addedNodes mutation);;
      visit_all cleanupVideo (removedNodes mutation)) w)).
Proof.
  intros Hok. cbv beta; rewrite observer_step_run. unfold state_after at 1. simpl.
  apply visit_all_preserves;
    [intros; now apply cleanupVideo_records_ok|].
  apply visit_all_preserves; [|exact Hok].
  intros. now apply createControls_records_ok.
Qed.

(** A record that does not remove the video keeps it enhanced. *)
Lemma observer_step_keeps mutation k w :
  (forall r u, ElementNode r ∈ removedNodes mutation ->
               u ∈ videos_of r -> eid u <> k) ->
  records_ok w -> k ∈ enhanced w ->
  k ∈ enhanced (state_after
    ((visit_all createControls (addedNodes mutation);;
      visit_all cleanupVideo (removedNodes mutation)) w)).
Proof.
  intros Hkept Hok Hk. cbv beta; rewrite observer_step_run. unfold state_after at 1. simpl.
  apply (visit_all_preserves cleanupVideo
           (fun w => records_ok w /\ k ∈ enhanced w)).
  - intros r u w0 Hr Hu [Hok0 Hk0]. split.
    + now apply cleanupVideo_records_ok.
    + apply cleanupVideo_keeps; try assumption.
      intros ->. now apply (Hkept r u).
  - split.
    + apply visit_all_preserves; [|exact Hok].
      intros. now apply createControls_records_ok.
    + apply (visit_all_preserves createControls (fun w => k ∈ enhanced w));
        [|exact Hk].
      intros. now apply createControls_grows.
Qed.

(** C3 fails as stated: when a [div] holding two videos is inserted and
    enhancing the first raises, the [try] block around the node is left
    and the second video is not enhanced, though the callback returns.
    (Inserted as two nodes, or met by the initial pass, the second video
    is enhanced.) *)
Lemma sibling_under_same_node_skipped :
  observer [ {| addedNodes := [ElementNode inserted]; removedNodes := [] |} ]
           after_insertion
    = (Normal tt,
       state_after (createControls broken after_insertion)) /\
  WeakSet.has (eid sound)
    (enhanced (state_after
       (observer [ {| addedNodes := [ElementNode inserted]; removedNodes := [] |} ]
                 after_insertion))) = false /\
  WeakSet.has (eid sound) (enhanced (state_after (initialPass after_insertion)))
    = true /\
  WeakSet.has (eid sound_alone)
    (enhanced (state_after
       (observer [ {| addedNodes := [ElementNode (Element broken_alone []);
                                     ElementNode (Element sound_alone [])];
                      removedNodes := [] |} ]
                 after_two_insertions))) = true.
Proof. vm_compute. repeat split; reflexivity. Qed.

(** C3, amended.  The initial pass catches an exception per video: it
    returns, and every genuine video whose own enhancement does not raise
    is enhanced, whatever happens for the other videos.  The mutation
    watcher catches an exception per inserted node: the callback returns,
    and every genuine video of an inserted node none of whose videos
    raises is enhanced, whatever happens for the other nodes of the
    batch, provided the batch does not also remove that video. *)
Theorem batch_fault_isolation :
  (forall w v,
     v ∈ querySelectorAll_video (document w) ->
     instanceof_HTMLVideoElement v = true ->
     fault v = None ->
     completion (initialPass w) = Normal tt /\
     eid v ∈ enhanced (state_after (initialPass w))) /\
  (forall w mutations mutation n v,
     records_ok w ->
     mutation ∈ mutations ->
     ElementNode n ∈ addedNodes mutation ->
     (forall u, u ∈ videos_of n -> fault u = None) ->
     v ∈ videos_of n ->
     instanceof_HTMLVideoElement v = true ->
     (forall m r u, m ∈ mutations -> ElementNode r ∈ removedNodes m ->
                    u ∈ videos_of r -> eid u <> eid v) ->
     completion (observer mutations w) = Normal tt /\
     eid v ∈ enhanced (state_after (observer mutations w))).
Proof.
  split.
  - intros w v Hv Hgenuine Hsound. unfold initialPass. rewrite try_catch_run.
    split; [reflexivity|]. unfold state_after at 1. simpl.
    unfold mbind, Stmt_bind, gets.
    apply (forEach_reaches _ (fun _ => True) (fun w => eid v ∈ enhanced w)
             (querySelectorAll_video (document w)) v); try done.
    + intros u w0 _. cbv beta; now rewrite try_catch_run.
    + intros w0 _. cbv beta; rewrite try_catch_run. unfold state_after at 1. simpl.
      now apply createControls_enhances.
    + intros u w0 _ _ Hin. cbv beta; rewrite try_catch_run. unfold state_after at 1. simpl.
      now apply createControls_grows.
  - intros w mutations mutation n v Hok Hm Hn Hsound Hv Hgenuine Hkept.
    unfold observer. split.
    + apply forEach_completes. intros m w0 _. cbv beta; now rewrite observer_step_run.
    + apply (forEach_reaches _ records_ok (fun w => eid v ∈ enhanced w)
               mutations mutation); try assumption.
      * intros m w0 _. cbv beta; now rewrite observer_step_run.
      * intros m w0 _. cbv beta; apply observer_step_records_ok.
      * intros w0 Hok0. cbv beta; rewrite observer_step_run. unfold state_after at 1. simpl.
        apply (visit_all_preserves cleanupVideo
                 (fun w => records_ok w /\ eid v ∈ enhanced w)).
        -- intros r u w1 Hr Hu [Hok1 Hk1]. split.
           ++ now apply cleanupVideo_records_ok.
           ++ apply cleanupVideo_keeps; try assumption.
              intros Heq. now apply (Hkept mutation r u).
        -- split.
           ++ apply visit_all_preserves; [|exact Hok0].
              intros. now apply createControls_records_ok.
           ++ now apply (visit_all_enhances _ n).
      * intros m w0 Hm0 Hok0 Hin. cbv beta; apply observer_step_keeps; try assumption.
        intros r u Hr Hu. now apply (Hkept m r u).
Qed.

Lemma records_ok_page doc : records_ok (page doc).
Proof. intros k cl Hk. simpl in Hk. now rewrite lookup_empty in Hk. Qed.

Lemma batch_fault_isolation_witness :
  (completion (initialPass after_insertion) = Normal tt /\
   eid sound ∈ enhanced (state_after (initialPass after_insertion))) /\
  (completion
     (observer [ {| addedNodes := [ElementNode (Element broken_alone []);
                                   ElementNode (Element sound_alone [])];
                    removedNodes := [] |} ] after_two_insertions) = Normal tt /\
   eid sound_alone ∈ enhanced (state_after
     (observer [ {| addedNodes := [ElementNode (Element broken_alone []);
                                   ElementNode (Element sound_alone [])];
                    removedNodes := [] |} ] after_two_insertions))).
Proof.
  destruct batch_fault_isolation as [Hpass Hwatch]. split.
  - apply Hpass; [|reflexivity..].
    apply elem_of_cons. right. apply elem_of_cons. now left.
  - apply (Hwatch after_two_insertions _
             {| addedNodes := [ElementNode (Element broken_alone []);
                               ElementNode (Element sound_alone [])];
                removedNodes := [] |}
             (Element sound_alone []) sound_alone).
    + apply records_ok_page.
    + apply elem_of_cons. now left.
    + apply elem_of_cons. right. apply elem_of_cons. now left.
    + intros u Hu. apply list_elem_of_singleton in Hu. now subst.
    + apply elem_of_cons. now left.
    + reflexivity.
    + intros m r u Hm Hr. apply list_elem_of_singleton in Hm. subst m.
      now apply elem_of_nil in Hr.
Defined.
End Batches.
(* ===================================================================== *)
(** * The commands: what they need, what they leave alone, how they
      compose *)
(* ===================================================================== *)

Section Commands.
Local Open Scope float_scope.

Lemma getActiveVideo_none w :
  getActiveVideo w = None <-> querySelectorAll_video (document w) = [].
Proof.
  unfold getActiveVideo.
  destruct (querySelectorAll_video (document w)) as [|v [|v' l]].
  - tauto.
  - split; discriminate.
  - destruct (List.find _ _); split; discriminate.
Qed.

(** Every command is an assignment to the playback attributes of the
    active video, answered by [true]; without an active video it answers
    [false] and does nothing. *)
Lemma command_run w seconds amount c :
  c ∈ commands seconds amount ->
  match getActiveVideo w with
  | Some video =>
      exists f, c w = (Normal true, state_after (assign video f w))
  | None => c w = (Normal false, w)
  end.
Proof.
  intros Hc. unfold commands in Hc.
  repeat (apply elem_of_cons in Hc as [->|Hc]);
    [..|now apply elem_of_nil in Hc];
    unfold togglePlayPause, seekBackward, seekForward, increaseVolume,
      decreaseVolume, increaseSpeed, decreaseSpeed, resetSpeed;
    unfold mbind, Stmt_bind, gets;
    destruct (getActiveVideo w) as [video|]; try reflexivity;
    eexists; reflexivity.
Qed.

(** X1. Without a video element in the document every command, whatever
    its arguments, answers [false] and leaves the page as it is; with
    one, every command called with its default arguments answers
    [true]. *)
Theorem command_needs_a_video w seconds amount c :
  (c ∈ commands seconds amount ->
   querySelectorAll_video (document w) = [] -> c w = (Normal false, w)) /\
  (c ∈ commands None None ->
   querySelectorAll_video (document w) <> [] -> completion (c w) = Normal true).
Proof.
  pose proof (getActiveVideo_none w) as Hn. split; intros Hc.
  - pose proof (command_run w _ _ _ Hc) as H.
    destruct (getActiveVideo w) as [video|]; [|now intros _].
    intros He. apply Hn in He. discriminate.
  - pose proof (command_run w _ _ _ Hc) as H.
    destruct (getActiveVideo w) as [video|].
    + intros _. destruct H as (f & ->). reflexivity.
    + intros Hne. now destruct Hne; apply Hn.
Qed.

Lemma command_needs_a_video_witness :
  seekForward (Some 7) (page (Element (div_elem 0%nat "static") []))
    = (Normal false, page (Element (div_elem 0%nat "static") [])) /\
  completion (seekForward None one_reel) = Normal true.
Proof.
  split.
  - apply (command_needs_a_video _ (Some 7) None); [|reflexivity].
    unfold commands. apply list_elem_of_lookup. now exists 2%nat.
  - apply (command_needs_a_video _ None None); [|discriminate].
    unfold commands. apply list_elem_of_lookup. now exists 2%nat.
Defined.

(** ** What a command leaves alone *)

Lemma eid_assign_media f e : eid (assign_media f e) = eid e.
Proof. unfold assign_media. now destruct (kind e). Qed.

(** X2. A command assigns playback attributes of the active video and
    nothing else: the tracker, the listeners and every other element are
    as before, the videos of the document are the same elements in the
    same order, and the same video is still the active one. *)
Theorem command_touches_only_active_video w seconds amount c video :
  c ∈ commands seconds amount ->
  getActiveVideo w = Some video ->
  exists f,
    state_after (c w) = with_document (update_media (eid video) f (document w)) w /\
    enhanced (state_after (c w)) = enhanced w /\
    cleanupMap (state_after (c w)) = cleanupMap w /\
    listeners (state_after (c w)) = listeners w /\
    descendants (document (state_after (c w))) =
      map (upd (eid video) (assign_media f)) (descendants (document w)) /\
    map eid (querySelectorAll_video (document (state_after (c w)))) =
      map eid (querySelectorAll_video (document w)) /\
    getActiveVideo (state_after (c w)) = Some (assign_media f video).
Proof.
  intros Hc H. pose proof (command_run w _ _ _ Hc) as Hrun.
  rewrite H in Hrun. destruct Hrun as (f & ->). exists f.
  repeat split.
  - apply descendants_update_on_elem.
  - simpl. rewrite querySelectorAll_video_update_media, map_map.
    apply map_ext. intros e. unfold upd.
    destruct (Nat.eqb _ _); [apply eid_assign_media | reflexivity].
  - now apply getActiveVideo_assign.
Qed.

Lemma command_touches_only_active_video_witness :
  exists f,
    state_after (seekBackward None one_reel)
      = with_document (update_media 2%nat f (document one_reel)) one_reel /\
    getActiveVideo (state_after (seekBackward None one_reel))
      = Some (assign_media f reel).
Proof.
  assert (Hc : seekBackward None ∈ commands None None).
  { unfold commands. apply list_elem_of_lookup. now exists 1%nat. }
  destruct (command_touches_only_active_video one_reel None None _ reel Hc eq_refl)
    as (f & H1 & _ & _ & _ & _ & _ & H2).
  exists f. exact (conj H1 H2).
Defined.

(** ** Commands in sequence *)

Lemma resetSpeed_run w video :
  getActiveVideo w = Some video ->
  resetSpeed w = (Normal true, state_after (assign video (set_playbackRate (Some 1)) w)).
Proof.
  intros H. unfold resetSpeed, mbind, Stmt_bind, gets. now rewrite H.
Qed.

(** X4. The speed commands in sequence.  From the [i]-th rate of the
    list, a step up followed by a step down gives that rate back, except
    at the top (from 2 it gives 1.75); a step down followed by a step up
    gives it back, except at the bottom (from 0.25 it gives 0.5).
    [resetSpeed] sets the rate 1 whatever the rate was, so that the next
    step up gives 1.25 and the next step down 0.75. *)
Theorem speed_steps_compose w video :
  getActiveVideo w = Some video ->
  (forall i r,
     PLAYBACK_SPEEDS !! i = Some r ->
     playbackRate (media_of video) = Some r ->
     active_rate (state_after (decreaseSpeed (state_after (increaseSpeed w))))
       = PLAYBACK_SPEEDS !! Nat.min i 6 /\
     active_rate (state_after (increaseSpeed (state_after (decreaseSpeed w))))
       = PLAYBACK_SPEEDS !! Nat.max i 1) /\
  active_rate (state_after (resetSpeed w)) = Some 1 /\
  active_rate (state_after (increaseSpeed (state_after (resetSpeed w)))) = Some 1.25 /\
  active_rate (state_after (decreaseSpeed (state_after (resetSpeed w)))) = Some 0.75.
Proof.
  intros H. split.
  - intros i r Hi Hr.
    destruct (step_up _ _ _ H Hr) as (u & Hu & Ru & _).
    destruct (step_down _ _ _ H Hr) as (d & Hd & Rd & _).
    do 8 (destruct i as [|i];
      [ injection Hi as <-; vm_compute in Ru, Rd;
        destruct (step_down _ _ _ Hu Ru) as (ud & _ & Rud & ->);
        destruct (step_up _ _ _ Hd Rd) as (du & _ & Rdu & ->);
        rewrite Rud, Rdu; split; reflexivity|]).
    discriminate.
  - assert (H1 : getActiveVideo (state_after (resetSpeed w))
                 = Some (assign_media (set_playbackRate (Some 1)) video)).
    { rewrite (resetSpeed_run _ _ H), state_after_pair.
      now apply getActiveVideo_assign. }
    assert (R1 : playbackRate (media_of (assign_media (set_playbackRate (Some 1)) video))
                 = Some 1).
    { rewrite media_of_assign_media by (eapply getActiveVideo_is_video, H).
      reflexivity. }
    destruct (step_up _ _ _ H1 R1) as (u & _ & Ru & ->).
    destruct (step_down _ _ _ H1 R1) as (d & _ & Rd & ->).
    rewrite Ru, Rd. unfold active_rate. rewrite H1. cbn [mbind option_bind].
    rewrite R1. repeat split; reflexivity.
Qed.

Lemma speed_steps_compose_witness :
  active_rate (state_after (decreaseSpeed (state_after (increaseSpeed
     (page_of (with_rate (Some 2) (media_at 25 100))))))) = Some 1.75 /\
  active_rate (state_after (decreaseSpeed (state_after (increaseSpeed one_reel))))
    = Some 1 /\
  active_rate (state_after (increaseSpeed (state_after (resetSpeed
     (page_of (with_rate (Some 3) (media_at 25 100))))))) = Some 1.25.
Proof.
  pose proof (speed_steps_compose
                (page_of (with_rate (Some 2) (media_at 25 100)))
                (reel_of (with_rate (Some 2) (media_at 25 100))) eq_refl) as [Htop _].
  pose proof (speed_steps_compose one_reel reel eq_refl) as [Hmid _].
  pose proof (speed_steps_compose
                (page_of (with_rate (Some 3) (media_at 25 100)))
                (reel_of (with_rate (Some 3) (media_at 25 100))) eq_refl)
    as (_ & _ & Hreset & _).
  destruct (Htop 7%nat 2 eq_refl eq_refl) as [Ht _].
  destruct (Hmid 3%nat 1 eq_refl eq_refl) as [Hm _].
  exact (conj Ht (conj Hm Hreset)).
Defined.

End Commands.
(* ===================================================================== *)
(** * Keyboard shortcuts and command messages *)
(* ===================================================================== *)

Section Shortcuts.
Local Open Scope float_scope.

(** The keys of the [switch]. *)
Lemma key_command_bound k :
  is_Some (key_command k) <->
  k ∈ ["k"; "K"; "ArrowLeft"; "ArrowRight"; "ArrowUp"; "ArrowDown";
       ","; "."; "0"; "s"; "S"].
Proof.
  split.
  - unfold key_command. intros H.
    repeat match type of H with
    | context [String.eqb k ?s] =>
        destruct (String.eqb_spec k s) as [Hk|_];
          [rewrite Hk; apply list_elem_of_In; simpl;
           repeat (first [left; reflexivity | right])|]
    end.
    simpl in H. now destruct H.
  - intros H. repeat (apply elem_of_cons in H as [->|H]; [now eexists|]).
    now apply elem_of_nil in H.
Qed.

(** The commands the keys run, with the arguments [handleKeyDown]
    passes. *)
Lemma key_command_in k c :
  key_command k = Some c -> c ∈ commands (Some 5) (Some 0.1).
Proof.
  unfold key_command, commands. intros H.
  repeat match type of H with
  | context [String.eqb k ?s] => destruct (String.eqb k s)
  end; simpl in H; try discriminate; injection H as <-;
  apply list_elem_of_In; simpl; repeat (first [left; reflexivity | right]).
Qed.

(** X5. [handleKeyDown] takes a key event from the page exactly when it
    acted on it.  For an event that arrives unprevented: it leaves with
    [preventDefault] and [stopPropagation] called if and only if Alt is
    held, the target is neither an INPUT nor a TEXTAREA, the key is one of
    the bound keys and the document has a video element; in every other
    case the event and the page are left exactly as they were. *)
Theorem keydown_taken_iff_acted event w :
  defaultPrevented event = false ->
  exists event',
    completion (handleKeyDown event w) = Normal event' /\
    (defaultPrevented event' = true <->
       target_tagName event <> "INPUT" /\ target_tagName event <> "TEXTAREA" /\
       altKey event = true /\
       key event ∈ ["k"; "K"; "ArrowLeft"; "ArrowRight"; "ArrowUp"; "ArrowDown";
                    ","; "."; "0"; "s"; "S"] /\
       querySelectorAll_video (document w) <> []) /\
    (defaultPrevented event' = true -> propagationStopped event' = true) /\
    (defaultPrevented event' = false ->
       event' = event /\ state_after (handleKeyDown event w) = w).
Proof.
  intros Hev. unfold handleKeyDown.
  destruct (String.eqb_spec (target_tagName event) "INPUT") as [Hi|Hi].
  { exists event. simpl. repeat split; try congruence.
    intros (? & _); congruence. }
  destruct (String.eqb_spec (target_tagName event) "TEXTAREA") as [Ht|Ht].
  { exists event. simpl. repeat split; try congruence.
    intros (_ & ? & _); congruence. }
  destruct (altKey event) eqn:Ha.
  2:{ exists event. simpl. repeat split; try congruence.
      intros (_ & _ & ? & _); congruence. }
  simpl. unfold mbind, Stmt_bind.
  pose proof (key_command_bound (key event)) as Hb.
  destruct (key_command (key event)) as [c|] eqn:Hk.
  - pose proof (command_run w _ _ _ (key_command_in _ _ Hk)) as Hrun.
    pose proof (getActiveVideo_none w) as Hn.
    destruct (getActiveVideo w) as [video|].
    + destruct Hrun as (f & ->). exists (prevent_and_stop event). simpl.
      repeat split; try congruence.
      * apply Hb. now eexists.
      * intros He. apply Hn in He. discriminate.
    + rewrite Hrun. exists event. simpl. repeat split; try congruence.
      intros (_ & _ & _ & _ & Hne). destruct Hne. now apply Hn.
  - exists event. simpl. repeat split; try congruence.
    intros (_ & _ & _ & Hin & _). apply Hb in Hin. now destruct Hin.
Qed.

Lemma keydown_taken_iff_acted_witness :
  exists event',
    completion (handleKeyDown
      {| target_tagName := "DIV"; key := "k"; altKey := true;
         defaultPrevented := false; propagationStopped := false |} one_reel)
      = Normal event' /\
    defaultPrevented event' = true /\ propagationStopped event' = true.
Proof.
  destruct (keydown_taken_iff_acted
              {| target_tagName := "DIV"; key := "k"; altKey := true;
                 defaultPrevented := false; propagationStopped := false |}
              one_reel eq_refl)
    as (event' & Hrun & Hiff & Hstop & _).
  exists event'. split; [exact Hrun|].
  assert (Hp : defaultPrevented event' = true).
  { apply Hiff. repeat split; try discriminate.
    apply list_elem_of_In. simpl. repeat (first [left; reflexivity | right]). }
  split; [exact Hp | exact (Hstop Hp)].
Defined.

End Shortcuts.

Section Messages.
Local Open Scope float_scope.

Lemma own_property_absent {V} name (obj : list (string * V)) :
  name ∉ map fst obj -> own_property name obj = None.
Proof.
  unfold own_property. induction obj as [|[k v] obj IH]; [reflexivity|].
  intros Hn. simpl in *. destruct (String.eqb_spec k name) as [->|_].
  - destruct Hn. left.
  - apply IH. intros Hin. apply Hn. now right.
Qed.

Lemma commandHandlers_own name handler :
  (name, handler) ∈ commandHandlers ->
  own_property name commandHandlers = Some handler /\
  name <> "" /\ handler ∈ commands None None.
Proof.
  unfold commandHandlers. intros H.
  repeat (apply elem_of_cons in H as [[= -> ->]|H];
          [split; [reflexivity|]; split; [discriminate|];
           apply list_elem_of_In; simpl; repeat (first [left; reflexivity | right])|]).
  now apply elem_of_nil in H.
Qed.

(** X6. A message that names one of the nine commands is answered with
    [success], which is [true] exactly when the document has a video
    element; the command runs with its default arguments, and when the
    answer is [false] the page is left as it was.  The listener returns
    [true]. *)
Theorem command_message_answered name handler w :
  (name, handler) ∈ commandHandlers ->
  exists result,
    onMessage {| action := "command"; command := Some name |} w
      = (Normal (sendResponse (success result), true), state_after (handler w)) /\
    handler ∈ commands None None /\
    (result = true <-> querySelectorAll_video (document w) <> []) /\
    (result = false -> state_after (handler w) = w).
Proof.
  intros H. destruct (commandHandlers_own _ _ H) as (Hown & Hne & Hc).
  unfold onMessage, is_command. cbn [action command].
  rewrite String.eqb_refl. apply String.eqb_neq in Hne. rewrite Hne, Hown.
  unfold mbind, Stmt_bind.
  pose proof (command_run w _ _ _ Hc) as Hrun.
  pose proof (getActiveVideo_none w) as Hn.
  destruct (getActiveVideo w) as [video|].
  - destruct Hrun as (f & ->). exists true.
    split; [reflexivity|]. split; [exact Hc|]. split; [|discriminate].
    split; [|reflexivity]. intros _ He. apply Hn in He. discriminate.
  - rewrite Hrun. exists false.
    split; [reflexivity|]. split; [exact Hc|]. split; [|reflexivity].
    split; [discriminate|]. intros Hne'. destruct Hne'. now apply Hn.
Qed.

Lemma command_message_answered_witness :
  exists result,
    onMessage {| action := "command"; command := Some "seek-forward" |} one_reel
      = (Normal (sendResponse (success result), true),
         state_after (seekForward None one_reel)).
Proof.
  assert (H : ("seek-forward", seekForward None) ∈ commandHandlers).
  { unfold commandHandlers. apply list_elem_of_lookup. now exists 2%nat. }
  destruct (command_message_answered _ _ one_reel H) as (result & Hrun & _).
  exists result. exact Hrun.
Defined.

(** X7. A command message whose name is none of the nine commands, and
    no property of [Object.prototype], is answered with the
    unknown-command failure; a message that is not a command message (a
    different action, or a missing or empty command) gets no answer.  In
    both cases the page is left as it was and the listener returns
    [true]. *)
Theorem other_message_changes_nothing message w :
  (forall name, is_command message = Some name ->
     (name ∉ map fst commandHandlers) /\ (name ∉ Object_prototype)) ->
  onMessage message w =
    (Normal (match is_command message with
             | Some _ => sendResponse unknown_command
             | None => no_response
             end, true), w) /\
  (is_command message = None <->
     action message <> "command" \/ command message = None \/
     command message = Some "").
Proof.
  intros Hname. split.
  - unfold onMessage. destruct (is_command message) as [name|] eqn:Hc;
      [|reflexivity].
    destruct (Hname _ eq_refl) as [Hown Hproto].
    rewrite (own_property_absent _ _ Hown).
    rewrite bool_decide_eq_false_2 by exact Hproto. reflexivity.
  - unfold is_command.
    destruct (String.eqb_spec (action message) "command") as [Ha|Ha].
    + destruct (command message) as [n|].
      * destruct (String.eqb_spec n "") as [->|Hn].
        -- split; [now intros _; right; right | reflexivity].
        -- split; [discriminate|]. intros [?|[?|?]]; congruence.
      * split; [now intros _; right; left | reflexivity].
    + split; [now intros _; left | reflexivity].
Qed.

Lemma other_message_changes_nothing_witness :
  onMessage {| action := "command"; command := Some "rewind" |} one_reel
    = (Normal (sendResponse unknown_command, true), one_reel) /\
  onMessage {| action := "ping"; command := Some "play-pause" |} one_reel
    = (Normal (no_response, true), one_reel).
Proof.
  split.
  - apply (other_message_changes_nothing
             {| action := "command"; command := Some "rewind" |} one_reel).
    intros name [= <-]. split; intros H;
      repeat (apply elem_of_cons in H as [H|H]; [discriminate|]);
      now apply elem_of_nil in H.
  - apply (other_message_changes_nothing
             {| action := "ping"; command := Some "play-pause" |} one_reel).
    intros name [=].
Defined.

(** X8. A command message whose name is a property of
    [Object.prototype] is never answered as an unknown command, and it
    leaves the page as it was: the lookup in [commandHandlers] finds the
    inherited property and the listener calls it.  For [constructor],
    [isPrototypeOf] and [toString] the call returns, and what it returns
    is sent as [success] (a new object, [false], the string
    [[object Undefined]]); for the nine other names the call raises, so
    that the listener sends no response and returns nothing. *)
Theorem inherited_name_not_unknown name w :
  name ∈ Object_prototype ->
  state_after (onMessage {| action := "command"; command := Some name |} w) = w /\
  completion (onMessage {| action := "command"; command := Some name |} w)
    <> Normal (sendResponse unknown_command, true) /\
  completion (onMessage {| action := "command"; command := Some name |} w)
    = (if String.eqb name "constructor"
       then Normal (sendResponse (success_value new_object), true)
       else if String.eqb name "isPrototypeOf"
       then Normal (sendResponse (success false), true)
       else if String.eqb name "toString"
       then Normal (sendResponse
                      (success_value (string_value "[object Undefined]")), true)
       else Throw).
Proof.
  unfold Object_prototype. intros H.
  repeat (apply elem_of_cons in H as [->|H];
          [split; [reflexivity|]; split; [discriminate | reflexivity]|]).
  now apply elem_of_nil in H.
Qed.

Lemma inherited_name_not_unknown_witness :
  completion (onMessage {| action := "command"; command := Some "toString" |}
                one_reel)
    = Normal (sendResponse (success_value (string_value "[object Undefined]")), true) /\
  completion (onMessage {| action := "command"; command := Some "valueOf" |}
                one_reel) = Throw.
Proof.
  split.
  - apply (inherited_name_not_unknown "toString" one_reel).
    unfold Object_prototype. apply list_elem_of_lookup. now exists 8%nat.
  - apply (inherited_name_not_unknown "valueOf" one_reel).
    unfold Object_prototype. apply list_elem_of_lookup. now exists 9%nat.
Defined.

End Messages.
(* ===================================================================== *)
(** * Attach and detach: repetition, and what they leave alone *)
(* ===================================================================== *)

Section AttachDetach.
Local Open Scope float_scope.

(** ** Detaching twice *)

(** After [cleanupVideo] the video has no teardown record. *)
Lemma cleanupVideo_unrecords video w :
  records_ok w ->
  cleanupMap (state_after (cleanupVideo video w)) !! eid video = None.
Proof.
  intros Hok. destruct (cleanupMap w !! eid video) as [cl|] eqn:Hm.
  - rewrite (cleanupVideo_recorded _ _ _ Hm). unfold state_after. simpl.
    destruct (Hok _ _ Hm) as [-> _]. apply lookup_delete_eq.
  - now rewrite (cleanupVideo_unrecorded _ _ Hm).
Qed.

(** A video that had a teardown record leaves the enhancement set. *)
Lemma cleanupVideo_unenhances video w :
  records_ok w ->
  is_Some (cleanupMap w !! eid video) ->
  eid video ∉ enhanced (state_after (cleanupVideo video w)).
Proof.
  intros Hok [cl Hm]. rewrite (cleanupVideo_recorded _ _ _ Hm).
  unfold state_after. simpl. destruct (Hok _ _ Hm) as [-> _].
  intros Hin. apply elem_of_difference in Hin as [_ Hin].
  apply Hin. now apply elem_of_singleton.
Qed.

(** X9. [cleanupVideo] can be repeated: after one call the video has no
    teardown record, and a second call changes nothing; on a video
    without a record the first call already changes nothing.  A video
    that had a record is outside the enhancement set afterwards. *)
Theorem cleanupVideo_twice video w :
  records_ok w ->
  cleanupMap (state_after (cleanupVideo video w)) !! eid video = None /\
  cleanupVideo video (state_after (cleanupVideo video w))
    = (Normal tt, state_after (cleanupVideo video w)) /\
  (cleanupMap w !! eid video = None -> cleanupVideo video w = (Normal tt, w)) /\
  (is_Some (cleanupMap w !! eid video) ->
   eid video ∉ enhanced (state_after (cleanupVideo video w))).
Proof.
  intros Hok. pose proof (cleanupVideo_unrecords video w Hok) as Hnone.
  split; [exact Hnone|]. split; [now apply cleanupVideo_unrecorded|].
  split; [apply cleanupVideo_unrecorded|]. now apply cleanupVideo_unenhances.
Qed.

Lemma cleanupVideo_twice_witness :
  cleanupMap (attached one_reel reel) !! eid reel = Some (teardown one_reel reel) /\
  cleanupMap (state_after (cleanupVideo reel (attached one_reel reel))) !! eid reel
    = None /\
  cleanupVideo reel (state_after (cleanupVideo reel (attached one_reel reel)))
    = (Normal tt, state_after (cleanupVideo reel (attached one_reel reel))).
Proof.
  assert (Hok : records_ok (attached one_reel reel)).
  { change (attached one_reel reel)
      with (state_after (createControls reel one_reel)).
    apply createControls_records_ok, records_ok_page. }
  destruct (cleanupVideo_twice reel _ Hok) as (H1 & H2 & _).
  split; [reflexivity|]. exact (conj H1 H2).
Defined.

(** ** A raise of [addEventListener] *)

(** The page after [addEventListener] raised on the video: the listeners
    of the container and the slider are registered, nothing else was
    done. *)
Lemma createControls_listen_fault_state w video :
  constructs w video = true ->
  fault video = Some RaisesOnListen ->
  createControls video w =
    (Throw,
     with_listeners
       (add_listener (registration (S (nextRef w)) "click" stopProp (nextRef w) true)
         (add_listener (registration (nextRef w) "mousedown" stopProp (nextRef w) true)
           (add_listener (registration (nextRef w) "click" stopProp (nextRef w) true)
              (listeners w))))
       (with_nextRef (S (S (nextRef w))) w)).
Proof.
  intros Hc Hf. destruct (constructs_true _ _ Hc) as (Hv & He & Hl & Hn).
  unfold createControls. rewrite Hv. simpl.
  unfold mbind, Stmt_bind, gets, WeakSet.has.
  rewrite bool_decide_eq_false_2 by assumption.
  rewrite (findAttachmentParent_run _ _ Hl).
  unfold found_linked, existing_container in Hn. unfold mbind in Hn.
  rewrite Hn. unfold createElement, addEventListener. simpl.
  rewrite Hf. simpl. reflexivity.
Qed.

(** ** What an attach leaves alone *)

Lemma filter_map_fixed {A} (p : A -> bool) (g : A -> A) l :
  (forall a, p (g a) = p a) ->
  (forall a, p a = true -> g a = a) ->
  List.filter p (map g l) = List.filter p l.
Proof.
  intros Hp Hg. induction l as [|a l IH]; [reflexivity|].
  simpl. rewrite Hp. destruct (p a) eqn:E; [|exact IH].
  now rewrite (Hg _ E), IH.
Qed.

Lemma videos_update_slider s f n :
  querySelectorAll_video (update_slider s f n) = querySelectorAll_video n.
Proof.
  unfold querySelectorAll_video, update_slider.
  rewrite descendants_update_on_elem. apply filter_map_fixed.
  - intros e. unfold upd. destruct (Nat.eqb _ _); [|reflexivity].
    unfold is_video, assign_slider.
    destruct (kind e) eqn:E; simpl; rewrite ?E; reflexivity.
  - intros e He. unfold upd. destruct (Nat.eqb _ _); [|reflexivity].
    unfold is_video in He. unfold assign_slider.
    destruct (kind e); [reflexivity | discriminate | reflexivity].
Qed.

Lemma videos_appendChild p K n :
  is_video (elem K) = false ->
  querySelectorAll_video K = [] ->
  querySelectorAll_video (appendChild p K n) = querySelectorAll_video n.
Proof.
  intros HK HKs. unfold querySelectorAll_video, appendChild.
  induction n as [e cs IH] using Node_ind'.
  assert (Hcs : List.filter is_video
                  (flat_map (fun c => elem c :: descendants c)
                     (map (update_node p (append K)) cs))
                = List.filter is_video
                    (flat_map (fun c => elem c :: descendants c) cs)).
  { induction IH as [|c cs Hc _ IHcs]; [reflexivity|].
    cbn [map flat_map]. rewrite !List.filter_app, IHcs. f_equal.
    cbn [List.filter]. now rewrite elem_update_append, Hc. }
  cbn [update_node]. destruct (Nat.eqb (eid e) p).
  - match goal with
    | |- context [append K (Element e ?x)] =>
        change (append K (Element e x)) with (Element e (x ++ [K]))
    end.
    cbn [descendants].
    rewrite flat_map_app, List.filter_app, Hcs.
    cbn [flat_map]. rewrite app_nil_r. cbn [List.filter]. rewrite HK.
    unfold querySelectorAll_video in HKs. rewrite HKs. apply app_nil_r.
  - cbn [descendants]. exact Hcs.
Qed.

Lemma find_same_test {A} (p q : A -> bool) l :
  (forall a, p a = q a) -> List.find p l = List.find q l.
Proof.
  intros H. induction l as [|a l IH]; [reflexivity|].
  simpl. now rewrite H, IH.
Qed.

(** The videos and the viewport after a call of [createControls]. *)
Lemma createControls_frame video w :
  querySelectorAll_video (document (state_after (createControls video w)))
    = querySelectorAll_video (document w) /\
  innerWidth (state_after (createControls video w)) = innerWidth w /\
  innerHeight (state_after (createControls video w)) = innerHeight w.
Proof.
  destruct (instanceof_HTMLVideoElement video) eqn:Hv.
  2:{ now rewrite (createControls_not_video _ _ Hv). }
  destruct (decide (eid video ∈ enhanced w)) as [He|He].
  { now rewrite (createControls_enhanced _ _ He). }
  destruct (decide (fault video = Some RaisesOnLayout)) as [Hl|Hl].
  { now rewrite (createControls_layout_fault _ _ Hv He Hl). }
  destruct (found_linked w video) eqn:Hn.
  { now rewrite (createControls_linked _ _ Hv He Hl Hn). }
  assert (Hc : constructs w video = true).
  { unfold constructs, WeakSet.has. rewrite Hv, Hn.
    now rewrite !bool_decide_eq_false_2 by assumption. }
  destruct (fault video) as [[]|] eqn:Hf.
  - now contradiction Hl.
  - now rewrite (createControls_listen_fault_state _ _ Hc Hf).
  - assert (Hl' : fault video <> Some RaisesOnLayout) by (rewrite Hf; discriminate).
    unfold createControls. rewrite Hv. simpl.
    unfold mbind, Stmt_bind, gets, WeakSet.has.
    rewrite bool_decide_eq_false_2 by assumption.
    rewrite (findAttachmentParent_run _ _ Hl').
    unfold found_linked, existing_container in Hn. unfold mbind in Hn.
    rewrite Hn. unfold createElement, addEventListener, updateProgress.
    unfold mbind, Stmt_bind, gets, modify. simpl.
    rewrite Hf. simpl.
    destruct (negb (JS.isNaN (duration (media_of video)))); simpl;
      rewrite ?videos_update_slider, !videos_appendChild by reflexivity;
      now repeat split.
Qed.

(** X11. [createControls] leaves every video as it is: whatever the call
    does, the video elements of the document, with their playback
    attributes and layout, are the same afterwards, and so is the active
    video. *)
Theorem attach_leaves_videos video w :
  querySelectorAll_video (document (state_after (createControls video w)))
    = querySelectorAll_video (document w) /\
  getActiveVideo (state_after (createControls video w)) = getActiveVideo w.
Proof.
  destruct (createControls_frame video w) as (Hvideos & Hwidth & Hheight).
  split; [exact Hvideos|].
  unfold getActiveVideo. rewrite Hvideos.
  destruct (querySelectorAll_video (document w)) as [|v0 [|v1 l]]; try reflexivity.
  assert (Htest : forall u,
    in_view_and_large (state_after (createControls video w)) u
    = in_view_and_large w u).
  { intros u. unfold in_view_and_large, isInViewport. now rewrite Hwidth, Hheight. }
  rewrite (find_same_test _ _ _ Htest). reflexivity.
Qed.

End AttachDetach.
(* ===================================================================== *)
(** * Removal batches, the forced pass, and the tracker over any run *)
(* ===================================================================== *)

Section Runs.
Local Open Scope float_scope.

(** ** Removed videos are torn down *)

Lemma cleanupVideo_shrinks_records video w k :
  cleanupMap w !! k = None ->
  cleanupMap (state_after (cleanupVideo video w)) !! k = None.
Proof.
  intros Hk. destruct (cleanupMap w !! eid video) as [cl|] eqn:Hm.
  - rewrite (cleanupVideo_recorded _ _ _ Hm). unfold state_after. simpl.
    rewrite lookup_delete_None. now right.
  - now rewrite (cleanupVideo_unrecorded _ _ Hm).
Qed.

Lemma cleanupVideo_shrinks_enhanced video w k :
  k ∉ enhanced w -> k ∉ enhanced (state_after (cleanupVideo video w)).
Proof.
  intros Hk. destruct (cleanupMap w !! eid video) as [cl|] eqn:Hm.
  - rewrite (cleanupVideo_recorded _ _ _ Hm). unfold state_after. simpl.
    intros Hin. apply elem_of_difference in Hin as [Hin _]. now apply Hk.
  - now rewrite (cleanupVideo_unrecorded _ _ Hm).
Qed.

Lemma cleanupVideo_all_recorded video w :
  all_recorded w -> all_recorded (state_after (cleanupVideo video w)).
Proof.
  intros Hall. destruct (cleanupMap w !! eid video) as [cl|] eqn:Hm.
  - rewrite (cleanupVideo_recorded _ _ _ Hm). unfold state_after. simpl.
    intros k Hk. simpl in *. apply elem_of_difference in Hk as [Hk Hne].
    rewrite lookup_delete_ne; [now apply Hall|].
    intros Heq. apply Hne. rewrite <- Heq. now apply elem_of_singleton.
  - now rewrite (cleanupVideo_unrecorded _ _ Hm).
Qed.

(** What the removal of one video establishes, the visit of a list of
    removed nodes that holds it establishes. *)
Lemma visit_all_cleanup_reaches (J I : World -> Prop) nodes r v :
  ElementNode r ∈ nodes ->
  v ∈ videos_of r ->
  (forall u w, J w -> J (state_after (cleanupVideo u w))) ->
  (forall w, J w -> I (state_after (cleanupVideo v w))) ->
  (forall u w, J w -> I w -> I (state_after (cleanupVideo u w))) ->
  forall w, J w -> I (state_after (visit_all cleanupVideo nodes w)).
Proof.
  intros Hr Hv HJ Hreach HI.
  assert (HJs : forall l w, J w -> J (state_after (forEach cleanupVideo l w))).
  { intros l. apply forEach_preserves. intros u w _. apply HJ. }
  apply (forEach_reaches _ J I nodes (ElementNode r)); try done.
  - intros node w _. cbv beta; now rewrite visit_all_step.
  - intros node w _ Hw. cbv beta; rewrite visit_all_step.
    unfold state_after at 1. simpl. destruct node; [now apply HJs | exact Hw].
  - intros w Hw. cbv beta iota. rewrite visit_node_run.
    unfold state_after at 1. simpl.
    apply (forEach_reaches _ J I (videos_of r) v); try done.
    + intros u w1 _. apply cleanupVideo_completes.
    + intros u w1 _. apply HJ.
    + intros u w1 _. apply HI.
  - intros node w _ Hw Hin. cbv beta; rewrite visit_all_step.
    unfold state_after at 1. simpl. destruct node as [n|]; [|exact Hin].
    revert Hw Hin. generalize (videos_of n) w. clear -HJ HI.
    induction l as [|u l IH]; intros w Hw Hin; [exact Hin|].
    rewrite forEach_cons.
    pose proof (cleanupVideo_completes u w) as Hc.
    pose proof (HJ u w Hw) as HJ'. pose proof (HI u w Hw Hin) as HI'.
    destruct (cleanupVideo u w) as [[[]|] w']; simpl in *; try discriminate.
    now apply IH.
Qed.

Lemma forEach_app {A} (f : A -> Stmt unit) l1 l2 w :
  (forall a w, a ∈ l1 -> completion (f a w) = Normal tt) ->
  forEach f (l1 ++ l2) w = forEach f l2 (state_after (forEach f l1 w)).
Proof.
  revert w. induction l1 as [|a l1 IH]; intros w Hc; [reflexivity|].
  cbn [app]. rewrite !forEach_cons.
  pose proof (Hc a w ltac:(left)) as Ha.
  destruct (f a w) as [[[]|] w']; simpl in Ha; try discriminate.
  apply IH. intros b w0 Hb. apply Hc. now right.
Qed.

Lemma observer_step_completes mutation w :
  completion ((visit_all createControls (addedNodes mutation);;
               visit_all cleanupVideo (removedNodes mutation)) w) = Normal tt.
Proof. now rewrite observer_step_run. Qed.

(** X12. The mutation watcher tears down what a batch removes.  A video
    under a node that the last record of a batch removes has no teardown
    record when the callback returns, even when the same batch had added
    it.  In a batch that only removes nodes, every removed video, at any
    place of the batch, ends without a record and outside the enhancement
    set, provided every enhanced video had a record before. *)
Theorem removal_tears_down w r v :
  records_ok w ->
  v ∈ videos_of r ->
  (forall mutations mutation,
     ElementNode r ∈ removedNodes mutation ->
     completion (observer (mutations ++ [mutation]) w) = Normal tt /\
     cleanupMap (state_after (observer (mutations ++ [mutation]) w)) !! eid v = None) /\
  (forall mutations mutation,
     all_recorded w ->
     (forall m, m ∈ mutations -> addedNodes m = []) ->
     mutation ∈ mutations ->
     ElementNode r ∈ removedNodes mutation ->
     cleanupMap (state_after (observer mutations w)) !! eid v = None /\
     (eid v ∉ enhanced (state_after (observer mutations w)))).
Proof.
  intros Hok Hv. split.
  - intros mutations mutation Hr. unfold observer.
    rewrite forEach_app by (intros; apply observer_step_completes).
    rewrite forEach_cons, observer_step_run. cbn [forEach]. split; [reflexivity|].
    unfold mret, Stmt_ret. rewrite state_after_pair.
    apply (visit_all_cleanup_reaches records_ok
             (fun w => cleanupMap w !! eid v = None) _ r v); try assumption.
    + intros. now apply cleanupVideo_records_ok.
    + intros. now apply cleanupVideo_unrecords.
    + intros. now apply cleanupVideo_shrinks_records.
    + apply visit_all_preserves;
        [intros; now apply createControls_records_ok|].
      apply forEach_preserves; [|exact Hok].
      intros m w0 _ Hw0. now apply observer_step_records_ok.
  - intros mutations mutation Hall Honly Hm Hr. unfold observer.
    apply (forEach_reaches _ (fun w => records_ok w /\ all_recorded w)
             (fun w => cleanupMap w !! eid v = None /\ (eid v ∉ enhanced w))
             mutations mutation); try done.
    + intros. apply observer_step_completes.
    + intros m w0 Hin [Hk Ha]. split; [now apply observer_step_records_ok|].
      cbv beta. rewrite observer_step_run, (Honly _ Hin), state_after_pair.
      apply visit_all_preserves; [|exact Ha].
      intros. now apply cleanupVideo_all_recorded.
    + intros w0 [Hk Ha]. cbv beta.
      rewrite observer_step_run, (Honly _ Hm), state_after_pair.
      apply (visit_all_cleanup_reaches
               (fun w => records_ok w /\ all_recorded w)
               (fun w => cleanupMap w !! eid v = None /\ (eid v ∉ enhanced w))
               _ r v); try assumption; try (split; assumption).
      * intros u w1 [? ?]. split;
          [now apply cleanupVideo_records_ok | now apply cleanupVideo_all_recorded].
      * intros w1 [Hk1 Ha1]. split; [now apply cleanupVideo_unrecords|].
        destruct (cleanupMap w1 !! eid v) as [cl|] eqn:Hrec.
        -- apply cleanupVideo_unenhances; [exact Hk1 | now rewrite Hrec].
        -- rewrite (cleanupVideo_unrecorded _ _ Hrec), state_after_pair.
           intros Hin. apply Ha1 in Hin. rewrite Hrec in Hin.
           now destruct Hin.
      * intros u w1 _ [? ?]. split;
          [now apply cleanupVideo_shrinks_records
          | now apply cleanupVideo_shrinks_enhanced].
    + intros m w0 Hin _ [Hn He]. cbv beta.
      rewrite observer_step_run, (Honly _ Hin), state_after_pair.
      apply visit_all_preserves; [|split; assumption].
      intros n u w1 _ _ [? ?]. split;
        [now apply cleanupVideo_shrinks_records
        | now apply cleanupVideo_shrinks_enhanced].
Qed.

Lemma all_recorded_attached :
  all_recorded (attached one_reel reel).
Proof.
  intros k Hk. simpl in Hk. apply elem_of_union in Hk as [Hk|Hk].
  - apply elem_of_singleton in Hk as ->. now eexists.
  - now apply elem_of_empty in Hk.
Qed.

Lemma removal_tears_down_witness :
  cleanupMap (attached one_reel reel) !! eid reel = Some (teardown one_reel reel) /\
  cleanupMap (state_after
    (observer [ {| addedNodes := [];
                   removedNodes := [ElementNode (Element reel [])] |} ]
              (attached one_reel reel))) !! eid reel = None /\
  (eid reel ∉ enhanced (state_after
    (observer [ {| addedNodes := [];
                   removedNodes := [ElementNode (Element reel [])] |} ]
              (attached one_reel reel)))).
Proof.
  assert (Hok : records_ok (attached one_reel reel)).
  { change (attached one_reel reel)
      with (state_after (createControls reel one_reel)).
    apply createControls_records_ok, records_ok_page. }
  assert (Hv : reel ∈ videos_of (Element reel [])) by (vm_compute; left).
  destruct (removal_tears_down _ (Element reel []) reel Hok Hv) as [_ Honly].
  split; [reflexivity|].
  apply (Honly _ {| addedNodes := [];
                    removedNodes := [ElementNode (Element reel [])] |}).
  - exact all_recorded_attached.
  - intros m Hm. apply list_elem_of_singleton in Hm as ->. reflexivity.
  - left.
  - left.
Defined.

(** ** The forced pass of the debug interface *)

Lemma forEach_try_catch {A} (f : A -> Stmt unit) l :
  (forall a w, a ∈ l -> completion (f a w) = Normal tt) ->
  forall w, forEach (fun a => try_catch (f a)) l w = forEach f l w.
Proof.
  induction l as [|a l IH]; intros Hc w; [reflexivity|].
  rewrite !forEach_cons, try_catch_run.
  pose proof (Hc a w ltac:(left)) as Ha.
  destruct (f a w) as [[[]|] w']; simpl in Ha; try discriminate.
  unfold state_after. simpl. apply IH. intros b w0 Hb. apply Hc. now right.
Qed.

(** [createControls] puts at most its own video in the enhancement
    set. *)
Lemma createControls_adds_own video w k :
  k ∈ enhanced (state_after (createControls video w)) ->
  k ∈ enhanced w \/ k = eid video.
Proof.
  destruct (createControls_outcome video w)
    as [H|[[_ H]|[[_ H]|[[_ (w' & H & He & _)]|[_ (w' & H & He & _)]]]]];
    rewrite H; unfold state_after; simpl; rewrite ?He; unfold WeakSet.add;
    try tauto;
    intros Hk; apply elem_of_union in Hk as [Hk|Hk]; try tauto;
    apply elem_of_singleton in Hk; tauto.
Qed.

Lemma forEach_createControls_adds_own l w k :
  k ∈ enhanced (state_after (forEach createControls l w)) ->
  k ∈ enhanced w \/ exists u, u ∈ l /\ k = eid u.
Proof.
  revert w. induction l as [|a l IH]; intros w Hk; [now left|].
  rewrite forEach_cons in Hk.
  assert (Hstep : k ∈ enhanced (state_after (createControls a w)) ->
                  k ∈ enhanced w \/ exists u, u ∈ a :: l /\ k = eid u).
  { intros H. apply createControls_adds_own in H as [H|H]; [now left|].
    right. exists a. split; [left | exact H]. }
  destruct (createControls a w) as [[[]|] w'] eqn:E.
  - apply IH in Hk as [Hk|(u & Hu & Hk)].
    + apply Hstep. exact Hk.
    + right. exists u. split; [now right | exact Hk].
  - apply Hstep. exact Hk.
Qed.

(** X13. [enhanceAll], the forced pass of the debug interface, is the
    initial pass without its fault isolation.  When no video of the
    document raises, both passes do the same.  When [createControls]
    raises on a video, [enhanceAll] raises in turn and stops there: the
    videos after it in document order are not enhanced by the call, while
    the initial pass completes. *)
Theorem enhanceAll_stops_at_fault w :
  ((forall v, v ∈ querySelectorAll_video (document w) -> fault v = None) ->
   enhanceAll w = initialPass w) /\
  (forall pre v post,
     querySelectorAll_video (document w) = pre ++ v :: post ->
     (forall u, u ∈ pre -> fault u = None) ->
     completion (createControls v (state_after (forEach createControls pre w))) = Throw ->
     completion (enhanceAll w) = Throw /\
     completion (initialPass w) = Normal tt /\
     forall u, u ∈ post ->
               (eid u ∉ enhanced w) ->
               (forall x, x ∈ pre ++ [v] -> eid x <> eid u) ->
               eid u ∉ enhanced (state_after (enhanceAll w))).
Proof.
  split.
  - intros Hsound. unfold enhanceAll, initialPass.
    rewrite try_catch_run. unfold mbind, Stmt_bind, gets.
    assert (Hc : forall a w0, a ∈ querySelectorAll_video (document w) ->
                              completion (createControls a w0) = Normal tt).
    { intros a w0 Ha. apply createControls_completes. now apply Hsound. }
    rewrite (forEach_try_catch _ _ Hc).
    pose proof (forEach_completes _ _ Hc w) as Hdone.
    destruct (forEach createControls _ w) as [[[]|] w']; simpl in Hdone;
      [reflexivity | discriminate].
  - intros pre v post Hvideos Hsound Hthrow.
    assert (Hrun : enhanceAll w =
              (Throw, state_after (createControls v
                        (state_after (forEach createControls pre w))))).
    { unfold enhanceAll, mbind, Stmt_bind, gets. rewrite Hvideos.
      rewrite forEach_app
        by (intros a w0 Ha; apply createControls_completes; now apply Hsound).
      rewrite forEach_cons.
      destruct (createControls v _) as [[[]|] w']; simpl in Hthrow;
        [discriminate | reflexivity]. }
    split; [now rewrite Hrun|]. split.
    { unfold initialPass. now rewrite try_catch_run. }
    intros u Hu Hnew Hother. rewrite Hrun, state_after_pair. intros Hin.
    apply createControls_adds_own in Hin as [Hin|Hin].
    + apply forEach_createControls_adds_own in Hin as [Hin|(x & Hx & Hin)].
      * now apply Hnew.
      * apply (Hother x); [|now symmetry].
        apply elem_of_app. now left.
    + apply (Hother v); [|now symmetry].
      apply elem_of_app. right. left.
Qed.

Lemma enhanceAll_stops_at_fault_witness :
  completion (enhanceAll after_insertion) = Throw /\
  completion (initialPass after_insertion) = Normal tt /\
  (eid sound ∉ enhanced (state_after (enhanceAll after_insertion))) /\
  enhanceAll one_reel = initialPass one_reel.
Proof.
  destruct (enhanceAll_stops_at_fault after_insertion) as [_ Hfault].
  destruct (Hfault [] broken [sound] eq_refl) as (Ht & Hn & Hrest).
  { intros u Hu. now apply elem_of_nil in Hu. }
  { reflexivity. }
  destruct (enhanceAll_stops_at_fault one_reel) as [Hsame _].
  split; [exact Ht|]. split; [exact Hn|]. split.
  - apply Hrest.
    + left.
    + intros Hin. now apply elem_of_empty in Hin.
    + intros x Hx. apply list_elem_of_singleton in Hx as ->. discriminate.
  - apply Hsame. intros v Hv. apply list_elem_of_singleton in Hv as ->. reflexivity.
Defined.

(** ** The tracker over any run *)

Lemma records_ok_same_tracker w w' :
  enhanced w' = enhanced w -> cleanupMap w' = cleanupMap w ->
  records_ok w -> records_ok w'.
Proof. unfold records_ok. intros -> ->. tauto. Qed.

Lemma command_keeps_tracker w seconds amount c :
  c ∈ commands seconds amount ->
  enhanced (state_after (c w)) = enhanced w /\
  cleanupMap (state_after (c w)) = cleanupMap w.
Proof.
  intros Hc. pose proof (command_run w _ _ _ Hc) as H.
  destruct (getActiveVideo w) as [video|].
  - destruct H as (f & ->). now split.
  - rewrite H. now split.
Qed.

Lemma handleKeyDown_keeps_tracker event w :
  enhanced (state_after (handleKeyDown event w)) = enhanced w /\
  cleanupMap (state_after (handleKeyDown event w)) = cleanupMap w.
Proof.
  unfold handleKeyDown.
  destruct (_ || _); [now split|]. destruct (negb _); [now split|].
  unfold mbind, Stmt_bind.
  destruct (key_command (key event)) as [c|] eqn:Hk; [|now split].
  pose proof (command_keeps_tracker w _ _ _ (key_command_in _ _ Hk)) as H.
  destruct (c w) as [[[]|] w']; exact H.
Qed.

Lemma onMessage_keeps_tracker message w :
  enhanced (state_after (onMessage message w)) = enhanced w /\
  cleanupMap (state_after (onMessage message w)) = cleanupMap w.
Proof.
  unfold onMessage, mbind, Stmt_bind.
  destruct (is_command message) as [name|]; [|now split].
  destruct (own_property name commandHandlers) as [handler|] eqn:Hown.
  - assert (Hc : handler ∈ commands None None).
    { unfold own_property in Hown.
      destruct (List.find _ commandHandlers) as [[n h]|] eqn:Hf; [|discriminate].
      injection Hown as <-. apply find_some in Hf as [Hin _].
      apply list_elem_of_In in Hin.
      now destruct (commandHandlers_own _ _ Hin) as (_ & _ & ?). }
    pose proof (command_keeps_tracker w _ _ _ Hc) as H.
    destruct (handler w) as [[[]|] w']; exact H.
  - destruct (bool_decide _); [|now split].
    unfold call_inherited.
    repeat (destruct (String.eqb name _); [now split|]). now split.
Qed.

Lemma onSliderInput_keeps_tracker video slider w :
  enhanced (state_after (Handlers.onSliderInput video slider w)) = enhanced w /\
  cleanupMap (state_after (Handlers.onSliderInput video slider w)) = cleanupMap w.
Proof.
  unfold Handlers.onSliderInput, mbind, Stmt_bind, gets.
  destruct (slider_state slider (document w)) as [s|]; [|now split].
  destruct (negb _); now split.
Qed.

Lemma onLoadedMetadata_keeps_tracker video slider w :
  enhanced (state_after (Handlers.onLoadedMetadata video slider w)) = enhanced w /\
  cleanupMap (state_after (Handlers.onLoadedMetadata video slider w)) = cleanupMap w.
Proof.
  unfold Handlers.onLoadedMetadata, mbind, Stmt_bind.
  destruct (negb _); now split.
Qed.

(** Every entry point keeps the teardown records in order. *)
Lemma perform_records_ok c w : records_ok w -> records_ok (perform c w).
Proof.
  intros Hok.
  assert (Hcmd : forall seconds amount run,
            run ∈ commands seconds amount -> records_ok (state_after (run w))).
  { intros seconds amount run Hrun.
    destruct (command_keeps_tracker w _ _ _ Hrun) as [He Hm].
    now apply (records_ok_same_tracker w). }
  destruct c as [video|video| |mutations| | | | |seconds|seconds|amount|amount
                | | | |ev|message|video slider|video slider|video slider
                |video slider]; cbn [perform].
  - now apply createControls_records_ok.
  - now apply cleanupVideo_records_ok.
  - unfold initialPass. rewrite try_catch_run, state_after_pair.
    unfold mbind, Stmt_bind, gets.
    apply forEach_preserves; [|exact Hok].
    intros v w0 _ Hw0. cbv beta. rewrite try_catch_run, state_after_pair.
    now apply createControls_records_ok.
  - unfold observer. apply forEach_preserves; [|exact Hok].
    intros m w0 _ Hw0. now apply observer_step_records_ok.
  - unfold enhanceAll, mbind, Stmt_bind, gets.
    apply forEach_preserves; [|exact Hok].
    intros v w0 _ Hw0. now apply createControls_records_ok.
  - exact Hok.
  - exact Hok.
  - apply (Hcmd None None). unfold commands. apply list_elem_of_lookup. now exists 0%nat.
  - apply (Hcmd seconds None). unfold commands. apply list_elem_of_lookup. now exists 1%nat.
  - apply (Hcmd seconds None). unfold commands. apply list_elem_of_lookup. now exists 2%nat.
  - apply (Hcmd None amount). unfold commands. apply list_elem_of_lookup. now exists 3%nat.
  - apply (Hcmd None amount). unfold commands. apply list_elem_of_lookup. now exists 4%nat.
  - apply (Hcmd None None). unfold commands. apply list_elem_of_lookup. now exists 5%nat.
  - apply (Hcmd None None). unfold commands. apply list_elem_of_lookup. now exists 6%nat.
  - apply (Hcmd None None). unfold commands. apply list_elem_of_lookup. now exists 7%nat.
  - destruct (handleKeyDown_keeps_tracker ev w) as [He Hm].
    now apply (records_ok_same_tracker w).
  - destruct (onMessage_keeps_tracker message w) as [He Hm].
    now apply (records_ok_same_tracker w).
  - exact Hok.
  - destruct (onLoadedMetadata_keeps_tracker video slider w) as [He Hm].
    now apply (records_ok_same_tracker w).
  - exact Hok.
  - destruct (onSliderInput_keeps_tracker video slider w) as [He Hm].
    now apply (records_ok_same_tracker w).
Qed.

(** X14. The tracker stays in order over every run.  From a page whose
    teardown records are filed under their own video and belong to
    enhanced videos (a freshly loaded page has none), any sequence of
    calls of the entry points of the script leaves the records so; hence
    a video that holds a record is in the enhancement set, and
    [createControls] on it changes nothing: no video ever gets a second
    set of controls while it holds one. *)
Theorem tracker_in_order calls w :
  records_ok w ->
  records_ok (perform_all calls w) /\
  forall video cl,
    cleanupMap (perform_all calls w) !! eid video = Some cl ->
    cl_video cl = eid video /\
    eid video ∈ enhanced (perform_all calls w) /\
    createControls video (perform_all calls w) = (Normal tt, perform_all calls w).
Proof.
  intros Hok.
  assert (Hend : records_ok (perform_all calls w)).
  { revert w Hok. unfold perform_all.
    induction calls as [|c calls IH]; intros w Hok; [exact Hok|].
    cbn [fold_left]. apply IH. now apply perform_records_ok. }
  split; [exact Hend|]. intros video cl Hrec.
  destruct (Hend _ _ Hrec) as [Hv He].
  split; [exact Hv|]. split; [exact He|]. now apply createControls_enhanced.
Qed.

Lemma tracker_in_order_witness :
  cleanupMap
    (perform_all [call_initialPass; call_seekForward None; call_togglePlayPause]
       one_reel) !! eid reel = Some (teardown one_reel reel) /\
  createControls reel
    (perform_all [call_initialPass; call_seekForward None; call_togglePlayPause]
       one_reel)
  = (Normal tt,
     perform_all [call_initialPass; call_seekForward None; call_togglePlayPause]
       one_reel).
Proof.
  assert (Hrec : cleanupMap
    (perform_all [call_initialPass; call_seekForward None; call_togglePlayPause]
       one_reel) !! eid reel = Some (teardown one_reel reel)) by reflexivity.
  destruct (tracker_in_order
              [call_initialPass; call_seekForward None; call_togglePlayPause]
              one_reel (records_ok_page _)) as [_ H].
  destruct (H reel _ Hrec) as (_ & _ & Hnoop).
  exact (conj Hrec Hnoop).
Defined.

End Runs.
(* ===================================================================== *)
(** * The attachment point and the wired handlers *)
(* ===================================================================== *)

Section Resolver.

(** The [while] loop returns the first positioned ancestor it meets
    before the body. *)
Lemma walk_ancestors_first body chain el :
  walk_ancestors body chain = Some el <->
  exists pre post,
    chain = pre ++ el :: post /\
    positioned el = true /\ eid el <> body /\
    forall a, a ∈ pre -> positioned a = false /\ eid a <> body.
Proof.
  induction chain as [|a chain IH]; simpl.
  - split; [discriminate|]. intros (pre & post & H & _). now destruct pre.
  - destruct (Nat.eqb_spec (eid a) body) as [Hb|Hb].
    + split; [discriminate|]. intros (pre & post & H & _ & Hne & Hpre).
      destruct pre as [|a' pre]; injection H as <- ->.
      * contradiction.
      * destruct (Hpre a ltac:(left)) as [_ ?]. contradiction.
    + destruct (positioned a) eqn:Hp.
      * split.
        -- intros [= ->]. exists [], chain.
           split; [reflexivity|]. split; [assumption|]. split; [assumption|].
           intros ? Hin. now apply elem_of_nil in Hin.
        -- intros (pre & post & H & _ & _ & Hpre).
           destruct pre as [|a' pre]; injection H as <- ->; [reflexivity|].
           destruct (Hpre a ltac:(left)) as [? _]. congruence.
      * rewrite IH. split.
        -- intros (pre & post & -> & H1 & H2 & Hpre).
           exists (a :: pre), post.
           split; [reflexivity|]. split; [assumption|]. split; [assumption|].
           intros b Hin. apply elem_of_cons in Hin as [->|Hin];
             [now split | now apply Hpre].
        -- intros (pre & post & H & H1 & H2 & Hpre).
           destruct pre as [|a' pre]; injection H as <- ->; [congruence|].
           exists pre, post.
           split; [reflexivity|]. split; [assumption|]. split; [assumption|].
           intros b Hin. apply Hpre. now right.
Qed.

(** The loop stops at the body: when every ancestor below the body is
    static, it finds nothing. *)
Lemma walk_ancestors_stops body pre b post :
  eid b = body ->
  (forall a, a ∈ pre -> positioned a = false) ->
  walk_ancestors body (pre ++ b :: post) = None.
Proof.
  intros Hb. induction pre as [|a pre IH]; intros H; simpl.
  - now rewrite (proj2 (Nat.eqb_eq _ _) Hb).
  - destruct (Nat.eqb _ _); [reflexivity|].
    rewrite (H a ltac:(left)). apply IH. intros c Hc. apply H. now right.
Qed.

(** X15. [findAttachmentParent] always resolves: unless reading the
    layout raises, it returns a node and changes nothing.  The node is the
    offset parent when the video has one.  Otherwise, for a video of the
    document, it is the nearest ancestor below the body with a position
    other than static, when there is one, and the parent element when
    every ancestor below the body is static. *)
Theorem attachment_point_resolves video w :
  fault video <> Some RaisesOnLayout ->
  exists p,
    findAttachmentParent video w = (Normal (Some p), w) /\
    (forall q, offsetParent video = Some q -> p = q) /\
    (offsetParent video = None ->
     forall chain, ancestors (eid video) (document w) = Some chain ->
       (forall pre el post,
          chain = pre ++ el :: post ->
          positioned el = true -> eid el <> eid (elem (document w)) ->
          (forall a, a ∈ pre ->
             positioned a = false /\ eid a <> eid (elem (document w))) ->
          p = eid el) /\
       (forall pre body post parentElement rest,
          chain = pre ++ body :: post ->
          eid body = eid (elem (document w)) ->
          (forall a, a ∈ pre -> positioned a = false) ->
          chain = parentElement :: rest ->
          p = eid parentElement)).
Proof.
  intros Hl. exists (attachment_point w video).
  split; [now apply findAttachmentParent_run|].
  unfold attachment_point. split.
  - now intros q ->.
  - intros -> chain Hanc. rewrite Hanc.
    change (default [] (Some chain)) with chain. split.
    + intros pre el post Hchain Hp Hne Hpre.
      assert (Hw : walk_ancestors (eid (elem (document w))) chain = Some el).
      { apply walk_ancestors_first. now exists pre, post. }
      now rewrite Hw.
    + intros pre body post parentElement rest Hchain Hb Hstatic Hparent.
      assert (Hw : walk_ancestors (eid (elem (document w))) chain = None).
      { rewrite Hchain. now apply walk_ancestors_stops. }
      rewrite Hw. now rewrite Hparent.
Qed.

Lemma attachment_point_resolves_witness :
  findAttachmentParent reel one_reel = (Normal (Some 1%nat), one_reel) /\
  findAttachmentParent
    (video_elem 2%nat None (rect_at 0 0 400 700) (media_at 25 100) None) one_reel
    = (Normal (Some 1%nat), one_reel).
Proof.
  split.
  - destruct (attachment_point_resolves reel one_reel) as (p & Hrun & Hoff & _);
      [discriminate|].
    now rewrite Hrun, (Hoff 1%nat eq_refl).
  - destruct (attachment_point_resolves
                (video_elem 2%nat None (rect_at 0 0 400 700) (media_at 25 100) None)
                one_reel) as (p & Hrun & _ & Hwalk); [discriminate|].
    destruct (Hwalk eq_refl _ eq_refl) as [Hnear _].
    rewrite Hrun.
    rewrite (Hnear [] (div_elem 1%nat "relative") [div_elem 0%nat "static"]);
      try reflexivity; try discriminate.
    intros a Ha. now apply elem_of_nil in Ha.
Defined.

End Resolver.

Section Wiring.
Local Open Scope float_scope.

(** ** Looking an element up after an assignment *)

Lemma first_some_found {A B} (f : A -> option B) l b :
  first_some f l = Some b -> exists a, a ∈ l /\ f a = Some b.
Proof.
  induction l as [|a l IH]; simpl; [discriminate|].
  destruct (f a) as [b'|] eqn:E.
  - intros [= <-]. exists a. split; [left | exact E].
  - intros H. destruct (IH H) as (a' & Ha' & Hf). exists a'. split; [now right | exact Hf].
Qed.

Lemma first_some_map {A B} (f : A -> option B) (g : A -> A) (h : B -> B) l :
  Forall (fun a => f (g a) = option_map h (f a)) l ->
  first_some f (map g l) = option_map h (first_some f l).
Proof.
  induction 1 as [|a l Ha _ IH]; [reflexivity|].
  simpl. rewrite Ha. destruct (f a); [reflexivity | exact IH].
Qed.

Lemma find_node_eid id n m : find_node id n = Some m -> eid (elem m) = id.
Proof.
  revert m. induction n as [e cs IH] using Node_ind'. intros m. simpl.
  destruct (Nat.eqb_spec (eid e) id) as [He|He].
  - now intros [= <-].
  - intros H. apply first_some_found in H as (c & Hc & H).
    rewrite Forall_forall in IH. now apply (IH c Hc).
Qed.

Lemma find_node_update id id' g n :
  (forall e, eid (g e) = eid e) ->
  find_node id (update_node id' (on_elem g) n)
  = option_map (update_node id' (on_elem g)) (find_node id n).
Proof.
  intros Hg. induction n as [e cs IH] using Node_ind'.
  assert (Hcs : first_some (find_node id) (map (update_node id' (on_elem g)) cs)
                = option_map (update_node id' (on_elem g))
                    (first_some (find_node id) cs))
    by now apply first_some_map.
  cbn [update_node find_node].
  destruct (Nat.eqb (eid e) id') eqn:E'.
  - unfold on_elem at 1. cbn [elem children find_node]. rewrite Hg.
    destruct (Nat.eqb (eid e) id) eqn:E; [|exact Hcs].
    cbn [option_map update_node]. now rewrite E'.
  - cbn [find_node]. destruct (Nat.eqb (eid e) id) eqn:E; [|exact Hcs].
    cbn [option_map update_node]. now rewrite E'.
Qed.

(** An assignment to a video leaves every scrub control as it is. *)
Lemma slider_state_update_media s v f doc :
  slider_state s (update_media v f doc) = slider_state s doc.
Proof.
  unfold slider_state, update_media.
  rewrite find_node_update by (intros e; apply eid_assign_media).
  destruct (find_node s doc) as [m|]; [|reflexivity].
  cbn [option_map mbind option_bind]. rewrite elem_update_on_elem.
  unfold upd. destruct (Nat.eqb _ _); [|reflexivity].
  unfold assign_media. destruct (kind (elem m)) eqn:E; simpl; rewrite ?E; reflexivity.
Qed.

(** An assignment to the scrub control named [s] shows on that control,
    and on no other. *)
Lemma slider_state_update_slider s' s f doc :
  slider_state s' (update_slider s f doc)
  = if Nat.eqb s' s then f <$> slider_state s' doc else slider_state s' doc.
Proof.
  unfold slider_state, update_slider.
  rewrite find_node_update by (intros e; apply eid_assign_slider).
  destruct (find_node s' doc) as [m|] eqn:Hm; [|now destruct (Nat.eqb s' s)].
  cbn [option_map mbind option_bind]. rewrite elem_update_on_elem.
  unfold upd. rewrite (find_node_eid _ _ _ Hm).
  destruct (Nat.eqb s' s); [|reflexivity].
  unfold assign_slider. destruct (kind (elem m)) eqn:E; simpl; rewrite ?E; reflexivity.
Qed.

Lemma updateProgress_run video slider w :
  updateProgress video slider w =
    (Normal tt,
     with_document
       (update_slider slider (render_progress (activeElement w) video slider)
          (document w)) w).
Proof. reflexivity. Qed.

(** X16. What a re-rendering does to the page ([onTimeUpdate] and
    [onSeeked] are calls of [updateProgress]).  It writes the fill and the
    maximum of the scrub control it is given and leaves every other
    control, every video and the tracker as they are; the minimum and the
    step of the control are kept.  For a positive duration the maximum
    becomes the duration and the fill the clamped share of the current
    time; for any other duration the maximum stays and the fill is 0. *)
Theorem rerender_writes_one_control video slider s w :
  slider_state slider (document w) = Some s ->
  Handlers.onTimeUpdate video slider w = updateProgress video slider w /\
  Handlers.onSeeked video slider w = updateProgress video slider w /\
  completion (updateProgress video slider w) = Normal tt /\
  (exists s',
     slider_state slider (document (state_after (updateProgress video slider w)))
       = Some s' /\
     slider_min s' = slider_min s /\ slider_step s' = slider_step s /\
     ((0 <? duration (media_of video)) = true ->
        slider_max s' = Some (duration (media_of video)) /\
        fill_percentage s' =
          Some (JS.Math_max 0 (JS.Math_min 100
                  (currentTime (media_of video) / duration (media_of video) * 100)))) /\
     ((0 <? duration (media_of video)) = false ->
        slider_max s' = slider_max s /\ fill_percentage s' = Some 0)) /\
  (forall other, other <> slider ->
     slider_state other (document (state_after (updateProgress video slider w)))
       = slider_state other (document w)) /\
  querySelectorAll_video (document (state_after (updateProgress video slider w)))
    = querySelectorAll_video (document w) /\
  enhanced (state_after (updateProgress video slider w)) = enhanced w /\
  cleanupMap (state_after (updateProgress video slider w)) = cleanupMap w.
Proof.
  intros Hs. split; [reflexivity|]. split; [reflexivity|].
  rewrite updateProgress_run. split; [reflexivity|].
  rewrite state_after_pair. cbn [document with_document]. split; [|split; [|split]].
  - eexists. rewrite slider_state_update_slider, Nat.eqb_refl, Hs.
    split; [reflexivity|].
    unfold render_progress. cbv zeta.
    destruct (0 <? duration (media_of video)) eqn:Hd.
    + destruct (float_ltb_not_nan _ _ Hd) as [_ Hn]. unfold JS.isNaN.
      rewrite Hn. cbn [negb andb].
      split; [now destruct (bool_decide _)|].
      split; [now destruct (bool_decide _)|].
      split; [|discriminate]. intros _.
      split; [reflexivity | now destruct (bool_decide _)].
    + rewrite andb_false_r.
      split; [reflexivity|]. split; [reflexivity|].
      split; [discriminate|]. intros _. now split.
  - intros other Hne. rewrite slider_state_update_slider.
    now rewrite (proj2 (Nat.eqb_neq other slider) Hne).
  - apply videos_update_slider.
  - now split.
Qed.

Lemma rerender_writes_one_control_witness :
  exists s',
    slider_state 101%nat (document (state_after
      (updateProgress (reel_of (media_at 50 100)) 101%nat (attached one_reel reel))))
      = Some s' /\
    slider_max s' = Some 100 /\ fill_percentage s' = Some 50.
Proof.
  destruct (rerender_writes_one_control (reel_of (media_at 50 100)) 101%nat
              _ (attached one_reel reel) eq_refl)
    as (_ & _ & _ & (s' & Hs' & _ & _ & Hknown & _) & _).
  destruct (Hknown eq_refl) as [Hmax Hfill].
  exists s'. split; [exact Hs'|]. split; [exact Hmax | exact Hfill].
Defined.

Lemma is_zero_not_nan x : is_zero x = true -> is_nan x = false.
Proof.
  unfold is_zero. intros H.
  now destruct (float_leb_not_nan _ _ (float_eqb_leb _ _ H)).
Qed.

Lemma parseFloat_value_nan x : is_nan (parseFloat_value x) = is_nan x.
Proof.
  unfold parseFloat_value. destruct (is_zero x) eqn:E; [|reflexivity].
  now rewrite (is_zero_not_nan _ E).
Qed.

(** X17. Scrubbing.  An input event on a scrub control of the document
    that holds a finite number sets the current time of the video to that
    number and re-renders the control from it: for a positive duration
    the fill is that time's share of the duration, clamped, and for any
    other duration it is 0.  Every other attribute of the video, every
    other video and the tracker are left as they are, and the handler
    does not raise.  When what the control holds reads as [NaN] the
    handler does nothing. *)
Theorem scrub_sets_current_time video slider s w :
  is_video video = true ->
  slider_state slider (document w) = Some s ->
  (is_nan (slider_value s) = true ->
   Handlers.onSliderInput video slider w = (Normal tt, w)) /\
  (JS.isFinite (slider_value s) = true ->
   completion (Handlers.onSliderInput video slider w) = Normal tt /\
   querySelectorAll_video
     (document (state_after (Handlers.onSliderInput video slider w)))
     = map (upd (eid video)
              (assign_media (set_currentTime (parseFloat_value (slider_value s)))))
         (querySelectorAll_video (document w)) /\
   (exists s',
      slider_state slider
        (document (state_after (Handlers.onSliderInput video slider w))) = Some s' /\
      ((0 <? duration (media_of video)) = true ->
         fill_percentage s' =
           Some (JS.Math_max 0 (JS.Math_min 100
                   (parseFloat_value (slider_value s)
                    / duration (media_of video) * 100)))) /\
      ((0 <? duration (media_of video)) = false -> fill_percentage s' = Some 0)) /\
   enhanced (state_after (Handlers.onSliderInput video slider w)) = enhanced w /\
   cleanupMap (state_after (Handlers.onSliderInput video slider w)) = cleanupMap w).
Proof.
  intros Hv Hs. unfold Handlers.onSliderInput, mbind, Stmt_bind, gets.
  rewrite Hs. cbv zeta. unfold JS.isNaN. rewrite parseFloat_value_nan. split.
  - now intros ->.
  - intros Hfin.
    assert (Hn : is_nan (slider_value s) = false).
    { unfold JS.isFinite in Hfin. apply andb_true_iff in Hfin as [_ Hfin].
      now destruct (float_ltb_not_nan _ _ Hfin). }
    rewrite Hn. cbn [negb].
    set (t := parseFloat_value (slider_value s)).
    rewrite try_catch_run. unfold assign, modify.
    rewrite updateProgress_run, !state_after_pair.
    cbn [document with_document activeElement enhanced cleanupMap].
    split; [reflexivity|]. split.
    { rewrite videos_update_slider. apply querySelectorAll_video_update_media. }
    split; [|now split].
    eexists. rewrite slider_state_update_slider, Nat.eqb_refl.
    rewrite slider_state_update_media, Hs. split; [reflexivity|].
    unfold render_progress. cbv zeta.
    rewrite (media_of_assign_media _ _ Hv). cbn [duration currentTime set_currentTime].
    destruct (0 <? duration (media_of video)) eqn:Hd.
    + destruct (float_ltb_not_nan _ _ Hd) as [_ Hnd]. unfold JS.isNaN.
      rewrite Hnd. cbn [negb andb]. split; [|discriminate]. intros _.
      now destruct (bool_decide (activeElement w ≠ Some slider)).
    + rewrite andb_false_r. split; [discriminate|]. now intros _.
Qed.

Lemma scrub_sets_current_time_witness :
  active_media (state_after (Handlers.onSliderInput reel 101%nat
     (with_document
        (update_slider 101%nat (set_value 40) (document (attached one_reel reel)))
        (attached one_reel reel))))
  = Some (media_at 40 100).
Proof.
  destruct (scrub_sets_current_time reel 101%nat _
     (with_document
        (update_slider 101%nat (set_value 40) (document (attached one_reel reel)))
        (attached one_reel reel)) eq_refl eq_refl) as [_ H].
  destruct (H eq_refl) as (_ & Hvideos & _).
  unfold active_media, getActiveVideo. rewrite Hvideos. reflexivity.
Defined.

(** X18. When the metadata of the video has loaded,
    [onLoadedMetadata] makes every duration that is a number the maximum
    of the scrub control, a zero, negative or infinite one included,
    while the fill follows the duration only when it is positive and is 0
    otherwise.  For a duration that is [NaN] the maximum is left as it
    was. *)
Theorem metadata_sets_maximum video slider s w :
  slider_state slider (document w) = Some s ->
  completion (Handlers.onLoadedMetadata video slider w) = Normal tt /\
  exists s',
    slider_state slider
      (document (state_after (Handlers.onLoadedMetadata video slider w))) = Some s' /\
    (is_nan (duration (media_of video)) = false ->
       slider_max s' = Some (duration (media_of video))) /\
    (is_nan (duration (media_of video)) = true -> slider_max s' = slider_max s) /\
    ((0 <? duration (media_of video)) = false -> fill_percentage s' = Some 0).
Proof.
  intros Hs. unfold Handlers.onLoadedMetadata, mbind, Stmt_bind, modify.
  unfold JS.isNaN.
  destruct (is_nan (duration (media_of video))) eqn:Hn; cbn [negb];
    unfold mret, Stmt_ret; rewrite updateProgress_run;
    (split; [reflexivity|]); rewrite state_after_pair;
    cbn [document with_document activeElement];
    eexists; rewrite ?slider_state_update_slider, ?Nat.eqb_refl, Hs;
    (split; [reflexivity|]); unfold render_progress, JS.isNaN; cbv zeta;
    rewrite Hn; cbn [negb andb].
  - split; [discriminate|]. split; now intros _.
  - split.
    + intros _. destruct (0 <? duration (media_of video)); [|reflexivity].
      now destruct (bool_decide _).
    + split; [discriminate|]. now intros ->.
Qed.

Lemma metadata_sets_maximum_witness :
  exists s',
    slider_state 101%nat (document (state_after
      (Handlers.onLoadedMetadata (reel_of (media_at 0 0)) 101%nat
         (attached one_reel reel)))) = Some s' /\
    slider_max s' = Some 0 /\ fill_percentage s' = Some 0.
Proof.
  destruct (metadata_sets_maximum (reel_of (media_at 0 0)) 101%nat _
              (attached one_reel reel) eq_refl) as (_ & s' & Hs' & Hmax & _ & Hfill).
  exists s'. split; [exact Hs'|]. split; [exact (Hmax eq_refl) | exact (Hfill eq_refl)].
Defined.

End Wiring.
(* ===================================================================== *)
(** * Passes and batches in sequence *)
(* ===================================================================== *)

Section Passes.
Local Open Scope float_scope.

Lemma forEach_unchanged {A} (f : A -> Stmt unit) l w :
  (forall a, a ∈ l -> f a w = (Normal tt, w)) ->
  forEach f l w = (Normal tt, w).
Proof.
  induction l as [|a l IH]; intros H; [reflexivity|].
  rewrite forEach_cons, (H a ltac:(left)). apply IH.
  intros b Hb. apply H. now right.
Qed.

(** After the initial pass over videos that do not raise, the document
    has the same videos, and [createControls] has nothing left to do on
    any of them. *)
Lemma initialPass_settles w :
  (forall v, v ∈ querySelectorAll_video (document w) -> fault v = None) ->
  querySelectorAll_video (document (state_after (initialPass w)))
    = querySelectorAll_video (document w) /\
  forall v, v ∈ querySelectorAll_video (document w) ->
    createControls v (state_after (initialPass w))
      = (Normal tt, state_after (initialPass w)).
Proof.
  intros Hsound. unfold initialPass.
  rewrite try_catch_run, state_after_pair. unfold mbind, Stmt_bind, gets.
  set (L := querySelectorAll_video (document w)).
  assert (Hstep : forall v w0,
            state_after (try_catch (createControls v) w0)
            = state_after (createControls v w0)).
  { intros v w0. now rewrite try_catch_run. }
  split.
  - apply (forEach_preserves _
             (fun w0 => querySelectorAll_video (document w0) = L)); [|reflexivity].
    intros v w0 _ Hw0. cbv beta. rewrite Hstep.
    now rewrite (proj1 (createControls_frame v w0)).
  - intros v Hv.
    destruct (instanceof_HTMLVideoElement v) eqn:Hg;
      [|now apply createControls_not_video].
    apply createControls_enhanced.
    apply (forEach_reaches _ (fun _ => True) (fun w0 => eid v ∈ enhanced w0) L v);
      try done.
    + intros u w0 _. cbv beta. now rewrite try_catch_run.
    + intros w0 _. cbv beta. rewrite Hstep.
      apply createControls_enhances; [assumption | now apply Hsound].
    + intros u w0 _ _ Hin. cbv beta. rewrite Hstep.
      now apply createControls_grows.
Qed.

(** X19. A full-page pass can be repeated.  On a page none of whose
    videos raises, a second initial pass, or a forced pass through the
    debug interface after the initial one, changes nothing: every
    video is already enhanced, and gets no second set of controls. *)
Theorem second_pass_changes_nothing w :
  (forall v, v ∈ querySelectorAll_video (document w) -> fault v = None) ->
  initialPass (state_after (initialPass w))
    = (Normal tt, state_after (initialPass w)) /\
  enhanceAll (state_after (initialPass w))
    = (Normal tt, state_after (initialPass w)).
Proof.
  intros Hsound. destruct (initialPass_settles w Hsound) as [Hvideos Hdone].
  split.
  - unfold initialPass at 1. rewrite try_catch_run.
    unfold mbind, Stmt_bind, gets. rewrite Hvideos.
    rewrite forEach_unchanged; [reflexivity|].
    intros v Hv. cbv beta. now rewrite try_catch_run, (Hdone v Hv).
  - unfold enhanceAll, mbind, Stmt_bind, gets. rewrite Hvideos.
    now apply forEach_unchanged.
Qed.

Lemma second_pass_changes_nothing_witness :
  state_after (initialPass one_reel) = attached one_reel reel /\
  initialPass (attached one_reel reel) = (Normal tt, attached one_reel reel) /\
  enhanceAll (attached one_reel reel) = (Normal tt, attached one_reel reel).
Proof.
  split; [reflexivity|].
  apply (second_pass_changes_nothing one_reel).
  intros v Hv. apply list_elem_of_singleton in Hv as ->. reflexivity.
Defined.

(** ** A node that comes and goes *)

Lemma visit_all_one each video cs w :
  is_video video = true ->
  visit_all each [ElementNode (Element video cs)] w
    = (Normal tt, state_after (each video w)).
Proof.
  intros Hv. unfold visit_all. rewrite forEach_cons.
  cbv beta iota. rewrite try_catch_run. cbn [forEach].
  unfold visit. cbn [elem]. now rewrite Hv.
Qed.

(** X20. The mutation watcher on a video that comes and goes, for a
    video whose controls [createControls] constructs.  A record that
    lists the video both as added and as removed nets to nothing: the
    controls are constructed, then torn down, and the page is as before
    but for the two references used.  A batch that removes an enhanced
    video and then adds it again leaves it enhanced, with new controls
    and a new teardown record. *)
Theorem watcher_comes_and_goes video cs w :
  is_video video = true ->
  constructs w video = true ->
  fault video = None ->
  fresh_refs w ->
  cleanupMap w !! eid video = None ->
  observer [ {| addedNodes := [ElementNode (Element video cs)];
                removedNodes := [ElementNode (Element video cs)] |} ] w
    = (Normal tt, with_nextRef (S (S (nextRef w))) w) /\
  observer [ {| addedNodes := [];
                removedNodes := [ElementNode (Element video cs)] |};
             {| addedNodes := [ElementNode (Element video cs)];
                removedNodes := [] |} ] (attached w video)
    = (Normal tt, attached (with_nextRef (S (S (nextRef w))) w) video).
Proof.
  intros Hv Hc Hf Hfresh Hm.
  destruct (constructs_true _ _ Hc) as (_ & He & _ & _).
  assert (Hdown : cleanupVideo video (attached w video)
                  = (Normal tt, with_nextRef (S (S (nextRef w))) w)).
  { rewrite (cleanupVideo_recorded _ _ (teardown w video))
      by (simpl; apply lookup_insert_eq).
    f_equal. now apply torn_down_attached. }
  assert (Hup : createControls video (with_nextRef (S (S (nextRef w))) w)
                = (Normal tt, attached (with_nextRef (S (S (nextRef w))) w) video)).
  { apply createControls_constructs; try assumption.
    apply fresh_refs_later; [assumption | simpl; lia]. }
  unfold observer. split.
  - rewrite forEach_cons, observer_step_run. cbn [addedNodes removedNodes forEach].
    rewrite !(visit_all_one _ _ _ _ Hv), !state_after_pair.
    rewrite (createControls_constructs _ _ Hc Hf Hfresh), state_after_pair.
    now rewrite Hdown.
  - rewrite forEach_cons, observer_step_run. cbn [addedNodes removedNodes].
    rewrite forEach_cons, observer_step_run. cbn [addedNodes removedNodes forEach].
    rewrite !(visit_all_one _ _ _ _ Hv).
    change (visit_all createControls [] ?x) with (Normal tt, x).
    change (visit_all cleanupVideo [] ?x) with (Normal tt, x).
    rewrite !state_after_pair, Hdown, !state_after_pair.
    now rewrite Hup.
Qed.

Lemma watcher_comes_and_goes_witness :
  observer [ {| addedNodes := [ElementNode (Element reel [])];
                removedNodes := [ElementNode (Element reel [])] |} ] one_reel
    = (Normal tt, with_nextRef 102%nat one_reel) /\
  observer [ {| addedNodes := [];
                removedNodes := [ElementNode (Element reel [])] |};
             {| addedNodes := [ElementNode (Element reel [])];
                removedNodes := [] |} ] (attached one_reel reel)
    = (Normal tt, attached (with_nextRef 102%nat one_reel) reel).
Proof.
  apply (watcher_comes_and_goes reel [] one_reel); try reflexivity.
  split.
  - intros i Hi. vm_compute in Hi.
    repeat (apply elem_of_cons in Hi as [->|Hi]; [vm_compute; lia|]).
    now apply elem_of_nil in Hi.
  - intros r Hr. now apply elem_of_nil in Hr.
Defined.

End Passes.
(* ===================================================================== *)
(** * Best-effort teardown, and the two command surfaces *)
(* ===================================================================== *)

Section BestEffort.

Lemma removeChild_absent id n : id ∉ ids n -> removeChild id n = n.
Proof.
  induction n as [e cs IH] using Node_ind'. intros Hid.
  cbn [removeChild]. f_equal.
  assert (Hcs : forall c, c ∈ cs -> id ∉ ids c).
  { intros c Hc Hin. apply Hid. now apply (ids_child e cs c). }
  clear Hid. induction IH as [|c cs Hc _ IHcs]; [reflexivity|].
  cbn [flat_map].
  assert (Hroot : Nat.eqb (eid (elem c)) id = false).
  { apply Nat.eqb_neq. intros Heq. apply (Hcs c); [left|].
    rewrite <- Heq. apply ids_root. }
  rewrite Hroot, Hc by (apply Hcs; left). cbn [app]. f_equal.
  apply IHcs. intros c' Hc'. apply Hcs. now right.
Qed.

Lemma remove_listener_keeps r r0 l :
  r0 ∈ l -> r0 <> r -> r0 ∈ remove_listener r l.
Proof.
  intros Hin Hne. unfold remove_listener. apply list_elem_of_filter. now split.
Qed.

(** X21. Teardown is best effort.  The [cleanup] of a recorded video
    always completes, clears the record and the membership of its video,
    and takes away no listener but its own: a registration of another
    handler stays.  What is already gone is no obstacle: when the
    container is no longer in the document the document is left as it
    is, and when none of its listeners is registered any more the
    listeners are left as they are. *)
Theorem teardown_is_best_effort video cl w :
  cleanupMap w !! eid video = Some cl ->
  completion (cleanupVideo video w) = Normal tt /\
  cleanupMap (state_after (cleanupVideo video w)) !! cl_video cl = None /\
  (cl_video cl ∉ enhanced (state_after (cleanupVideo video w))) /\
  (forall r, r ∈ listeners w -> instance (handler r) <> cl_container cl ->
             r ∈ listeners (state_after (cleanupVideo video w))) /\
  ((cl_container cl ∉ ids (document w)) ->
   document (state_after (cleanupVideo video w)) = document w) /\
  ((forall r, r ∈ listeners w -> instance (handler r) <> cl_container cl) ->
   listeners (state_after (cleanupVideo video w)) = listeners w).
Proof.
  intros Hm. rewrite (cleanupVideo_recorded _ _ _ Hm), state_after_pair.
  split; [reflexivity|]. cbn [torn_down cleanupMap enhanced listeners document].
  split; [apply lookup_delete_eq|]. split.
  { intros Hin. apply elem_of_difference in Hin as [_ Hin].
    apply Hin. now apply elem_of_singleton. }
  split; [|split].
  - intros r Hr Hne.
    repeat (apply remove_listener_keeps;
            [|intros ->; apply Hne; reflexivity]).
    exact Hr.
  - apply removeChild_absent.
  - intros Hnone.
    repeat match goal with
    | |- context [remove_listener ?r (listeners w)] =>
        rewrite (remove_listener_absent r (listeners w))
          by (intros Hin; apply (Hnone _ Hin); reflexivity)
    end.
    reflexivity.
Qed.

Lemma teardown_is_best_effort_witness :
  completion (cleanupVideo reel
    (with_listeners [] (with_document (document one_reel) (attached one_reel reel))))
    = Normal tt /\
  document (state_after (cleanupVideo reel
    (with_listeners [] (with_document (document one_reel) (attached one_reel reel)))))
    = document one_reel /\
  cleanupMap (state_after (cleanupVideo reel
    (with_listeners [] (with_document (document one_reel) (attached one_reel reel)))))
    !! 2%nat = None.
Proof.
  destruct (teardown_is_best_effort reel (teardown one_reel reel)
    (with_listeners [] (with_document (document one_reel) (attached one_reel reel)))
    eq_refl) as (Hdone & Hrec & _ & _ & Hdoc & _).
  split; [exact Hdone|]. split; [|exact Hrec].
  apply Hdoc. vm_compute. intros Hin.
  repeat (apply elem_of_cons in Hin as [Hin|Hin]; [discriminate|]).
  now apply elem_of_nil in Hin.
Defined.

End BestEffort.

Section Surfaces.
Local Open Scope float_scope.

(** X22. The keyboard shortcuts and the command messages run the same
    commands with the same steps: for a key and a command name bound to
    the same function, an Alt key press outside a text field and the
    command message leave the same page, and the key event is taken
    exactly when the message is answered with success.  In particular
    [speed-toggle] does what [speed-up] does. *)
Theorem key_and_message_agree k name event w :
  (k, name) ∈ same_function ->
  key event = k -> altKey event = true ->
  target_tagName event <> "INPUT" -> target_tagName event <> "TEXTAREA" ->
  state_after (handleKeyDown event w)
    = state_after (onMessage {| action := "command"; command := Some name |} w) /\
  exists handled,
    completion (onMessage {| action := "command"; command := Some name |} w)
      = Normal (sendResponse (success handled), true) /\
    completion (handleKeyDown event w)
      = Normal (if handled then prevent_and_stop event else event).
Proof.
  intros Hin Hk Ha Hi Ht. unfold handleKeyDown.
  apply String.eqb_neq in Hi, Ht. rewrite Hi, Ht, Ha, Hk. cbn [orb negb].
  unfold same_function in Hin.
  repeat (apply elem_of_cons in Hin as [[= -> ->]|Hin];
    [ unfold onMessage, is_command; cbn;
      unfold togglePlayPause, seekBackward, seekForward, increaseVolume,
        decreaseVolume, increaseSpeed, decreaseSpeed, resetSpeed;
      unfold mbind, Stmt_bind, gets;
      destruct (getActiveVideo w);
      (split; [reflexivity|]); eexists; split; reflexivity |]).
  now apply elem_of_nil in Hin.
Qed.

Lemma key_and_message_agree_witness :
  state_after (handleKeyDown
    {| target_tagName := "DIV"; key := "ArrowRight"; altKey := true;
       defaultPrevented := false; propagationStopped := false |} one_reel)
  = state_after (onMessage {| action := "command"; command := Some "seek-forward" |}
                   one_reel).
Proof.
  apply (key_and_message_agree "ArrowRight" "seek-forward"); try reflexivity;
    try discriminate.
  unfold same_function. apply list_elem_of_lookup. now exists 3%nat.
Defined.

End Surfaces.
